(** * Crypto++ base-N codec core and Rijndael core: a shallow embedding

    The development follows [basecode.cpp] (BaseN_Encoder, BaseN_Decoder,
    Grouper) and [rijndael.cpp] (table fill, key schedule, single-block
    encryption and decryption).

    Conventions.
    - A C++ [byte] is a [Byte.byte]; [int], [unsigned int] and [word32]
      values are [Z], with truncation to the destination type written out
      where the source stores into a narrower object.
    - A buffer is a [list]; every access is bounds-checked.  Code runs in
      the [result] monad: [Ok] for a normal return, [Throw] for a C++
      exception, and [Fault] when the source would read or write out of
      range, shift by an amount outside the width of the type, or fail an
      [assert] (a debug build), or when a loop bound of the model is
      exhausted.
    - [FILTER_OUTPUT(site, buf, len, messageEnd)] appends an [Output] record
      to the list of blocks handed downstream; the downstream sink always
      accepts (never blocks), so [Put2] runs to completion and returns 0. *)

From Stdlib Require Import ZArith Lia List Strings.Byte String Btauto.
From stdpp Require Import base option list numbers.

Open Scope Z_scope.

(** ** Results *)

Inductive Exception :=
| InvalidArgument (what : string).

Inductive result (A : Type) : Type :=
| Ok (a : A)
| Throw (ex : Exception)
| Fault.
Arguments Ok {A} a.
Arguments Throw {A} ex.
Arguments Fault {A}.

#[global] Instance result_ret : MRet result := fun A a => Ok a.
#[global] Instance result_bind : MBind result := fun A B f m =>
  match m with
  | Ok a => f a
  | Throw ex => Throw ex
  | Fault => Fault
  end.

Definition of_option {A} (o : option A) : result A :=
  match o with Some a => Ok a | None => Fault end.

(** [assert(c)]. *)
Definition assert (c : bool) : result unit := if c then Ok tt else Fault.

(** ** Bytes, buffers and the filter framework *)

Definition byte_to_Z (c : byte) : Z := Z.of_N (Byte.to_N c).

(** Conversion of an integer to [byte]: the low eight bits. *)
Definition Z_to_byte (z : Z) : byte :=
  default x00 (Byte.of_N (Z.to_N (z mod 256))).

Definition bytes_of_string (s : string) : list byte := list_byte_of_string s.

(** [l[i]] as an rvalue. *)
Definition rd {A} (l : list A) (i : Z) : result A :=
  if i <? 0 then Fault else of_option (l !! Z.to_nat i).

(** [l[i] = x]. *)
Definition wr {A} (l : list A) (i : Z) (x : A) : result (list A) :=
  if (0 <=? i) && (i <? Z.of_nat (length l))
  then Ok (<[Z.to_nat i := x]> l) else Fault.

(** [memset(l + off, v, n)]. *)
Definition memset (l : list byte) (off : Z) (v : byte) (n : Z)
  : result (list byte) :=
  if (0 <=? off) && (0 <=? n) && (off + n <=? Z.of_nat (length l))
  then Ok (take (Z.to_nat off) l ++ replicate (Z.to_nat n) v
           ++ drop (Z.to_nat (off + n)) l)
  else Fault.

(** The first [n] bytes of [l], as handed to [Output]. *)
Definition prefix_of (l : list byte) (n : Z) : result (list byte) :=
  if (0 <=? n) && (n <=? Z.of_nat (length l))
  then Ok (take (Z.to_nat n) l) else Fault.

(** [x >> n] and [x << n] on a 32-bit unsigned value. *)
Definition shr32 (x n : Z) : result Z :=
  if (0 <=? n) && (n <? 32) then Ok (Z.shiftr x n) else Fault.
Definition shl32 (x n : Z) : result Z :=
  if (0 <=? n) && (n <? 32) then Ok (Z.shiftl x n mod 2 ^ 32) else Fault.

(** Conversion of an [int] to [unsigned int]. *)
Definition to_unsigned (x : Z) : Z := x mod 2 ^ 32.

(** One call of [Output] from a [FILTER_OUTPUT] site. *)
Record Output := mkOutput {
  out_site : Z;
  out_data : list byte;
  out_messageEnd : Z }.

(** Everything handed downstream, in order. *)
Definition emitted (os : list Output) : list byte :=
  concat (map out_data os).

(** Modelled from the spec: [GetRequiredParameter] and
    [GetRequiredIntParameter] of the parameter bag, which fail with
    [InvalidArgument] when the named parameter is missing. *)
Definition GetRequiredParameter {A} (className name : string) (v : option A)
  : result A :=
  match v with
  | Some a => Ok a
  | None => Throw (InvalidArgument
                     (className ++ ": missing required parameter '" ++ name ++ "'"))
  end.

(** ** BaseN_Encoder *)

Module BaseN_Encoder.

Record Params := mkParams {
  EncodingLookupArray : option (list byte);
  Log2Base : option Z;
  PaddingByte : option byte;
  Pad : option bool }.

Record t := mk {
  m_alphabet : list byte;
  m_padding : Z;
  m_bitsPerChar : Z;
  m_outputBlockSize : Z;
  m_bytePos : Z;
  m_bitPos : Z;
  m_outBuf : list byte }.

Definition set_cursor (e : t) (bytePos bitPos : Z) (buf : list byte) : t :=
  {| m_alphabet := m_alphabet e; m_padding := m_padding e;
     m_bitsPerChar := m_bitsPerChar e;
     m_outputBlockSize := m_outputBlockSize e;
     m_bytePos := bytePos; m_bitPos := bitPos; m_outBuf := buf |}.

(** [while (i % bitsPerChar != 0) i += 8;] *)
Fixpoint block_bits (fuel : nat) (i bitsPerChar : Z) : result Z :=
  match fuel with
  | O => Fault
  | S fuel =>
      if i mod bitsPerChar =? 0 then Ok i
      else block_bits fuel (i + 8) bitsPerChar
  end.

Definition IsolatedInitialize (parameters : Params) : result t :=
  alphabet ← GetRequiredParameter "BaseN_Encoder" "EncodingLookupArray"
               (EncodingLookupArray parameters);
  bitsPerChar ← GetRequiredParameter "BaseN_Encoder" "Log2Base"
                  (Log2Base parameters);
  if (bitsPerChar <=? 0) || (8 <=? bitsPerChar)
  then Throw (InvalidArgument
                "BaseN_Encoder: Log2Base must be between 1 and 7 inclusive")
  else
    let padding :=
      match PaddingByte parameters with
      | Some padding =>
          if default true (Pad parameters) then byte_to_Z padding else -1
      | None => -1
      end in
    i ← block_bits 8 8 bitsPerChar;
    let outputBlockSize := i / bitsPerChar in
    Ok {| m_alphabet := alphabet; m_padding := padding;
          m_bitsPerChar := bitsPerChar;
          m_outputBlockSize := outputBlockSize;
          m_bytePos := 0; m_bitPos := 0;
          m_outBuf := replicate (Z.to_nat outputBlockSize) x00 |}.

(** The inner [while (true)] of [Put2]: the bits of one input byte, of
    which [bitsLeftInSource] remain at the top of [b], are moved into the
    working buffer. *)
Fixpoint put_bits (fuel : nat) (e : t) (b bitsLeftInSource : Z) : result t :=
  match fuel with
  | O => Fault
  | S fuel =>
      assert (m_bitPos e <? m_bitsPerChar e);;
      let bitsLeftInTarget := to_unsigned (m_bitsPerChar e - m_bitPos e) in
      old ← rd (m_outBuf e) (m_bytePos e);
      hi ← shr32 b (to_unsigned (8 - bitsLeftInTarget));
      buf ← wr (m_outBuf e) (m_bytePos e)
               (Z_to_byte (Z.lor (byte_to_Z old) hi));
      if bitsLeftInTarget <=? bitsLeftInSource then
        let e' := set_cursor e (m_bytePos e + 1) 0 buf in
        let bitsLeftInSource := bitsLeftInSource - bitsLeftInTarget in
        if bitsLeftInSource =? 0 then Ok e'
        else
          b' ← shl32 b bitsLeftInTarget;
          put_bits fuel e' (Z.land b' 255) bitsLeftInSource
      else
        Ok (set_cursor e (m_bytePos e) (m_bitPos e + bitsLeftInSource) buf)
  end.

(** [for (i=0; i<m_bytePos; i++) m_outBuf[i] = m_alphabet[m_outBuf[i]];]
    from index [i] with [n] iterations left; the full-block loop
    ([checked]) also asserts [m_outBuf[i] < (1 << m_bitsPerChar)]. *)
Fixpoint translate (checked : bool) (alphabet : list byte) (bitsPerChar : Z)
    (n : nat) (i : Z) (buf : list byte) : result (list byte) :=
  match n with
  | O => Ok buf
  | S n =>
      v ← rd buf i;
      (if checked
       then one ← shl32 1 bitsPerChar; assert (byte_to_Z v <? one)
       else Ok tt);;
      a ← rd alphabet (byte_to_Z v);
      buf' ← wr buf i a;
      translate checked alphabet bitsPerChar n (i + 1) buf'
  end.

(** The body of [while (m_inputPosition < length)] for the input byte [c]. *)
Definition put_byte (e : t) (c : byte) : result (t * list Output) :=
  buf0 ← (if m_bytePos e =? 0
          then memset (m_outBuf e) 0 x00 (m_outputBlockSize e)
          else Ok (m_outBuf e));
  e1 ← put_bits 9 (set_cursor e (m_bytePos e) (m_bitPos e) buf0)
          (byte_to_Z c) 8;
  assert (m_bytePos e1 <=? m_outputBlockSize e1);;
  if m_bytePos e1 =? m_outputBlockSize e1 then
    buf ← translate true (m_alphabet e1) (m_bitsPerChar e1)
            (Z.to_nat (m_bytePos e1)) 0 (m_outBuf e1);
    data ← prefix_of buf (m_outputBlockSize e1);
    Ok (set_cursor e1 0 0 buf, [mkOutput 1 data 0])
  else Ok (e1, []).

Fixpoint put_loop (e : t) (input : list byte) : result (t * list Output) :=
  match input with
  | [] => Ok (e, [])
  | c :: input =>
      '(e1, out1) ← put_byte e c;
      '(e2, out2) ← put_loop e1 input;
      Ok (e2, out1 ++ out2)
  end.

(** The [if (messageEnd)] block. *)
Definition put_end (e : t) (messageEnd : Z) : result (t * list Output) :=
  let bytePos := if 0 <? m_bitPos e then m_bytePos e + 1 else m_bytePos e in
  buf ← translate false (m_alphabet e) (m_bitsPerChar e)
          (Z.to_nat bytePos) 0 (m_outBuf e);
  '(bytePos, buf) ←
     (if negb (m_padding e =? -1) && (0 <? bytePos) then
        buf' ← memset buf bytePos (Z_to_byte (m_padding e))
                 (m_outputBlockSize e - bytePos);
        Ok (m_outputBlockSize e, buf')
      else Ok (bytePos, buf));
  data ← prefix_of buf bytePos;
  Ok (set_cursor e 0 0 buf, [mkOutput 2 data messageEnd]).

Definition Put2 (e : t) (input : list byte) (messageEnd : Z)
  : result (t * list Output) :=
  '(e1, out1) ← put_loop e input;
  if messageEnd =? 0 then Ok (e1, out1)
  else '(e2, out2) ← put_end e1 messageEnd; Ok (e2, out1 ++ out2).

End BaseN_Encoder.

(** ** BaseN_Decoder *)

Module BaseN_Decoder.

Record Params := mkParams {
  DecodingLookupArray : option (list Z);
  Log2Base : option Z }.

Record t := mk {
  m_lookup : list Z;
  m_bitsPerChar : Z;
  m_outputBlockSize : Z;
  m_bytePos : Z;
  m_bitPos : Z;
  m_outBuf : list byte }.

Definition set_cursor (d : t) (bytePos bitPos : Z) (buf : list byte) : t :=
  {| m_lookup := m_lookup d; m_bitsPerChar := m_bitsPerChar d;
     m_outputBlockSize := m_outputBlockSize d;
     m_bytePos := bytePos; m_bitPos := bitPos; m_outBuf := buf |}.

(** [while (i % 8 != 0) i += bitsPerChar;] *)
Fixpoint block_bits (fuel : nat) (i bitsPerChar : Z) : result Z :=
  match fuel with
  | O => Fault
  | S fuel =>
      if i mod 8 =? 0 then Ok i
      else block_bits fuel (i + bitsPerChar) bitsPerChar
  end.

Definition IsolatedInitialize (parameters : Params) : result t :=
  lookup ← GetRequiredParameter "BaseN_Decoder" "DecodingLookupArray"
             (DecodingLookupArray parameters);
  bitsPerChar ← GetRequiredParameter "BaseN_Decoder" "Log2Base"
                  (Log2Base parameters);
  if (bitsPerChar <=? 0) || (8 <=? bitsPerChar)
  then Throw (InvalidArgument
                "BaseN_Decoder: Log2Base must be between 1 and 7 inclusive")
  else
    i ← block_bits 8 bitsPerChar bitsPerChar;
    let outputBlockSize := i / 8 in
    Ok {| m_lookup := lookup; m_bitsPerChar := bitsPerChar;
          m_outputBlockSize := outputBlockSize;
          m_bytePos := 0; m_bitPos := 0;
          m_outBuf := replicate (Z.to_nat outputBlockSize) x00 |}.

(** [m_outBuf[i] |= v;] *)
Definition or_into (buf : list byte) (i v : Z) : result (list byte) :=
  old ← rd buf i;
  wr buf i (Z_to_byte (Z.lor (byte_to_Z old) v)).

(** [while (m_bitPos >= 8) { m_bitPos -= 8; ++m_bytePos; }] *)
Fixpoint carry (fuel : nat) (bytePos bitPos : Z) : result (Z * Z) :=
  match fuel with
  | O => Fault
  | S fuel =>
      if 8 <=? bitPos then carry fuel (bytePos + 1) (bitPos - 8)
      else Ok (bytePos, bitPos)
  end.

(** The body of [while (m_inputPosition < length)] for the input
    character [c]. *)
Definition put_byte (d : t) (c : byte) : result (t * list Output) :=
  entry ← rd (m_lookup d) (byte_to_Z c);
  let value := to_unsigned entry in
  if 256 <=? value then Ok (d, [])
  else
    buf0 ← (if (m_bytePos d =? 0) && (m_bitPos d =? 0)
            then memset (m_outBuf d) 0 x00 (m_outputBlockSize d)
            else Ok (m_outBuf d));
    let newBitPos := m_bitPos d + m_bitsPerChar d in
    buf1 ← (if newBitPos <=? 8 then
              v ← shl32 value (8 - newBitPos);
              or_into buf0 (m_bytePos d) v
            else
              v ← shr32 value (newBitPos - 8);
              buf ← or_into buf0 (m_bytePos d) v;
              v' ← shl32 value (16 - newBitPos);
              or_into buf (m_bytePos d + 1) v');
    '(bytePos, bitPos) ← carry 4 (m_bytePos d) newBitPos;
    if bytePos =? m_outputBlockSize d then
      data ← prefix_of buf1 (m_outputBlockSize d);
      Ok (set_cursor d 0 0 buf1, [mkOutput 1 data 0])
    else Ok (set_cursor d bytePos bitPos buf1, []).

Fixpoint put_loop (d : t) (input : list byte) : result (t * list Output) :=
  match input with
  | [] => Ok (d, [])
  | c :: input =>
      '(d1, out1) ← put_byte d c;
      '(d2, out2) ← put_loop d1 input;
      Ok (d2, out1 ++ out2)
  end.

(** The [if (messageEnd)] block. *)
Definition put_end (d : t) (messageEnd : Z) : result (t * list Output) :=
  data ← prefix_of (m_outBuf d) (m_bytePos d);
  Ok (set_cursor d 0 0 (m_outBuf d), [mkOutput 2 data messageEnd]).

Definition Put2 (d : t) (input : list byte) (messageEnd : Z)
  : result (t * list Output) :=
  '(d1, out1) ← put_loop d input;
  if messageEnd =? 0 then Ok (d1, out1)
  else '(d2, out2) ← put_end d1 messageEnd; Ok (d2, out1 ++ out2).

(** [isalpha], [toupper] and [tolower] of <ctype.h>, in the "C" locale. *)
Definition isalpha (c : Z) : bool :=
  ((65 <=? c) && (c <=? 90)) || ((97 <=? c) && (c <=? 122)).
Definition toupper (c : Z) : Z :=
  if (97 <=? c) && (c <=? 122) then c - 32 else c.
Definition tolower (c : Z) : Z :=
  if (65 <=? c) && (c <=? 90) then c + 32 else c.

(** [assert(lookup[k] == -1); lookup[k] = i;] *)
Definition register (lookup : list Z) (k i : Z) : result (list Z) :=
  old ← rd lookup k;
  assert (old =? -1);;
  wr lookup k i.

(** The [for] loop of [InitializeDecodingLookupArray], from index [i] with
    [n] iterations left. *)
Fixpoint fill_lookup (caseInsensitive : bool) (alphabet : list byte)
    (n : nat) (i : Z) (lookup : list Z) : result (list Z) :=
  match n with
  | O => Ok lookup
  | S n =>
      a ← rd alphabet i;
      lookup' ←
        (if caseInsensitive && isalpha (byte_to_Z a) then
           l1 ← register lookup (toupper (byte_to_Z a)) i;
           register l1 (tolower (byte_to_Z a)) i
         else register lookup (byte_to_Z a) i);
      fill_lookup caseInsensitive alphabet n (i + 1) lookup'
  end.

Definition InitializeDecodingLookupArray (alphabet : list byte) (base : Z)
    (caseInsensitive : bool) : result (list Z) :=
  fill_lookup caseInsensitive alphabet (Z.to_nat base) 0 (replicate 256 (-1)).

End BaseN_Decoder.

(** ** Grouper *)

Module Grouper.

Record Params := mkParams {
  GroupSize : option Z;
  Separator : option (list byte);
  Terminator : option (list byte) }.

(** [m_groupSize] and [m_counter] are unsigned. *)
Record t := mk {
  m_separator : list byte;
  m_terminator : list byte;
  m_groupSize : Z;
  m_counter : Z }.

Definition set_counter (g : t) (counter : Z) : t :=
  {| m_separator := m_separator g; m_terminator := m_terminator g;
     m_groupSize := m_groupSize g; m_counter := counter |}.

Definition IsolatedInitialize (parameters : Params) : result t :=
  let groupSize := to_unsigned (default 0 (GroupSize parameters)) in
  separator ← (if groupSize =? 0 then Ok []
               else GetRequiredParameter "Grouper" "Separator"
                      (Separator parameters));
  let terminator := default [] (Terminator parameters) in
  Ok {| m_separator := separator; m_terminator := terminator;
        m_groupSize := groupSize; m_counter := 0 |}.

(** [while (m_inputPosition < length)] over the input that is left; every
    iteration forwards at least one byte, so the length of the input bounds
    the number of iterations. *)
Fixpoint put_loop (fuel : nat) (g : t) (input : list byte)
  : result (t * list Output) :=
  match input with
  | [] => Ok (g, [])
  | _ :: _ =>
    match fuel with
    | O => Fault
    | S fuel =>
      let '(counter, out1) :=
        if m_counter g =? m_groupSize g
        then (0, [mkOutput 1 (m_separator g) 0])
        else (m_counter g, []) in
      let len := Z.min (Z.of_nat (length input))
                       (to_unsigned (m_groupSize g - counter)) in
      data ← prefix_of input len;
      '(g', out2) ← put_loop fuel
                      (set_counter g (to_unsigned (counter + len)))
                      (drop (Z.to_nat len) input);
      Ok (g', out1 ++ mkOutput 2 data 0 :: out2)
    end
  end.

Definition Put2 (g : t) (input : list byte) (messageEnd : Z)
  : result (t * list Output) :=
  '(g1, out1) ←
     (if m_groupSize g =? 0 then Ok (g, [mkOutput 3 input 0])
      else put_loop (length input) g input);
  if messageEnd =? 0 then Ok (g1, out1)
  else Ok (set_counter g1 0, out1 ++ [mkOutput 4 (m_terminator g1) messageEnd]).

End Grouper.

(** ** Rijndael

    The portable C++ path of [rijndael.cpp] on a little-endian host:
    [IS_LITTLE_ENDIAN] defined, [CRYPTOPP_ALLOW_UNALIGNED_DATA_ACCESS] and
    the SSE2 assembly not. *)

Module Rijndael.

Inductive CipherDir := ENCRYPTION | DECRYPTION.

(** Modelled from the spec: the forward and inverse S-boxes of the AES
    standard and the round constants, which the source takes from
    [rdtables.cpp]. *)
Definition Se : list Z := [
  0x63; 0x7c; 0x77; 0x7b; 0xf2; 0x6b; 0x6f; 0xc5; 0x30; 0x01; 0x67; 0x2b; 0xfe; 0xd7; 0xab; 0x76;
  0xca; 0x82; 0xc9; 0x7d; 0xfa; 0x59; 0x47; 0xf0; 0xad; 0xd4; 0xa2; 0xaf; 0x9c; 0xa4; 0x72; 0xc0;
  0xb7; 0xfd; 0x93; 0x26; 0x36; 0x3f; 0xf7; 0xcc; 0x34; 0xa5; 0xe5; 0xf1; 0x71; 0xd8; 0x31; 0x15;
  0x04; 0xc7; 0x23; 0xc3; 0x18; 0x96; 0x05; 0x9a; 0x07; 0x12; 0x80; 0xe2; 0xeb; 0x27; 0xb2; 0x75;
  0x09; 0x83; 0x2c; 0x1a; 0x1b; 0x6e; 0x5a; 0xa0; 0x52; 0x3b; 0xd6; 0xb3; 0x29; 0xe3; 0x2f; 0x84;
  0x53; 0xd1; 0x00; 0xed; 0x20; 0xfc; 0xb1; 0x5b; 0x6a; 0xcb; 0xbe; 0x39; 0x4a; 0x4c; 0x58; 0xcf;
  0xd0; 0xef; 0xaa; 0xfb; 0x43; 0x4d; 0x33; 0x85; 0x45; 0xf9; 0x02; 0x7f; 0x50; 0x3c; 0x9f; 0xa8;
  0x51; 0xa3; 0x40; 0x8f; 0x92; 0x9d; 0x38; 0xf5; 0xbc; 0xb6; 0xda; 0x21; 0x10; 0xff; 0xf3; 0xd2;
  0xcd; 0x0c; 0x13; 0xec; 0x5f; 0x97; 0x44; 0x17; 0xc4; 0xa7; 0x7e; 0x3d; 0x64; 0x5d; 0x19; 0x73;
  0x60; 0x81; 0x4f; 0xdc; 0x22; 0x2a; 0x90; 0x88; 0x46; 0xee; 0xb8; 0x14; 0xde; 0x5e; 0x0b; 0xdb;
  0xe0; 0x32; 0x3a; 0x0a; 0x49; 0x06; 0x24; 0x5c; 0xc2; 0xd3; 0xac; 0x62; 0x91; 0x95; 0xe4; 0x79;
  0xe7; 0xc8; 0x37; 0x6d; 0x8d; 0xd5; 0x4e; 0xa9; 0x6c; 0x56; 0xf4; 0xea; 0x65; 0x7a; 0xae; 0x08;
  0xba; 0x78; 0x25; 0x2e; 0x1c; 0xa6; 0xb4; 0xc6; 0xe8; 0xdd; 0x74; 0x1f; 0x4b; 0xbd; 0x8b; 0x8a;
  0x70; 0x3e; 0xb5; 0x66; 0x48; 0x03; 0xf6; 0x0e; 0x61; 0x35; 0x57; 0xb9; 0x86; 0xc1; 0x1d; 0x9e;
  0xe1; 0xf8; 0x98; 0x11; 0x69; 0xd9; 0x8e; 0x94; 0x9b; 0x1e; 0x87; 0xe9; 0xce; 0x55; 0x28; 0xdf;
  0x8c; 0xa1; 0x89; 0x0d; 0xbf; 0xe6; 0x42; 0x68; 0x41; 0x99; 0x2d; 0x0f; 0xb0; 0x54; 0xbb; 0x16].

Definition Sd : list Z := [
  0x52; 0x09; 0x6a; 0xd5; 0x30; 0x36; 0xa5; 0x38; 0xbf; 0x40; 0xa3; 0x9e; 0x81; 0xf3; 0xd7; 0xfb;
  0x7c; 0xe3; 0x39; 0x82; 0x9b; 0x2f; 0xff; 0x87; 0x34; 0x8e; 0x43; 0x44; 0xc4; 0xde; 0xe9; 0xcb;
  0x54; 0x7b; 0x94; 0x32; 0xa6; 0xc2; 0x23; 0x3d; 0xee; 0x4c; 0x95; 0x0b; 0x42; 0xfa; 0xc3; 0x4e;
  0x08; 0x2e; 0xa1; 0x66; 0x28; 0xd9; 0x24; 0xb2; 0x76; 0x5b; 0xa2; 0x49; 0x6d; 0x8b; 0xd1; 0x25;
  0x72; 0xf8; 0xf6; 0x64; 0x86; 0x68; 0x98; 0x16; 0xd4; 0xa4; 0x5c; 0xcc; 0x5d; 0x65; 0xb6; 0x92;
  0x6c; 0x70; 0x48; 0x50; 0xfd; 0xed; 0xb9; 0xda; 0x5e; 0x15; 0x46; 0x57; 0xa7; 0x8d; 0x9d; 0x84;
  0x90; 0xd8; 0xab; 0x00; 0x8c; 0xbc; 0xd3; 0x0a; 0xf7; 0xe4; 0x58; 0x05; 0xb8; 0xb3; 0x45; 0x06;
  0xd0; 0x2c; 0x1e; 0x8f; 0xca; 0x3f; 0x0f; 0x02; 0xc1; 0xaf; 0xbd; 0x03; 0x01; 0x13; 0x8a; 0x6b;
  0x3a; 0x91; 0x11; 0x41; 0x4f; 0x67; 0xdc; 0xea; 0x97; 0xf2; 0xcf; 0xce; 0xf0; 0xb4; 0xe6; 0x73;
  0x96; 0xac; 0x74; 0x22; 0xe7; 0xad; 0x35; 0x85; 0xe2; 0xf9; 0x37; 0xe8; 0x1c; 0x75; 0xdf; 0x6e;
  0x47; 0xf1; 0x1a; 0x71; 0x1d; 0x29; 0xc5; 0x89; 0x6f; 0xb7; 0x62; 0x0e; 0xaa; 0x18; 0xbe; 0x1b;
  0xfc; 0x56; 0x3e; 0x4b; 0xc6; 0xd2; 0x79; 0x20; 0x9a; 0xdb; 0xc0; 0xfe; 0x78; 0xcd; 0x5a; 0xf4;
  0x1f; 0xdd; 0xa8; 0x33; 0x88; 0x07; 0xc7; 0x31; 0xb1; 0x12; 0x10; 0x59; 0x27; 0x80; 0xec; 0x5f;
  0x60; 0x51; 0x7f; 0xa9; 0x19; 0xb5; 0x4a; 0x0d; 0x2d; 0xe5; 0x7a; 0x9f; 0x93; 0xc9; 0x9c; 0xef;
  0xa0; 0xe0; 0x3b; 0x4d; 0xae; 0x2a; 0xf5; 0xb0; 0xc8; 0xeb; 0xbb; 0x3c; 0x83; 0x53; 0x99; 0x61;
  0x17; 0x2b; 0x04; 0x7e; 0xba; 0x77; 0xd6; 0x26; 0xe1; 0x69; 0x14; 0x63; 0x55; 0x21; 0x0c; 0x7d].

Definition rcon : list Z := [
  0x01000000; 0x02000000; 0x04000000; 0x08000000;
  0x10000000; 0x20000000; 0x40000000; 0x80000000;
  0x1B000000; 0x36000000].

(** [T[i]] for a table of the source. *)
Definition idx (T : list Z) (i : Z) : Z := T !!! Z.to_nat i.

(** Conversion to [word32]. *)
Definition word32 (x : Z) : Z := x mod 2 ^ 32.

(** [byte(x)] *)
Definition byte_of (x : Z) : Z := Z.land x 255.

(** Modelled from the spec: [GETBYTE], [rotrFixed] and [ByteReverse] of
    [misc.h]. *)
Definition GETBYTE (x y : Z) : Z := byte_of (Z.shiftr x (8 * y)).
Definition rotrFixed (x y : Z) : Z :=
  word32 (Z.lor (Z.shiftr x y) (Z.shiftl x (32 - y))).
Definition ByteReverse (x : Z) : Z :=
  Z.lor (Z.lor (Z.lor (Z.shiftl (GETBYTE x 0) 24) (Z.shiftl (GETBYTE x 1) 16))
               (Z.shiftl (GETBYTE x 2) 8)) (GETBYTE x 3).

(** The [f2] .. [fe] macros. *)
Definition f2 (x : Z) : Z :=
  Z.lxor (Z.shiftl x 1) (Z.land (Z.shiftr x 7) 1 * 0x11b).
Definition f4 (x : Z) : Z :=
  Z.lxor (Z.lxor (Z.shiftl x 2) (Z.land (Z.shiftr x 6) 1 * 0x11b))
         (Z.land (Z.shiftr x 6) 2 * 0x11b).
Definition f8 (x : Z) : Z :=
  Z.lxor (Z.lxor (Z.lxor (Z.shiftl x 3) (Z.land (Z.shiftr x 5) 1 * 0x11b))
                 (Z.land (Z.shiftr x 5) 2 * 0x11b))
         (Z.land (Z.shiftr x 5) 4 * 0x11b).
Definition f3 (x : Z) : Z := Z.lxor (f2 x) x.
Definition f9 (x : Z) : Z := Z.lxor (f8 x) x.
Definition fb (x : Z) : Z := Z.lxor (Z.lxor (f8 x) (f2 x)) x.
Definition fd (x : Z) : Z := Z.lxor (Z.lxor (f8 x) (f4 x)) x.
Definition fe (x : Z) : Z := Z.lxor (Z.lxor (f8 x) (f4 x)) (f2 x).

(** [for (int j=0; j<4; j++) { T[i+j*256] = y; y = rotrFixed(y, 8); }] *)
Definition fill_rotations (T : list Z) (i y : Z) : list Z :=
  (foldl (fun Ty j => (<[Z.to_nat (i + j * 256) := Ty.2]> Ty.1,
                       rotrFixed Ty.2 8))
         (T, y) [0; 1; 2; 3]).1.

Definition enc_word (x : Z) : Z :=
  word32 (Z.lor (Z.lor (Z.lor (f3 x) (word32 (Z.shiftl (word32 x) 8)))
                       (word32 (Z.shiftl (word32 x) 16)))
                (word32 (Z.shiftl (word32 (f2 x)) 24))).

Definition dec_word (x : Z) : Z :=
  word32 (Z.lor (Z.lor (Z.lor (fb x) (word32 (Z.shiftl (word32 (fd x)) 8)))
                       (word32 (Z.shiftl (word32 (f9 x)) 16)))
                (word32 (Z.shiftl (word32 (fe x)) 24))).

Definition FillEncTable (T : list Z) : list Z :=
  foldl (fun T i => fill_rotations T i (enc_word (idx Se i))) T (seqZ 0 256).

Definition FillDecTable (T : list Z) : list Z :=
  foldl (fun T i => fill_rotations T i (dec_word (idx Sd i))) T (seqZ 0 256).

(** The static tables [Te] and [Td], once filled. *)
Definition Te : list Z := Eval vm_compute in FillEncTable (replicate 1024 0).
Definition Td : list Z := Eval vm_compute in FillDecTable (replicate 1024 0).

(** *** Key schedule *)

Record t := mk {
  m_rounds : Z;
  m_key : list Z }.

(** Four bytes of a block as a [word32], in either byte order. *)
Definition word_le (b0 b1 b2 b3 : byte) : Z :=
  Z.lor (Z.lor (Z.lor (byte_to_Z b0) (Z.shiftl (byte_to_Z b1) 8))
               (Z.shiftl (byte_to_Z b2) 16)) (Z.shiftl (byte_to_Z b3) 24).
Definition word_be (b0 b1 b2 b3 : byte) : Z := word_le b3 b2 b1 b0.

(** Modelled from the spec: [GetUserKey(BIG_ENDIAN_ORDER, ...)] of [misc.h],
    which reads the user key as big-endian 32-bit words. *)
Fixpoint GetUserKey (userKey : list byte) : list Z :=
  match userKey with
  | b0 :: b1 :: b2 :: b3 :: userKey => word_be b0 b1 b2 b3 :: GetUserKey userKey
  | _ => []
  end.

(** [SubWord(RotWord(temp))] and [SubWord(temp)] as the source spells them. *)
Definition sub_rot (temp : Z) : Z :=
  Z.lxor (Z.lxor (Z.lxor (word32 (Z.shiftl (idx Se (GETBYTE temp 2)) 24))
                         (word32 (Z.shiftl (idx Se (GETBYTE temp 1)) 16)))
                 (word32 (Z.shiftl (idx Se (GETBYTE temp 0)) 8)))
         (idx Se (GETBYTE temp 3)).
Definition sub_word (temp : Z) : Z :=
  Z.lxor (Z.lxor (Z.lxor (word32 (Z.shiftl (idx Se (GETBYTE temp 3)) 24))
                         (word32 (Z.shiftl (idx Se (GETBYTE temp 2)) 16)))
                 (word32 (Z.shiftl (idx Se (GETBYTE temp 1)) 8)))
         (idx Se (GETBYTE temp 0)).

(** [key[rk + d] = key[rk + a] ^ key[rk + b]] *)
Definition xor_into (key : list Z) (rk d a b : Z) : result (list Z) :=
  x ← rd key (rk + a);
  y ← rd key (rk + b);
  wr key (rk + d) (Z.lxor x y).

(** The [while (true)] loop of [UncheckedSetKey]; [rk] and [rc] are the
    offsets of the two pointers into [m_key] and [rcon]. *)
Fixpoint expand (fuel : nat) (keylen : Z) (key : list Z) (rk rc : Z)
  : result (list Z) :=
  match fuel with
  | O => Fault
  | S fuel =>
      temp ← rd key (rk + keylen / 4 - 1);
      k0 ← rd key rk;
      c ← rd rcon rc;
      key ← wr key (rk + keylen / 4) (Z.lxor (Z.lxor k0 (sub_rot temp)) c);
      key ← xor_into key rk (keylen / 4 + 1) 1 (keylen / 4);
      key ← xor_into key rk (keylen / 4 + 2) 2 (keylen / 4 + 1);
      key ← xor_into key rk (keylen / 4 + 3) 3 (keylen / 4 + 2);
      if rk + keylen / 4 + 4 =? Z.of_nat (length key) then Ok key
      else
        key ←
          (if keylen =? 24 then
             key ← xor_into key rk 10 4 9;
             xor_into key rk 11 5 10
           else if keylen =? 32 then
             temp ← rd key (rk + 11);
             k4 ← rd key (rk + 4);
             key ← wr key (rk + 12) (Z.lxor k4 (sub_word temp));
             key ← xor_into key rk 13 5 12;
             key ← xor_into key rk 14 6 13;
             xor_into key rk 15 7 14
           else Ok key);
        expand fuel keylen key (rk + keylen / 4) (rc + 1)
  end.

(** [temp = rk[i]; rk[i] = rk[j]; rk[j] = temp;] *)
Definition swap (key : list Z) (i j : Z) : result (list Z) :=
  temp ← rd key i;
  x ← rd key j;
  key ← wr key i x;
  wr key j temp.

(** [for (i = 0, j = 4*m_rounds; i < j; i += 4, j -= 4)] *)
Fixpoint invert_order (fuel : nat) (key : list Z) (i j : Z)
  : result (list Z) :=
  if i <? j then
    match fuel with
    | O => Fault
    | S fuel =>
        key ← swap key i j;
        key ← swap key (i + 1) (j + 1);
        key ← swap key (i + 2) (j + 2);
        key ← swap key (i + 3) (j + 3);
        invert_order fuel key (i + 4) (j - 4)
    end
  else Ok key.

(** The inverse MixColumn transform of one round-key word. *)
Definition inv_mix_word (w : Z) : Z :=
  Z.lxor (Z.lxor (Z.lxor (idx Td (0 * 256 + idx Se (GETBYTE w 3)))
                         (idx Td (1 * 256 + idx Se (GETBYTE w 2))))
                 (idx Td (2 * 256 + idx Se (GETBYTE w 1))))
         (idx Td (3 * 256 + idx Se (GETBYTE w 0))).

Definition inv_mix_at (key : list Z) (i : Z) : result (list Z) :=
  w ← rd key i;
  wr key i (inv_mix_word w).

(** [for (i = 1; i < m_rounds; i++) { rk += 4; ... }] with [n] iterations
    left. *)
Fixpoint inv_mix_keys (n : nat) (key : list Z) (rk : Z) : result (list Z) :=
  match n with
  | O => Ok key
  | S n =>
      let rk := rk + 4 in
      key ← inv_mix_at key rk;
      key ← inv_mix_at key (rk + 1);
      key ← inv_mix_at key (rk + 2);
      key ← inv_mix_at key (rk + 3);
      inv_mix_keys n key rk
  end.

Definition byte_reverse_at (key : list Z) (i : Z) : result (list Z) :=
  w ← rd key i;
  wr key i (ByteReverse w).

(** [ConditionalByteReverse(BIG_ENDIAN_ORDER, p, p, 16)] on four key words. *)
Definition ConditionalByteReverse (key : list Z) (p : Z) : result (list Z) :=
  key ← byte_reverse_at key p;
  key ← byte_reverse_at key (p + 1);
  key ← byte_reverse_at key (p + 2);
  byte_reverse_at key (p + 3).

Definition UncheckedSetKey (dir : CipherDir) (userKey : list byte)
  : result t :=
  let keylen := Z.of_nat (length userKey) in
  assert ((keylen =? 16) || (keylen =? 24) || (keylen =? 32));;
  let rounds := keylen / 4 + 6 in
  let key := GetUserKey userKey
             ++ replicate (Z.to_nat (4 * (rounds + 1) - keylen / 4)) 0 in
  key ← expand 10 keylen key 0 0;
  key ←
    match dir with
    | ENCRYPTION => Ok key
    | DECRYPTION =>
        key ← invert_order 8 key 0 (4 * rounds);
        inv_mix_keys (Z.to_nat (rounds - 1)) key 0
    end;
  key ← ConditionalByteReverse key 0;
  key ← ConditionalByteReverse key (rounds * 4);
  Ok {| m_rounds := rounds; m_key := key |}.

(** *** Single-block engine *)

(** The 32-bit word at byte offset [i] of a table of [word32]. *)
Definition peek32 (T : list Z) (i : Z) : Z :=
  let q := i / 4 in
  let r := i mod 4 in
  if r =? 0 then idx T q
  else word32 (Z.lor (Z.shiftr (idx T q) (8 * r))
                     (Z.shiftl (idx T (q + 1)) (32 - 8 * r))).

(** [for (i=0; i<limit; i+=cacheLineSize) u &= read(i);] *)
Fixpoint preload (fuel : nat) (cacheLineSize : Z) (read : Z -> Z)
    (limit i u : Z) : result Z :=
  if i <? limit then
    match fuel with
    | O => Fault
    | S fuel =>
        preload fuel cacheLineSize read limit (word32 (i + cacheLineSize))
          (Z.land u (read i))
    end
  else Ok u.

(** The four words of a 16-byte block, read through a [word32] pointer. *)
Definition block_words (block : list byte) : result (Z * Z * Z * Z) :=
  match block with
  | b0 :: b1 :: b2 :: b3 :: b4 :: b5 :: b6 :: b7 :: b8 :: b9 :: b10 :: b11
    :: b12 :: b13 :: b14 :: b15 :: _ =>
      Ok (word_le b0 b1 b2 b3, word_le b4 b5 b6 b7,
          word_le b8 b9 b10 b11, word_le b12 b13 b14 b15)
  | _ => Fault
  end.

(** The bytes stored by a write of [w] through a [word32] pointer. *)
Definition word_bytes (w : Z) : list byte :=
  [Z_to_byte (GETBYTE w 0); Z_to_byte (GETBYTE w 1);
   Z_to_byte (GETBYTE w 2); Z_to_byte (GETBYTE w 3)].

(** The tail of both block functions: [obw[i] = tbw[i] ^ xbw[i] ^ rk[i]]. *)
Definition xor_out (tempBlock : list byte) (xorBlock : option (list byte))
    (rk : list Z) : result (list byte) :=
  '(tbw0, tbw1, tbw2, tbw3) ← block_words tempBlock;
  match rk with
  | rk0 :: rk1 :: rk2 :: rk3 :: _ =>
      match xorBlock with
      | Some xorBlock =>
          '(xbw0, xbw1, xbw2, xbw3) ← block_words xorBlock;
          Ok (word_bytes (Z.lxor (Z.lxor tbw0 xbw0) rk0)
              ++ word_bytes (Z.lxor (Z.lxor tbw1 xbw1) rk1)
              ++ word_bytes (Z.lxor (Z.lxor tbw2 xbw2) rk2)
              ++ word_bytes (Z.lxor (Z.lxor tbw3 xbw3) rk3))
      | None =>
          Ok (word_bytes (Z.lxor tbw0 rk0) ++ word_bytes (Z.lxor tbw1 rk1)
              ++ word_bytes (Z.lxor tbw2 rk2) ++ word_bytes (Z.lxor tbw3 rk3))
      end
  | _ => Fault
  end.

Module Enc.

(** [QUARTER_ROUND(t, a, b, c, d)] of the table rounds, for a given [TL]. *)
Definition QUARTER_ROUND (TL : Z -> Z -> Z) (t a b c d : Z) : Z * Z * Z * Z :=
  let a := Z.lxor a (TL 3 (byte_of t)) in let t := Z.shiftr t 8 in
  let b := Z.lxor b (TL 2 (byte_of t)) in let t := Z.shiftr t 8 in
  let c := Z.lxor c (TL 1 (byte_of t)) in let t := Z.shiftr t 8 in
  let d := Z.lxor d (TL 0 t) in
  (a, b, c, d).

(** [TL] of the first round, and [QUARTER_ROUND1]. *)
Definition TL_first (i x : Z) : Z := rotrFixed (idx Te x) ((3 - i) * 8).
Definition QUARTER_ROUND1 (t a b c d : Z) : Z * Z * Z * Z :=
  let '(d, c, b, a) := QUARTER_ROUND TL_first t d c b a in (a, b, c, d).

(** [TL] of the full rounds. *)
Definition TL (i x : Z) : Z := idx Te (i * 256 + x).

(** Four [QUARTER_ROUND]s: one full round from [(t0,t1,t2,t3)] into
    [(s0,s1,s2,s3)], which hold the round key on entry. *)
Definition full_round (s t : Z * Z * Z * Z) : Z * Z * Z * Z :=
  let '(s0, s1, s2, s3) := s in
  let '(t0, t1, t2, t3) := t in
  let '(s0, s1, s2, s3) := QUARTER_ROUND TL t3 s0 s1 s2 s3 in
  let '(s3, s0, s1, s2) := QUARTER_ROUND TL t2 s3 s0 s1 s2 in
  let '(s2, s3, s0, s1) := QUARTER_ROUND TL t1 s2 s3 s0 s1 in
  let '(s1, s2, s3, s0) := QUARTER_ROUND TL t0 s1 s2 s3 s0 in
  (s0, s1, s2, s3).

(** The [do { ... } while (--r)] loop: two full rounds per iteration. *)
Fixpoint rounds (rk : list Z) (r : Z) (t : Z * Z * Z * Z)
  : result (Z * Z * Z * Z * list Z) :=
  match rk with
  | rk0 :: rk1 :: rk2 :: rk3 :: rk4 :: rk5 :: rk6 :: rk7 :: rk =>
      let s := full_round (rk0, rk1, rk2, rk3) t in
      let t := full_round (rk4, rk5, rk6, rk7) s in
      let r := word32 (r - 1) in
      if r =? 0 then Ok (t, rk) else rounds rk r t
  | _ => Fault
  end.

(** [QUARTER_ROUND(t, a, b, c, d)] of the last round. *)
Definition QUARTER_ROUND_last (tempBlock : list byte) (t : Z) (a b c d : nat)
  : list byte :=
  let tempBlock := <[a := Z_to_byte (GETBYTE (idx Te (byte_of t)) 1)]> tempBlock in
  let t := Z.shiftr t 8 in
  let tempBlock := <[b := Z_to_byte (GETBYTE (idx Te (byte_of t)) 1)]> tempBlock in
  let t := Z.shiftr t 8 in
  let tempBlock := <[c := Z_to_byte (GETBYTE (idx Te (byte_of t)) 1)]> tempBlock in
  let t := Z.shiftr t 8 in
  <[d := Z_to_byte (GETBYTE (idx Te t) 1)]> tempBlock.

(** [cacheLineSize] is the value of [GetCacheLineSize()]. *)
Definition ProcessAndXorBlock (cacheLineSize : Z) (c : t)
    (inBlock : list byte) (xorBlock : option (list byte))
  : result (list byte) :=
  '(i0, i1, i2, i3) ← block_words inBlock;
  match m_key c with
  | rk0 :: rk1 :: rk2 :: rk3 :: rk4 :: rk5 :: rk6 :: rk7 :: rk =>
      let s0 := Z.lxor i0 rk0 in
      let s1 := Z.lxor i1 rk1 in
      let s2 := Z.lxor i2 rk2 in
      let s3 := Z.lxor i3 rk3 in
      let '(t0, t1, t2, t3) := (rk4, rk5, rk6, rk7) in
      u ← preload 1024 cacheLineSize (peek32 Te) 1024 0 0;
      let u := Z.land u (idx Te 255) in
      let s0 := Z.lor s0 u in
      let s1 := Z.lor s1 u in
      let s2 := Z.lor s2 u in
      let s3 := Z.lor s3 u in
      let '(t0, t1, t2, t3) := QUARTER_ROUND1 s3 t0 t1 t2 t3 in
      let '(t3, t0, t1, t2) := QUARTER_ROUND1 s2 t3 t0 t1 t2 in
      let '(t2, t3, t0, t1) := QUARTER_ROUND1 s1 t2 t3 t0 t1 in
      let '(t1, t2, t3, t0) := QUARTER_ROUND1 s0 t1 t2 t3 t0 in
      '(t0, t1, t2, t3, rk) ← rounds rk (word32 (m_rounds c / 2 - 1))
                                 (t0, t1, t2, t3);
      let tempBlock := replicate 16 x00 in
      let tempBlock := QUARTER_ROUND_last tempBlock t2 15 2 5 8 in
      let tempBlock := QUARTER_ROUND_last tempBlock t1 11 14 1 4 in
      let tempBlock := QUARTER_ROUND_last tempBlock t0 7 10 13 0 in
      let tempBlock := QUARTER_ROUND_last tempBlock t3 3 6 9 12 in
      xor_out tempBlock xorBlock rk
  | _ => Fault
  end.

End Enc.

Module Dec.

(** [QUARTER_ROUND(t, a, b, c, d)] of the first round. *)
Definition QUARTER_ROUND_first (t a b c d : Z) : Z * Z * Z * Z :=
  let d := Z.lxor d (idx Td (byte_of t)) in let t := Z.shiftr t 8 in
  let c := Z.lxor c (rotrFixed (idx Td (byte_of t)) 8) in let t := Z.shiftr t 8 in
  let b := Z.lxor b (rotrFixed (idx Td (byte_of t)) 16) in let t := Z.shiftr t 8 in
  let a := Z.lxor a (rotrFixed (idx Td t) 24) in
  (a, b, c, d).

(** [QUARTER_ROUND(t, a, b, c, d)] of the full rounds. *)
Definition QUARTER_ROUND (t a b c d : Z) : Z * Z * Z * Z :=
  let a := Z.lxor a (idx Td (3 * 256 + byte_of t)) in let t := Z.shiftr t 8 in
  let b := Z.lxor b (idx Td (2 * 256 + byte_of t)) in let t := Z.shiftr t 8 in
  let c := Z.lxor c (idx Td (1 * 256 + byte_of t)) in let t := Z.shiftr t 8 in
  let d := Z.lxor d (idx Td t) in
  (a, b, c, d).

Definition full_round (s t : Z * Z * Z * Z) : Z * Z * Z * Z :=
  let '(s0, s1, s2, s3) := s in
  let '(t0, t1, t2, t3) := t in
  let '(s2, s1, s0, s3) := QUARTER_ROUND t3 s2 s1 s0 s3 in
  let '(s1, s0, s3, s2) := QUARTER_ROUND t2 s1 s0 s3 s2 in
  let '(s0, s3, s2, s1) := QUARTER_ROUND t1 s0 s3 s2 s1 in
  let '(s3, s2, s1, s0) := QUARTER_ROUND t0 s3 s2 s1 s0 in
  (s0, s1, s2, s3).

Fixpoint rounds (rk : list Z) (r : Z) (t : Z * Z * Z * Z)
  : result (Z * Z * Z * Z * list Z) :=
  match rk with
  | rk0 :: rk1 :: rk2 :: rk3 :: rk4 :: rk5 :: rk6 :: rk7 :: rk =>
      let s := full_round (rk0, rk1, rk2, rk3) t in
      let t := full_round (rk4, rk5, rk6, rk7) s in
      let r := word32 (r - 1) in
      if r =? 0 then Ok (t, rk) else rounds rk r t
  | _ => Fault
  end.

(** [QUARTER_ROUND(t, a, b, c, d)] of the last round. *)
Definition QUARTER_ROUND_last (tempBlock : list byte) (t : Z) (a b c d : nat)
  : list byte :=
  let tempBlock := <[a := Z_to_byte (idx Sd (byte_of t))]> tempBlock in
  let t := Z.shiftr t 8 in
  let tempBlock := <[b := Z_to_byte (idx Sd (byte_of t))]> tempBlock in
  let t := Z.shiftr t 8 in
  let tempBlock := <[c := Z_to_byte (idx Sd (byte_of t))]> tempBlock in
  let t := Z.shiftr t 8 in
  <[d := Z_to_byte (idx Sd t)]> tempBlock.

(** The 32-bit word at byte offset [i] of the byte table [Sd]. *)
Definition peek32_Sd (i : Z) : Z :=
  Z.lor (Z.lor (Z.lor (idx Sd i) (Z.shiftl (idx Sd (i + 1)) 8))
               (Z.shiftl (idx Sd (i + 2)) 16)) (Z.shiftl (idx Sd (i + 3)) 24).

(** [cacheLineSize] is the value of [GetCacheLineSize()]. *)
Definition ProcessAndXorBlock (cacheLineSize : Z) (c : t)
    (inBlock : list byte) (xorBlock : option (list byte))
  : result (list byte) :=
  '(i0, i1, i2, i3) ← block_words inBlock;
  match m_key c with
  | rk0 :: rk1 :: rk2 :: rk3 :: rk4 :: rk5 :: rk6 :: rk7 :: rk =>
      let s0 := Z.lxor i0 rk0 in
      let s1 := Z.lxor i1 rk1 in
      let s2 := Z.lxor i2 rk2 in
      let s3 := Z.lxor i3 rk3 in
      let '(t0, t1, t2, t3) := (rk4, rk5, rk6, rk7) in
      u ← preload 1024 cacheLineSize (peek32 Td) 1024 0 0;
      let u := Z.land u (idx Td 255) in
      let s0 := Z.lor s0 u in
      let s1 := Z.lor s1 u in
      let s2 := Z.lor s2 u in
      let s3 := Z.lor s3 u in
      let '(t2, t1, t0, t3) := QUARTER_ROUND_first s3 t2 t1 t0 t3 in
      let '(t1, t0, t3, t2) := QUARTER_ROUND_first s2 t1 t0 t3 t2 in
      let '(t0, t3, t2, t1) := QUARTER_ROUND_first s1 t0 t3 t2 t1 in
      let '(t3, t2, t1, t0) := QUARTER_ROUND_first s0 t3 t2 t1 t0 in
      '(t0, t1, t2, t3, rk) ← rounds rk (word32 (m_rounds c / 2 - 1))
                                 (t0, t1, t2, t3);
      u ← preload 256 cacheLineSize peek32_Sd 256 0 0;
      let u := Z.land u (peek32_Sd 252) in
      let t0 := Z.lor t0 u in
      let t1 := Z.lor t1 u in
      let t2 := Z.lor t2 u in
      let t3 := Z.lor t3 u in
      let tempBlock := replicate 16 x00 in
      let tempBlock := QUARTER_ROUND_last tempBlock t2 7 2 13 8 in
      let tempBlock := QUARTER_ROUND_last tempBlock t1 3 14 9 4 in
      let tempBlock := QUARTER_ROUND_last tempBlock t0 15 10 5 0 in
      let tempBlock := QUARTER_ROUND_last tempBlock t3 11 6 1 12 in
      xor_out tempBlock xorBlock rk
  | _ => Fault
  end.

End Dec.

End Rijndael.

(** ** Test vectors *)

Definition hex_digit (c : byte) : Z :=
  let n := byte_to_Z c in
  if (48 <=? n) && (n <=? 57) then n - 48
  else if (97 <=? n) && (n <=? 102) then n - 87 else 0.

Fixpoint unhex (l : list byte) : list byte :=
  match l with
  | a :: b :: l => Z_to_byte (hex_digit a * 16 + hex_digit b) :: unhex l
  | _ => []
  end.

(** The bytes written as a string of lower-case hexadecimal digits. *)
Definition hex (s : string) : list byte := unhex (bytes_of_string s).

Definition base64_alphabet : list byte :=
  bytes_of_string
    "ABCDEFGHIJKLMNOPQRSTUVWXYZabcdefghijklmnopqrstuvwxyz0123456789+/".

(** * Verification

    The rest of the file proves properties of the functions above. *)

Module D := BaseN_Decoder.
Module E := BaseN_Encoder.
Module G := Grouper.

#[global] Instance byte_inhabited : Inhabited byte := populate x00.

(** ** Bytes and bitwise operations *)

Lemma byte_to_Z_range c : 0 <= byte_to_Z c < 256.
Proof.
  unfold byte_to_Z. pose proof (Byte.to_N_bounded c). lia.
Qed.

Lemma byte_to_Z_to_byte z : byte_to_Z (Z_to_byte z) = z mod 256.
Proof.
  unfold byte_to_Z, Z_to_byte.
  assert (Hr : 0 <= z mod 256 < 256) by (apply Z.mod_pos_bound; lia).
  destruct (Byte.of_N (Z.to_N (z mod 256))) as [y|] eqn:E.
  - apply Byte.to_of_N in E. simpl. rewrite E. lia.
  - apply Byte.of_N_None_iff in E. lia.
Qed.

Lemma byte_to_Z_to_byte_small z : 0 <= z < 256 -> byte_to_Z (Z_to_byte z) = z.
Proof. intros. rewrite byte_to_Z_to_byte. apply Z.mod_small. lia. Qed.

Lemma Z_to_byte_to_Z c : Z_to_byte (byte_to_Z c) = c.
Proof.
  unfold Z_to_byte, byte_to_Z.
  pose proof (Byte.to_N_bounded c).
  rewrite Z.mod_small by lia. rewrite N2Z.id, Byte.of_to_N. reflexivity.
Qed.

Lemma byte_to_Z_inj c d : byte_to_Z c = byte_to_Z d -> c = d.
Proof. intros H. rewrite <- (Z_to_byte_to_Z c), H. apply Z_to_byte_to_Z. Qed.

Lemma testbit_high a n k : 0 <= a < 2 ^ k -> k <= n -> Z.testbit a n = false.
Proof.
  intros [H0 H1] Hk.
  destruct (Z.eq_dec a 0) as [->|Hne]; [apply Z.bits_0|].
  apply Z.bits_above_log2; [lia|].
  assert (0 <= k) by (destruct (Z.le_gt_cases 0 k); [lia|]; rewrite Z.pow_neg_r in H1; lia).
  apply Z.lt_le_trans with k; [|lia]. apply Z.log2_lt_pow2; lia.
Qed.

Lemma range_of_bits a k :
  0 <= k -> 0 <= a -> (forall n, k <= n -> Z.testbit a n = false) -> a < 2 ^ k.
Proof.
  intros Hk Ha H.
  destruct (Z.eq_dec a 0) as [->|Hne]; [apply Z.pow_pos_nonneg; lia|].
  apply Z.log2_lt_pow2; [lia|].
  destruct (Z.lt_ge_cases (Z.log2 a) k) as [|Hge]; [lia|].
  pose proof (Z.bit_log2 a ltac:(lia)) as Hb. rewrite H in Hb by lia. discriminate.
Qed.

Lemma lor_range a b k :
  0 <= k -> 0 <= a < 2 ^ k -> 0 <= b < 2 ^ k -> 0 <= Z.lor a b < 2 ^ k.
Proof.
  intros Hk Ha Hb. split; [apply Z.lor_nonneg; lia|].
  apply range_of_bits; [lia|apply Z.lor_nonneg; lia|].
  intros n Hn. rewrite Z.lor_spec, (testbit_high a n k), (testbit_high b n k); auto.
Qed.

Lemma lxor_range a b k :
  0 <= k -> 0 <= a < 2 ^ k -> 0 <= b < 2 ^ k -> 0 <= Z.lxor a b < 2 ^ k.
Proof.
  intros Hk Ha Hb. split; [apply Z.lxor_nonneg; lia|].
  apply range_of_bits; [lia|apply Z.lxor_nonneg; lia|].
  intros n Hn. rewrite Z.lxor_spec, (testbit_high a n k), (testbit_high b n k); auto.
Qed.

Lemma lor_add a b k :
  0 <= k -> a mod 2 ^ k = 0 -> 0 <= b < 2 ^ k -> Z.lor a b = a + b.
Proof.
  intros Hk Ha Hb. symmetry. apply Z.add_nocarry_lor.
  apply Z.bits_inj'. intros n Hn. rewrite Z.land_spec, Z.bits_0.
  destruct (Z.lt_ge_cases n k).
  - replace a with (a / 2 ^ k * 2 ^ k).
    + rewrite Z.mul_pow2_bits_low by lia. reflexivity.
    + pose proof (Z.div_mod a (2 ^ k) ltac:(lia)). lia.
  - rewrite (testbit_high b n k) by lia. apply andb_false_r.
Qed.

(** ** Arithmetic of the bit cursors *)

(* enumerate small ranges *)
Lemma small_cases (P : Z -> Prop) (lo : Z) (n : nat) :
  (forall k, (k < n)%nat -> P (lo + Z.of_nat k)) ->
  forall x, lo <= x < lo + Z.of_nat n -> P x.
Proof.
  intros H x Hx. replace x with (lo + Z.of_nat (Z.to_nat (x - lo))) by lia.
  apply H. lia.
Qed.

Ltac cases_nat k :=
  first [ exfalso; lia
        | destruct k as [|k]; [ simpl Z.of_nat; simpl Z.add | cases_nat k ] ].

Ltac split_range x lo n :=
  pattern x; apply (small_cases _ lo n); [|lia];
  let k := fresh "k" in let Hk := fresh "Hk" in
  intros k Hk; cases_nat k.

Section EncArith.
Variables (blt bls c cur Q N : Z).
Hypothesis Hblt : 1 <= blt <= 7.
Hypothesis Hbls : 1 <= bls <= 8.
Hypothesis Hc : 0 <= c < 256.
Hypothesis Hcur : cur mod 2 ^ blt = 0.
Hypothesis Hcur0 : 0 <= cur.
Hypothesis HQ : Q + cur / 2 ^ blt = N * 2 ^ (8 - bls) + c / 2 ^ bls.
Let b := (c mod 2 ^ bls) * 2 ^ (8 - bls).
Let hi := b / 2 ^ (8 - blt).

Lemma enc_hi_range : 0 <= hi < 2 ^ blt.
Proof.
  subst hi b. clear HQ Hcur Hcur0 cur Q N. revert Hc.
  split_range blt 1 7%nat; split_range bls 1 8%nat; simpl; Z.div_mod_to_equations; lia.
Qed.
End EncArith.

Section EncArith2.
Variables (blt bls c cur Q N : Z).
Hypothesis Hblt : 1 <= blt <= 7.
Hypothesis Hbls : 1 <= bls <= 8.
Hypothesis Hc : 0 <= c < 256.
Hypothesis Hcur : cur mod 2 ^ blt = 0.
Hypothesis Hcur0 : 0 <= cur.
Hypothesis HQ : Q + cur / 2 ^ blt = N * 2 ^ (8 - bls) + c / 2 ^ bls.
Let b := (c mod 2 ^ bls) * 2 ^ (8 - bls).
Let hi := b / 2 ^ (8 - blt).

Lemma enc_b_range : 0 <= b < 256.
Proof.
  subst hi b. clear HQ Hcur Hcur0 cur Q N Hblt. revert Hc.
  split_range bls 1 8%nat; simpl; Z.div_mod_to_equations; lia.
Qed.

Lemma enc_full_sym :
  blt <= bls ->
  Q * 2 ^ blt + (cur + hi) = N * 2 ^ (8 - (bls - blt)) + c / 2 ^ (bls - blt).
Proof.
  subst hi b. revert Hc Hcur HQ.
  split_range blt 1 7%nat; split_range bls 1 8%nat; simpl; Z.div_mod_to_equations; lia.
Qed.

Lemma enc_next_b :
  blt <= bls ->
  Z.land (Z.shiftl b blt mod 2 ^ 32) 255
  = (c mod 2 ^ (bls - blt)) * 2 ^ (8 - (bls - blt)).
Proof.
  intros Hle. change 255 with (Z.ones 8). rewrite Z.land_ones by lia.
  rewrite Z.shiftl_mul_pow2 by lia.
  subst hi b. clear HQ Hcur Hcur0 cur Q N. revert Hc Hle.
  split_range blt 1 7%nat; split_range bls 1 8%nat; simpl; Z.div_mod_to_equations; lia.
Qed.

Lemma enc_part_sym :
  bls < blt ->
  Q * 2 ^ bls + (cur + hi) / 2 ^ (blt - bls) = N * 256 + c
  /\ (cur + hi) mod 2 ^ (blt - bls) = 0.
Proof.
  subst hi b. revert Hc Hcur HQ.
  split_range blt 1 7%nat; split_range bls 1 8%nat; simpl; Z.div_mod_to_equations; lia.
Qed.
End EncArith2.

Section DecArith.
Variables (bitPos bpc v cur D M : Z).
Hypothesis Hbit : 0 <= bitPos <= 7.
Hypothesis Hbpc : 1 <= bpc <= 7.
Hypothesis Hv : 0 <= v < 2 ^ bpc.
Hypothesis Hcur : 0 <= cur < 256.
Hypothesis Hmod : cur mod 2 ^ (8 - bitPos) = 0.
Hypothesis HM : D * 2 ^ bitPos + cur / 2 ^ (8 - bitPos) = M.

Lemma dec_same_byte :
  bitPos + bpc <= 8 ->
  let x := (v * 2 ^ (8 - (bitPos + bpc))) mod 2 ^ 32 in
  0 <= x < 2 ^ (8 - bitPos) /\ 0 <= cur + x < 256 /\
  (bitPos + bpc < 8 ->
     D * 2 ^ (bitPos + bpc) + (cur + x) / 2 ^ (8 - (bitPos + bpc))
     = M * 2 ^ bpc + v /\
     (cur + x) mod 2 ^ (8 - (bitPos + bpc)) = 0) /\
  (bitPos + bpc = 8 -> D * 256 + (cur + x) = M * 2 ^ bpc + v).
Proof.
  revert Hv Hcur Hmod HM.
  split_range bitPos 0 8%nat; split_range bpc 1 7%nat; simpl;
    intros; Z.div_mod_to_equations; lia.
Qed.

Lemma dec_next_byte :
  8 < bitPos + bpc ->
  let hi := v / 2 ^ (bitPos + bpc - 8) in
  let lo := ((v * 2 ^ (16 - (bitPos + bpc))) mod 2 ^ 32) mod 256 in
  0 <= hi < 2 ^ (8 - bitPos) /\ 0 <= cur + hi < 256 /\
  (D * 256 + (cur + hi)) * 2 ^ (bitPos + bpc - 8)
    + lo / 2 ^ (8 - (bitPos + bpc - 8)) = M * 2 ^ bpc + v /\
  lo mod 2 ^ (8 - (bitPos + bpc - 8)) = 0.
Proof.
  revert Hv Hcur Hmod HM.
  split_range bitPos 0 8%nat; split_range bpc 1 7%nat; simpl;
    intros; Z.div_mod_to_equations; lia.
Qed.
End DecArith.

(** ** The encoder: a block of symbols under construction *)

Section EncoderInvariant.
Import BaseN_Encoder.

Definition val (w : Z) (l : list Z) : Z :=
  foldl (fun acc x => acc * 2 ^ w + x) 0 l.

Lemma val_snoc w l x : val w (l ++ [x]) = val w l * 2 ^ w + x.
Proof. unfold val. rewrite foldl_app. reflexivity. Qed.

Definition sym (bpc x : Z) : Prop := 0 <= x < 2 ^ bpc.
Definition syms (buf : list byte) : list Z := byte_to_Z <$> buf.

Record cursor_ok (bpc : Z) (Bn : nat) (e : t) (p : nat) (done : list Z)
    (cur : Z) : Prop := {
  co_bpc : m_bitsPerChar e = bpc;
  co_B : m_outputBlockSize e = Z.of_nat Bn;
  co_pos : m_bytePos e = Z.of_nat p;
  co_le : (p <= Bn)%nat;
  co_bit : 0 <= m_bitPos e < bpc;
  co_buf : syms (m_outBuf e) ++ [0] = done ++ cur :: replicate (Bn - p) 0;
  co_len : length done = p;
  co_done : Forall (sym bpc) done;
  co_cur : 0 <= cur < 2 ^ bpc;
  co_mod : cur mod 2 ^ (bpc - m_bitPos e) = 0 }.

Lemma cursor_buf_length bpc Bn e p done cur :
  cursor_ok bpc Bn e p done cur -> length (m_outBuf e) = Bn.
Proof.
  intros H. pose proof (f_equal length (co_buf _ _ _ _ _ _ H)) as E.
  unfold syms in E. rewrite !length_app, length_fmap in E. simpl in E.
  rewrite length_replicate, (co_len _ _ _ _ _ _ H) in E.
  pose proof (co_le _ _ _ _ _ _ H). lia.
Qed.

Lemma cursor_rd bpc Bn e p done cur :
  cursor_ok bpc Bn e p done cur -> (p < Bn)%nat ->
  exists old, rd (m_outBuf e) (m_bytePos e) = Ok old /\ byte_to_Z old = cur.
Proof.
  intros H Hp. pose proof (cursor_buf_length _ _ _ _ _ _ H) as Hl.
  pose proof (f_equal (fun l => l !! p) (co_buf _ _ _ _ _ _ H)) as E. simpl in E.
  rewrite lookup_app_l in E by (unfold syms; rewrite length_fmap; lia).
  rewrite lookup_app_r in E by (rewrite (co_len _ _ _ _ _ _ H); lia).
  rewrite (co_len _ _ _ _ _ _ H), Nat.sub_diag in E. simpl in E.
  unfold syms in E. rewrite list_lookup_fmap in E.
  destruct (m_outBuf e !! p) as [old|] eqn:Eo; [|discriminate].
  exists old. split; [|simpl in E; congruence].
  unfold rd. rewrite (co_pos _ _ _ _ _ _ H).
  destruct (Z.ltb_spec (Z.of_nat p) 0); [lia|]. rewrite Nat2Z.id, Eo. reflexivity.
Qed.

Lemma cursor_wr bpc Bn e p done cur x :
  cursor_ok bpc Bn e p done cur -> (p < Bn)%nat -> 0 <= x < 256 ->
  exists buf, wr (m_outBuf e) (m_bytePos e) (Z_to_byte x) = Ok buf /\
    syms buf ++ [0] = done ++ x :: replicate (Bn - p) 0.
Proof.
  intros H Hp Hx. pose proof (cursor_buf_length _ _ _ _ _ _ H) as Hl.
  unfold wr. rewrite (co_pos _ _ _ _ _ _ H), Hl.
  destruct (Z.leb_spec 0 (Z.of_nat p)); [|lia].
  destruct (Z.ltb_spec (Z.of_nat p) (Z.of_nat Bn)); [|lia]. simpl.
  eexists; split; [reflexivity|]. rewrite Nat2Z.id.
  unfold syms. rewrite list_fmap_insert, byte_to_Z_to_byte_small by lia.
  rewrite <- insert_app_l by (rewrite length_fmap; lia).
  fold (syms (m_outBuf e)). rewrite (co_buf _ _ _ _ _ _ H).
  rewrite insert_app_r_alt by (rewrite (co_len _ _ _ _ _ _ H); lia).
  rewrite (co_len _ _ _ _ _ _ H), Nat.sub_diag. reflexivity.
Qed.

Lemma bind_Ok {A B} (a : A) (f : A -> result B) : (Ok a ≫= f) = f a.
Proof. reflexivity. Qed.

Lemma assert_true (c : bool) : c = true -> assert c = Ok tt.
Proof. intros ->. reflexivity. Qed.

Lemma shr32_ok x n : 0 <= n < 32 -> shr32 x n = Ok (Z.shiftr x n).
Proof.
  intros. unfold shr32.
  destruct (Z.leb_spec 0 n); [|lia]. destruct (Z.ltb_spec n 32); [|lia]. reflexivity.
Qed.

Lemma shl32_ok x n : 0 <= n < 32 -> shl32 x n = Ok (Z.shiftl x n mod 2 ^ 32).
Proof.
  intros. unfold shl32.
  destruct (Z.leb_spec 0 n); [|lia]. destruct (Z.ltb_spec n 32); [|lia]. reflexivity.
Qed.

Lemma to_unsigned_small x : 0 <= x < 2 ^ 32 -> to_unsigned x = x.
Proof. intros. unfold to_unsigned. apply Z.mod_small. lia. Qed.

Lemma pow2_le_128 bpc : 1 <= bpc <= 7 -> 2 <= 2 ^ bpc <= 128.
Proof. intros H. split_range bpc 1 7%nat; simpl; lia. Qed.

Lemma put_bits_ok bpc Bn K :
  1 <= bpc <= 7 -> Z.of_nat Bn * bpc = 8 * K ->
  forall fuel e b bls p done cur c N n,
    cursor_ok bpc Bn e p done cur ->
    1 <= bls <= 8 -> (Z.to_nat bls < fuel)%nat ->
    0 <= c < 256 -> b = (c mod 2 ^ bls) * 2 ^ (8 - bls) ->
    Z.of_nat p * bpc + m_bitPos e = 8 * n + 8 - bls -> 0 <= n < K ->
    val bpc done * 2 ^ m_bitPos e + cur / 2 ^ (bpc - m_bitPos e)
      = N * 2 ^ (8 - bls) + c / 2 ^ bls ->
    exists e' p' done' cur',
      put_bits fuel e b bls = Ok e' /\ cursor_ok bpc Bn e' p' done' cur' /\
      Z.of_nat p' * bpc + m_bitPos e' = 8 * (n + 1) /\
      val bpc done' * 2 ^ m_bitPos e' + cur' / 2 ^ (bpc - m_bitPos e')
        = N * 256 + c /\
      m_alphabet e' = m_alphabet e /\ m_padding e' = m_padding e.
Proof.
  intros Hbpc HBK. induction fuel as [|fuel IH];
    intros e b bls p done cur c N n Hco Hbls Hfuel Hc Hb Hpos Hn Hval; [lia|].
  pose proof (co_bit _ _ _ _ _ _ Hco) as Hbit.
  pose proof (co_cur _ _ _ _ _ _ Hco) as Hcur.
  pose proof (co_mod _ _ _ _ _ _ Hco) as Hmod.
  pose proof (pow2_le_128 bpc Hbpc) as Hp2.
  set (blt := bpc - m_bitPos e) in *.
  assert (Hblt : 1 <= blt <= 7) by (subst blt; lia).
  assert (Hp : (p < Bn)%nat).
  { apply Nat2Z.inj_lt. apply Z.mul_lt_mono_pos_r with bpc; lia. }
  simpl. rewrite (co_bpc _ _ _ _ _ _ Hco).
  rewrite assert_true by (apply Z.ltb_lt; lia). simpl.
  fold blt. rewrite (to_unsigned_small blt) by lia.
  destruct (cursor_rd _ _ _ _ _ _ Hco Hp) as (old & -> & Hold). simpl.
  rewrite to_unsigned_small by lia. rewrite shr32_ok by lia. simpl.
  rewrite Hold. rewrite Z.shiftr_div_pow2 by lia.
  pose proof (enc_hi_range blt bls c Hblt Hbls Hc) as Hhi. simpl in Hhi.
  pose proof (enc_b_range bls c Hbls Hc) as Hbr. simpl in Hbr.
  rewrite <- Hb in Hhi, Hbr.
  set (hi := b / 2 ^ (8 - blt)) in *.
  rewrite (lor_add cur hi blt) by (auto; lia).
  assert (Hx : 0 <= cur + hi < 2 ^ bpc).
  { rewrite <- (lor_add cur hi blt) by (auto; lia).
    apply lor_range; [lia|lia|].
    split; [lia|]. apply Z.lt_le_trans with (2 ^ blt); [lia|].
    apply Z.pow_le_mono_r; subst blt; lia. }
  destruct (cursor_wr _ _ _ _ _ _ (cur + hi) Hco Hp ltac:(lia)) as (buf & -> & Hbuf).
  simpl.
  assert (Hpow : 2 ^ bpc = 2 ^ m_bitPos e * 2 ^ blt).
  { rewrite <- Z.pow_add_r by lia. f_equal. subst blt. lia. }
  destruct (Z.leb_spec blt bls) as [Hle|Hlt].
  - (* the symbol is complete *)
    assert (Hco' : cursor_ok bpc Bn (set_cursor e (m_bytePos e + 1) 0 buf)
                     (S p) (done ++ [cur + hi]) 0).
    { constructor; simpl; try apply Hco; try lia.
      - rewrite (co_pos _ _ _ _ _ _ Hco). lia.
      - rewrite Hbuf, <- app_assoc. simpl. do 2 f_equal.
        replace (Bn - p)%nat with (S (Bn - S p)) by lia. reflexivity.
      - rewrite length_app, (co_len _ _ _ _ _ _ Hco). simpl. lia.
      - apply Forall_app. split; [apply Hco|]. constructor; [exact Hx|constructor].
      - apply Z.mod_0_l. apply Z.pow_nonzero; lia. }
    pose proof (enc_full_sym blt bls c cur (val bpc done * 2 ^ m_bitPos e) N
                  Hblt Hbls Hc Hmod Hval Hle) as Hfull.
    simpl in Hfull. rewrite <- Hb in Hfull. fold hi in Hfull.
    assert (Hval' : val bpc (done ++ [cur + hi]) * 2 ^ 0 + 0 / 2 ^ (bpc - 0)
                    = N * 2 ^ (8 - (bls - blt)) + c / 2 ^ (bls - blt)).
    { rewrite val_snoc, Z.pow_0_r, Z.div_0_l by (apply Z.pow_nonzero; lia).
      rewrite Hpow. lia. }
    destruct (Z.eqb_spec (bls - blt) 0) as [E0|Hne].
    + exists (set_cursor e (m_bytePos e + 1) 0 buf), (S p), (done ++ [cur + hi]), 0.
      split; [reflexivity|]. split; [exact Hco'|]. simpl.
      rewrite E0 in Hval'. split_and!; try lia; try reflexivity.
      rewrite Hval'. change (2 ^ (8 - 0)) with 256.
      rewrite Z.pow_0_r, Z.div_1_r. reflexivity.
    + rewrite shl32_ok by lia. simpl.
      pose proof (enc_next_b blt bls c Hblt Hbls Hc Hle) as Hnb. simpl in Hnb.
      rewrite <- Hb in Hnb.
      assert (Hpos' : Z.of_nat (S p) * bpc
                      + m_bitPos (set_cursor e (m_bytePos e + 1) 0 buf)
                      = 8 * n + 8 - (bls - blt)) by (simpl m_bitPos; lia).
      destruct (IH (set_cursor e (m_bytePos e + 1) 0 buf)
                  (Z.land (Z.shiftl b blt mod 2 ^ 32) 255) (bls - blt)
                  (S p) (done ++ [cur + hi]) 0 c N n Hco'
                  ltac:(lia) ltac:(lia) Hc Hnb Hpos' Hn Hval')
        as (e' & p' & done' & cur' & He' & Hco'' & Hpos'' & Hv' & Ha & Hpad).
      exists e', p', done', cur'. split_and!; auto; simpl in *; congruence.
  - (* the input byte is used up *)
    destruct (enc_part_sym blt bls c cur (val bpc done * 2 ^ m_bitPos e) N
                Hblt Hbls Hc Hmod Hval Hlt) as [Hpart Hpm].
    simpl in Hpart, Hpm. rewrite <- Hb in Hpart, Hpm. fold hi in Hpart, Hpm.
    exists (set_cursor e (m_bytePos e) (m_bitPos e + bls) buf), p, done, (cur + hi).
    split; [reflexivity|]. simpl.
    replace (bpc - (m_bitPos e + bls)) with (blt - bls) by (subst blt; lia).
    split; [|split_and!; try lia; try reflexivity].
    + constructor; simpl; try apply Hco; try lia; [exact Hbuf|].
      replace (bpc - (m_bitPos e + bls)) with (blt - bls) by (subst blt; lia).
      exact Hpm.
    + rewrite Z.pow_add_r by lia. lia.
Qed.


Definition alph (alphabet : list byte) (v : Z) : byte :=
  alphabet !!! Z.to_nat v.

Lemma rd_lookup {A} (l : list A) (i : nat) (x : A) :
  l !! i = Some x -> rd l (Z.of_nat i) = Ok x.
Proof.
  intros H. unfold rd. destruct (Z.ltb_spec (Z.of_nat i) 0); [lia|].
  rewrite Nat2Z.id, H. reflexivity.
Qed.

Lemma wr_insert {A} (l : list A) (i : nat) (x : A) :
  (i < length l)%nat -> wr l (Z.of_nat i) x = Ok (<[i := x]> l).
Proof.
  intros H. unfold wr.
  destruct (Z.leb_spec 0 (Z.of_nat i)); [|lia].
  destruct (Z.ltb_spec (Z.of_nat i) (Z.of_nat (length l))); [|lia].
  simpl. rewrite Nat2Z.id. reflexivity.
Qed.

Lemma rd_alph alphabet v :
  0 <= v < Z.of_nat (length alphabet) -> rd alphabet v = Ok (alph alphabet v).
Proof.
  intros H. replace v with (Z.of_nat (Z.to_nat v)) at 1 by lia.
  apply rd_lookup. unfold alph. apply list_lookup_lookup_total_lt. lia.
Qed.

Lemma translate_ok checked alphabet bpc :
  1 <= bpc <= 7 -> 2 ^ bpc <= Z.of_nat (length alphabet) ->
  forall n i buf,
    (i + n <= length buf)%nat ->
    Forall (sym bpc) (syms (take n (drop i buf))) ->
    translate checked alphabet bpc n (Z.of_nat i) buf
    = Ok (take i buf ++ (alph alphabet <$> syms (take n (drop i buf)))
          ++ drop (i + n) buf).
Proof.
  intros Hbpc Hal. induction n as [|n IH]; intros i buf Hlen Hsym.
  - simpl. rewrite Nat.add_0_r, take_drop. reflexivity.
  - destruct (lookup_lt_is_Some_2 buf i ltac:(lia)) as [v Hv].
    rewrite (drop_S _ _ _ Hv) in Hsym |- *. simpl in Hsym |- *.
    apply Forall_cons_1 in Hsym as [Hv0 Hsym].
    rewrite (rd_lookup _ _ _ Hv). simpl.
    assert (Hone : (if checked
                    then one ← shl32 1 bpc; assert (byte_to_Z v <? one)
                    else Ok tt) = Ok tt).
    { destruct checked; [|reflexivity]. rewrite shl32_ok by lia. simpl.
      rewrite Z.shiftl_mul_pow2, Z.mul_1_l by lia.
      rewrite Z.mod_small by (pose proof (pow2_le_128 bpc Hbpc); lia).
      apply assert_true, Z.ltb_lt. apply Hv0. }
    rewrite Hone. simpl.
    rewrite rd_alph by (unfold sym in Hv0; lia). simpl.
    rewrite wr_insert by lia. simpl.
    replace (Z.of_nat i + 1) with (Z.of_nat (S i)) by lia.
    rewrite IH.
    + rewrite !drop_insert_lt by lia.
      rewrite (take_S_r _ _ _ (list_lookup_insert_eq buf i _ ltac:(lia))).
      rewrite take_insert_ge by lia.
      rewrite <- app_assoc. simpl. repeat f_equal. lia.
    + rewrite length_insert. lia.
    + rewrite drop_insert_lt by lia. exact Hsym.
Qed.

Record enc_inv (bpc : Z) (Bn : nat) (K : Z) (e : t) (s : list byte) : Prop := {
  ei_len : Z.of_nat (length s) < K;
  ei_bpc : m_bitsPerChar e = bpc;
  ei_B : m_outputBlockSize e = Z.of_nat Bn;
  ei_buflen : length (m_outBuf e) = Bn;
  ei_alph : 2 ^ bpc <= Z.of_nat (length (m_alphabet e));
  ei_pos : m_bytePos e * bpc + m_bitPos e = 8 * Z.of_nat (length s);
  ei_bit : 0 <= m_bitPos e < bpc;
  ei_byte : 0 <= m_bytePos e;
  ei_buf : s = [] \/
           exists p done cur, cursor_ok bpc Bn e p done cur /\
             val bpc done * 2 ^ m_bitPos e + cur / 2 ^ (bpc - m_bitPos e)
             = val 8 (syms s) }.

Lemma memset_all buf v :
  memset buf 0 v (Z.of_nat (length buf)) = Ok (replicate (length buf) v).
Proof.
  unfold memset. rewrite Z.add_0_l.
  destruct (Z.leb_spec 0 (Z.of_nat (length buf))); [|lia].
  destruct (Z.leb_spec (Z.of_nat (length buf)) (Z.of_nat (length buf))); [|lia].
  simpl. rewrite Nat2Z.id, drop_all, app_nil_r. reflexivity.
Qed.

Lemma prefix_of_ok buf n :
  (n <= length buf)%nat -> prefix_of buf (Z.of_nat n) = Ok (take n buf).
Proof.
  intros H. unfold prefix_of.
  destruct (Z.leb_spec 0 (Z.of_nat n)); [|lia].
  destruct (Z.leb_spec (Z.of_nat n) (Z.of_nat (length buf))); [|lia].
  simpl. rewrite Nat2Z.id. reflexivity.
Qed.

Lemma set_cursor_id e :
  set_cursor e (m_bytePos e) (m_bitPos e) (m_outBuf e) = e.
Proof. destruct e. reflexivity. Qed.

Lemma syms_zero n : syms (replicate n x00) ++ [0] = 0 :: replicate n 0.
Proof.
  unfold syms. rewrite fmap_replicate. change (byte_to_Z x00) with 0.
  induction n as [|n IH]; simpl; [reflexivity|]. rewrite IH. reflexivity.
Qed.

Lemma val_nil w : val w [] = 0.
Proof. reflexivity. Qed.

Lemma syms_snoc s c : syms (s ++ [c]) = syms s ++ [byte_to_Z c].
Proof. unfold syms. rewrite fmap_app. reflexivity. Qed.

(** The cursor before the bits of the next input byte are moved. *)
Lemma put_byte_start bpc Bn K e s :
  1 <= bpc <= 7 -> Z.of_nat Bn * bpc = 8 * K ->
  enc_inv bpc Bn K e s ->
  exists buf0 p done cur,
    (if m_bytePos e =? 0
     then memset (m_outBuf e) 0 x00 (m_outputBlockSize e)
     else Ok (m_outBuf e)) = Ok buf0 /\
    cursor_ok bpc Bn (set_cursor e (m_bytePos e) (m_bitPos e) buf0) p done cur /\
    val bpc done * 2 ^ m_bitPos e + cur / 2 ^ (bpc - m_bitPos e)
    = val 8 (syms s).
Proof.
  intros Hbpc HBK He.
  pose proof (ei_pos _ _ _ _ _ He) as Hpos.
  pose proof (ei_bit _ _ _ _ _ He) as Hbit.
  pose proof (ei_byte _ _ _ _ _ He) as Hbyte.
  pose proof (pow2_le_128 bpc Hbpc) as Hp2.
  destruct (Z.eqb_spec (m_bytePos e) 0) as [E0|Hne].
  - rewrite E0 in Hpos. assert (Hs : s = []) by (destruct s; [reflexivity|simpl in Hpos; lia]).
    subst s. simpl in Hpos.
    rewrite (ei_B _ _ _ _ _ He), <- (ei_buflen _ _ _ _ _ He), memset_all.
    rewrite (ei_buflen _ _ _ _ _ He).
    exists (replicate Bn x00), 0%nat, [], 0. split; [reflexivity|]. split.
    + constructor; simpl; try apply He; try lia.
      * rewrite Nat.sub_0_r. apply syms_zero.
      * constructor.
      * apply Z.mod_0_l, Z.pow_nonzero; lia.
    + rewrite val_nil, Z.div_0_l by (apply Z.pow_nonzero; lia). reflexivity.
  - destruct (ei_buf _ _ _ _ _ He) as [->|(p & done & cur & Hco & Hv)].
    + simpl in Hpos. assert (m_bytePos e * bpc = 0) by lia.
      apply Z.mul_eq_0 in H. lia.
    + exists (m_outBuf e), p, done, cur. rewrite set_cursor_id. auto.
Qed.

Lemma cursor_full bpc Bn e done cur :
  cursor_ok bpc Bn e Bn done cur -> cur = 0 /\ syms (m_outBuf e) = done.
Proof.
  intros H. pose proof (co_buf _ _ _ _ _ _ H) as E.
  rewrite Nat.sub_diag in E. simpl in E.
  apply app_inj_tail in E. destruct E; auto.
Qed.

Lemma take_syms n buf : take n (syms buf) = syms (take n buf).
Proof. unfold syms. rewrite fmap_take. reflexivity. Qed.

Lemma put_byte_ok bpc Bn K e s c :
  1 <= bpc <= 7 -> Z.of_nat Bn * bpc = 8 * K ->
  enc_inv bpc Bn K e s ->
  exists e' out, put_byte e c = Ok (e', out) /\
    m_alphabet e' = m_alphabet e /\ m_padding e' = m_padding e /\
    ((Z.of_nat (length s) + 1 < K /\ out = [] /\
      enc_inv bpc Bn K e' (s ++ [c])) \/
     (Z.of_nat (length s) + 1 = K /\ enc_inv bpc Bn K e' [] /\
      exists sy, out = [mkOutput 1 (alph (m_alphabet e) <$> sy) 0] /\
        length sy = Bn /\ Forall (sym bpc) sy /\
        val bpc sy = val 8 (syms (s ++ [c])))).
Proof.
  intros Hbpc HBK He.
  pose proof (pow2_le_128 bpc Hbpc) as Hp2.
  destruct (put_byte_start _ _ _ _ _ Hbpc HBK He)
    as (buf0 & p & done & cur & Hb0 & Hco & Hv).
  unfold put_byte. rewrite Hb0, bind_Ok.
  pose proof (byte_to_Z_range c) as Hc.
  set (e0 := set_cursor e (m_bytePos e) (m_bitPos e) buf0) in *.
  assert (Hpos0 : Z.of_nat p * bpc + m_bitPos e0
                  = 8 * Z.of_nat (length s) + 8 - 8).
  { rewrite <- (co_pos _ _ _ _ _ _ Hco). simpl.
    pose proof (ei_pos _ _ _ _ _ He). lia. }
  destruct (put_bits_ok bpc Bn K Hbpc HBK 9 e0 (byte_to_Z c) 8 p done cur
              (byte_to_Z c) (val 8 (syms s)) (Z.of_nat (length s)) Hco
              ltac:(lia) ltac:(simpl; lia) Hc
              ltac:(change (2 ^ (8 - 8)) with 1; rewrite Z.mod_small; simpl; lia)
              Hpos0 ltac:(pose proof (ei_len _ _ _ _ _ He); lia))
    as (e1 & p1 & done1 & cur1 & -> & Hco1 & Hpos1 & Hv1 & Ha1 & Hpad1).
  { simpl m_bitPos. rewrite Hv. change (2 ^ (8 - 8)) with 1.
    rewrite Z.div_small by (simpl; lia). lia. }
  simpl in Ha1, Hpad1. rewrite bind_Ok.
  pose proof (co_le _ _ _ _ _ _ Hco1) as Hle1.
  pose proof (co_bit _ _ _ _ _ _ Hco1) as Hbit1.
  pose proof (cursor_buf_length _ _ _ _ _ _ Hco1) as Hlen1.
  rewrite (co_pos _ _ _ _ _ _ Hco1), (co_B _ _ _ _ _ _ Hco1).
  rewrite assert_true by (apply Z.leb_le; lia). simpl.
  assert (Hv1' : val bpc done1 * 2 ^ m_bitPos e1
                 + cur1 / 2 ^ (bpc - m_bitPos e1) = val 8 (syms (s ++ [c]))).
  { rewrite Hv1, syms_snoc, val_snoc. reflexivity. }
  destruct (Z.eqb_spec (Z.of_nat p1) (Z.of_nat Bn)) as [Efull|Hnf].
  - (* a full block *)
    apply Nat2Z.inj in Efull. subst p1.
    assert (Hb1 : m_bitPos e1 = 0) by lia.
    assert (HK : Z.of_nat (length s) + 1 = K) by lia.
    destruct (cursor_full _ _ _ _ _ Hco1) as [-> Hsy].
    rewrite (co_bpc _ _ _ _ _ _ Hco1), Nat2Z.id.
    assert (Hall : take Bn (drop 0 (m_outBuf e1)) = m_outBuf e1)
      by (rewrite drop_0, <- Hlen1; apply firstn_all).
    pose proof (translate_ok true (m_alphabet e1) bpc Hbpc
                  ltac:(rewrite Ha1; apply He) Bn 0%nat (m_outBuf e1)
                  ltac:(lia)
                  ltac:(rewrite Hall, Hsy; apply Hco1)) as Ht.
    change (Z.of_nat 0) with 0 in Ht.
    rewrite Hall, Hsy in Ht. simpl in Ht.
    rewrite <- Hlen1 in Ht at 2. rewrite drop_all, app_nil_r in Ht.
    rewrite Ht, bind_Ok.
    assert (Hl : length (alph (m_alphabet e1) <$> done1) = Bn).
    { rewrite length_fmap, <- Hsy. unfold syms. rewrite length_fmap. exact Hlen1. }
    rewrite prefix_of_ok by lia. rewrite take_ge by lia. rewrite bind_Ok.
    eexists _, _. split; [reflexivity|]. simpl. split_and!; auto.
    right. split; [exact HK|]. split.
    + constructor; simpl; try apply Hco1; try lia.
      * rewrite Ha1. apply He.
      * left. reflexivity.
    + exists done1. rewrite Ha1. split_and!; auto.
      * rewrite <- Hsy. unfold syms. rewrite length_fmap. exact Hlen1.
      * apply Hco1.
      * rewrite <- Hv1'. rewrite Hb1, Z.pow_0_r, Z.div_0_l by (apply Z.pow_nonzero; lia). lia.
  - eexists _, _. split; [reflexivity|]. split_and!; auto.
    left.
    assert (Hlt : Z.of_nat (length s) + 1 < K).
    { assert (Z.of_nat p1 + 1 <= Z.of_nat Bn) by lia.
      assert ((Z.of_nat p1 + 1) * bpc <= Z.of_nat Bn * bpc)
        by (apply Z.mul_le_mono_nonneg_r; lia). lia. }
    split_and!; auto.
    constructor; try apply Hco1; try lia.
    + rewrite length_app. simpl. lia.
    + rewrite Ha1. apply He.
    + rewrite (co_pos _ _ _ _ _ _ Hco1), length_app. simpl. lia.
    + rewrite (co_pos _ _ _ _ _ _ Hco1). lia.
    + right. exists p1, done1, cur1. auto.
Qed.

Lemma cursor_take_done bpc Bn e p done cur :
  cursor_ok bpc Bn e p done cur -> take p (syms (m_outBuf e)) = done.
Proof.
  intros H. pose proof (cursor_buf_length _ _ _ _ _ _ H) as Hl.
  pose proof (co_le _ _ _ _ _ _ H) as Hle.
  pose proof (f_equal (take p) (co_buf _ _ _ _ _ _ H)) as E.
  rewrite take_app_le in E by (unfold syms; rewrite length_fmap; lia).
  rewrite take_app_le in E by (rewrite (co_len _ _ _ _ _ _ H); lia).
  rewrite E. apply take_ge. rewrite (co_len _ _ _ _ _ _ H). lia.
Qed.

Lemma cursor_take_cur bpc Bn e p done cur :
  cursor_ok bpc Bn e p done cur -> (p < Bn)%nat ->
  take (S p) (syms (m_outBuf e)) = done ++ [cur].
Proof.
  intros H Hp. pose proof (cursor_buf_length _ _ _ _ _ _ H) as Hl.
  pose proof (f_equal (take (S p)) (co_buf _ _ _ _ _ _ H)) as E.
  rewrite take_app_le in E by (unfold syms; rewrite length_fmap; lia).
  rewrite E. rewrite take_app_ge by (rewrite (co_len _ _ _ _ _ _ H); lia).
  rewrite (co_len _ _ _ _ _ _ H).
  replace (S p - p)%nat with 1%nat by lia. reflexivity.
Qed.

Lemma pow2_pos k : 0 < 2 ^ k \/ k < 0.
Proof. destruct (Z.le_gt_cases 0 k); [left; apply Z.pow_pos_nonneg; lia|right; lia]. Qed.

(** The symbols that are flushed at the end of a message. *)
Lemma end_symbols bpc Bn K e s :
  1 <= bpc <= 7 -> Z.of_nat Bn * bpc = 8 * K ->
  enc_inv bpc Bn K e s ->
  exists (m : nat) sy k,
    Z.of_nat m = (if 0 <? m_bitPos e then m_bytePos e + 1 else m_bytePos e) /\
    (m <= Bn)%nat /\
    sy = take m (syms (m_outBuf e)) /\ length sy = m /\
    Forall (sym bpc) sy /\
    0 <= k < bpc /\ Z.of_nat m * bpc = 8 * Z.of_nat (length s) + k /\
    val bpc sy = val 8 (syms s) * 2 ^ k.
Proof.
  intros Hbpc HBK He.
  pose proof (ei_pos _ _ _ _ _ He) as Hpos.
  pose proof (ei_bit _ _ _ _ _ He) as Hbit.
  pose proof (ei_byte _ _ _ _ _ He) as Hbyte.
  pose proof (ei_len _ _ _ _ _ He) as Hlen.
  pose proof (pow2_le_128 bpc Hbpc) as Hp2.
  destruct (ei_buf _ _ _ _ _ He) as [->|(p & done & cur & Hco & Hv)].
  - simpl in Hpos. assert (m_bytePos e * bpc = 0 /\ m_bitPos e = 0) as [Hm Hb].
    { assert (0 <= m_bytePos e * bpc) by (apply Z.mul_nonneg_nonneg; lia). lia. }
    apply Z.mul_eq_0 in Hm. destruct Hm as [Hm|]; [|lia].
    exists 0%nat, [], 0. rewrite Hb, Hm. simpl.
    split_and!; auto; try lia.
  - pose proof (co_pos _ _ _ _ _ _ Hco) as Hp.
    pose proof (co_cur _ _ _ _ _ _ Hco) as Hcur.
    pose proof (co_mod _ _ _ _ _ _ Hco) as Hmod.
    pose proof (cursor_buf_length _ _ _ _ _ _ Hco) as Hl.
    assert (HpB : (p < Bn)%nat).
    { apply Nat2Z.inj_lt. apply Z.mul_lt_mono_pos_r with bpc; lia. }
    destruct (Z.ltb_spec 0 (m_bitPos e)) as [Hpos1|Hz].
    + exists (S p), (done ++ [cur]), (bpc - m_bitPos e).
      rewrite (cursor_take_cur _ _ _ _ _ _ Hco HpB).
      split_and!; auto; try lia.
      * rewrite length_app, (co_len _ _ _ _ _ _ Hco). simpl. lia.
      * apply Forall_app. split; [apply Hco|]. constructor; [exact Hcur|constructor].
      * rewrite val_snoc, <- Hv.
        assert (Hpow : 2 ^ bpc = 2 ^ m_bitPos e * 2 ^ (bpc - m_bitPos e)).
        { rewrite <- Z.pow_add_r by lia. f_equal. lia. }
        rewrite Hpow.
        assert (0 < 2 ^ (bpc - m_bitPos e)) by (apply Z.pow_pos_nonneg; lia).
        pose proof (Z.div_mod cur (2 ^ (bpc - m_bitPos e)) ltac:(lia)) as Hd.
        rewrite Hmod in Hd. lia.
    + assert (Hb0 : m_bitPos e = 0) by lia.
      exists p, done, 0.
      rewrite (cursor_take_done _ _ _ _ _ _ Hco).
      split_and!; auto; try lia.
      * apply Hco.
      * apply Hco.
      * rewrite <- Hv, Hb0, Z.sub_0_r, Z.pow_0_r, Z.div_small by lia. lia.
Qed.

Lemma put_end_ok bpc Bn K e s me :
  1 <= bpc <= 7 -> Z.of_nat Bn * bpc = 8 * K ->
  enc_inv bpc Bn K e s ->
  exists e' (m : nat) sy k,
    put_end e me
    = Ok (e', [mkOutput 2
                 ((alph (m_alphabet e) <$> sy)
                  ++ (if negb (m_padding e =? -1) && (0 <? Z.of_nat m)
                      then replicate (Bn - m) (Z_to_byte (m_padding e))
                      else [])) me]) /\
    enc_inv bpc Bn K e' [] /\
    m_alphabet e' = m_alphabet e /\ m_padding e' = m_padding e /\
    Z.of_nat m = (if 0 <? m_bitPos e then m_bytePos e + 1 else m_bytePos e) /\
    (m <= Bn)%nat /\
    sy = take m (syms (m_outBuf e)) /\ length sy = m /\
    Forall (sym bpc) sy /\
    0 <= k < bpc /\ Z.of_nat m * bpc = 8 * Z.of_nat (length s) + k /\
    val bpc sy = val 8 (syms s) * 2 ^ k.
Proof.
  intros Hbpc HBK He.
  destruct (end_symbols _ _ _ _ _ Hbpc HBK He)
    as (m & sy & k & Hm & HmB & Hsy & Hl & Hsym & Hk & Hmk & Hval).
  pose proof (ei_buflen _ _ _ _ _ He) as Hlen.
  unfold put_end. rewrite <- Hm, Nat2Z.id.
  pose proof (translate_ok false (m_alphabet e) (m_bitsPerChar e)
                ltac:(rewrite (ei_bpc _ _ _ _ _ He); exact Hbpc)
                ltac:(rewrite (ei_bpc _ _ _ _ _ He); apply He)
                m 0%nat (m_outBuf e) ltac:(lia)) as Ht.
  rewrite drop_0, <- take_syms, <- Hsy in Ht.
  rewrite (ei_bpc _ _ _ _ _ He) in Ht. specialize (Ht Hsym).
  change (Z.of_nat 0) with 0 in Ht. simpl in Ht.
  rewrite (ei_bpc _ _ _ _ _ He), Ht, bind_Ok.
  set (tr := alph (m_alphabet e) <$> sy) in *.
  assert (Htr : length tr = m) by (subst tr; rewrite length_fmap; exact Hl).
  assert (Hinv : forall buf, length buf = Bn ->
                   enc_inv bpc Bn K (set_cursor e 0 0 buf) []).
  { intros buf Hb. constructor; simpl; try apply He; try lia.
    - pose proof (ei_len _ _ _ _ _ He). lia.
    - left. reflexivity. }
  destruct (negb (m_padding e =? -1) && (0 <? Z.of_nat m)) eqn:Epad.
  - unfold memset.
    rewrite (ei_B _ _ _ _ _ He).
    destruct (Z.leb_spec 0 (Z.of_nat m)); [|lia].
    destruct (Z.leb_spec 0 (Z.of_nat Bn - Z.of_nat m)); [|lia].
    rewrite length_app, Htr, length_drop, Hlen.
    destruct (Z.leb_spec (Z.of_nat m + (Z.of_nat Bn - Z.of_nat m))
                (Z.of_nat (m + (Bn - m)))); [|lia].
    simpl. rewrite Nat2Z.id.
    replace (Z.to_nat (Z.of_nat Bn - Z.of_nat m)) with (Bn - m)%nat by lia.
    replace (Z.to_nat (Z.of_nat m + (Z.of_nat Bn - Z.of_nat m))) with Bn by lia.
    rewrite take_app_length' by (symmetry; exact Htr).
    rewrite drop_ge by (rewrite length_app, Htr, length_drop; lia).
    rewrite app_nil_r.
    rewrite prefix_of_ok
      by (rewrite length_app, Htr, length_replicate; lia).
    rewrite take_ge by (rewrite length_app, Htr, length_replicate; lia).
    simpl. eexists _, m, sy, k. rewrite Epad. split; [reflexivity|].
    split_and!; auto; try lia.
    apply Hinv. rewrite length_app, Htr, length_replicate. lia.
  - simpl. rewrite prefix_of_ok by (rewrite length_app, Htr; lia).
    rewrite take_app_length' by (symmetry; exact Htr). simpl.
    eexists _, m, sy, k. rewrite Epad, app_nil_r. split; [reflexivity|].
    split_and!; auto; try lia.
    apply Hinv. rewrite length_app, Htr, length_drop. lia.
Qed.

End EncoderInvariant.

(** ** The decoder: a block of bytes under construction *)

(** The layout of a working buffer: [p] finished entries, the entry under
    the cursor, and zeroes (with one more zero past the end). *)
Definition layout (buf : list byte) (Kn p : nat) (done : list Z) (cur : Z)
  : Prop :=
  syms buf ++ [0] = done ++ cur :: replicate (Kn - p) 0 /\
  length done = p /\ (p <= Kn)%nat.

Lemma layout_length buf Kn p done cur :
  layout buf Kn p done cur -> length buf = Kn.
Proof.
  intros (E & Hl & Hle). apply (f_equal length) in E.
  unfold syms in E. rewrite !length_app, length_fmap in E. simpl in E.
  rewrite length_replicate in E. lia.
Qed.

Lemma layout_rd buf Kn p done cur :
  layout buf Kn p done cur -> (p < Kn)%nat ->
  exists old, rd buf (Z.of_nat p) = Ok old /\ byte_to_Z old = cur.
Proof.
  intros H Hp. pose proof (layout_length _ _ _ _ _ H) as Hlen.
  destruct H as (E & Hl & Hle).
  apply (f_equal (fun l => l !! p)) in E. simpl in E.
  rewrite lookup_app_l in E by (unfold syms; rewrite length_fmap; lia).
  rewrite lookup_app_r in E by lia.
  rewrite Hl, Nat.sub_diag in E. simpl in E.
  unfold syms in E. rewrite list_lookup_fmap in E.
  destruct (buf !! p) as [old|] eqn:Eo; [|discriminate].
  exists old. split; [apply rd_lookup; exact Eo|simpl in E; congruence].
Qed.

Lemma layout_wr buf Kn p done cur x :
  layout buf Kn p done cur -> (p < Kn)%nat -> 0 <= x < 256 ->
  exists buf', wr buf (Z.of_nat p) (Z_to_byte x) = Ok buf' /\
    layout buf' Kn p done x.
Proof.
  intros H Hp Hx. pose proof (layout_length _ _ _ _ _ H) as Hlen.
  destruct H as (E & Hl & Hle).
  rewrite wr_insert by lia. eexists; split; [reflexivity|].
  split; [|auto].
  unfold syms. rewrite list_fmap_insert, byte_to_Z_to_byte_small by lia.
  rewrite <- insert_app_l by (rewrite length_fmap; lia).
  fold (syms buf). rewrite E.
  rewrite insert_app_r_alt by lia.
  rewrite Hl, Nat.sub_diag. reflexivity.
Qed.

Lemma layout_next buf Kn p done cur :
  layout buf Kn p done cur -> (p < Kn)%nat ->
  layout buf Kn (S p) (done ++ [cur]) 0.
Proof.
  intros (E & Hl & Hle) Hp. split; [|split; [|lia]].
  - rewrite E, <- app_assoc. simpl. do 2 f_equal.
    replace (Kn - p)%nat with (S (Kn - S p)) by lia. reflexivity.
  - rewrite length_app. simpl. lia.
Qed.

Lemma layout_zero Kn : layout (replicate Kn x00) Kn 0 [] 0.
Proof.
  split; [|split; [reflexivity|lia]].
  rewrite Nat.sub_0_r. apply syms_zero.
Qed.

Lemma layout_full buf Kn done cur :
  layout buf Kn Kn done cur -> cur = 0 /\ syms buf = done.
Proof.
  intros (E & _). rewrite Nat.sub_diag in E. simpl in E.
  apply app_inj_tail in E. destruct E; auto.
Qed.

Lemma layout_take buf Kn p done cur :
  layout buf Kn p done cur -> take p (syms buf) = done.
Proof.
  intros H. pose proof (layout_length _ _ _ _ _ H) as Hlen.
  destruct H as (E & Hl & Hle).
  apply (f_equal (take p)) in E.
  rewrite take_app_le in E by (unfold syms; rewrite length_fmap; lia).
  rewrite take_app_le in E by lia.
  rewrite E. apply take_ge. lia.
Qed.

Record dec_inv (bpc : Z) (Kn : nat) (B : Z) (d : D.t) (sy : list Z) : Prop := {
  di_len : Z.of_nat (length sy) < B;
  di_bpc : D.m_bitsPerChar d = bpc;
  di_K : D.m_outputBlockSize d = Z.of_nat Kn;
  di_buflen : length (D.m_outBuf d) = Kn;
  di_pos : 8 * D.m_bytePos d + D.m_bitPos d = Z.of_nat (length sy) * bpc;
  di_bit : 0 <= D.m_bitPos d <= 7;
  di_byte : 0 <= D.m_bytePos d;
  di_buf : sy = [] \/
           exists p done cur,
             D.m_bytePos d = Z.of_nat p /\
             layout (D.m_outBuf d) Kn p done cur /\
             0 <= cur < 256 /\ cur mod 2 ^ (8 - D.m_bitPos d) = 0 /\
             val 8 done * 2 ^ D.m_bitPos d + cur / 2 ^ (8 - D.m_bitPos d)
             = val bpc sy }.

Lemma dec_set_cursor_id d :
  D.set_cursor d (D.m_bytePos d) (D.m_bitPos d) (D.m_outBuf d) = d.
Proof. destruct d. reflexivity. Qed.

Lemma dec_start bpc Kn B d sy :
  1 <= bpc <= 7 -> dec_inv bpc Kn B d sy ->
  exists buf0 p done cur,
    (if (D.m_bytePos d =? 0) && (D.m_bitPos d =? 0)
     then memset (D.m_outBuf d) 0 x00 (D.m_outputBlockSize d)
     else Ok (D.m_outBuf d)) = Ok buf0 /\
    D.m_bytePos d = Z.of_nat p /\
    layout buf0 Kn p done cur /\
    0 <= cur < 256 /\ cur mod 2 ^ (8 - D.m_bitPos d) = 0 /\
    val 8 done * 2 ^ D.m_bitPos d + cur / 2 ^ (8 - D.m_bitPos d) = val bpc sy.
Proof.
  intros Hbpc Hd.
  pose proof (di_pos _ _ _ _ _ Hd) as Hpos.
  pose proof (di_bit _ _ _ _ _ Hd) as Hbit.
  pose proof (di_byte _ _ _ _ _ Hd) as Hbyte.
  destruct (Z.eqb_spec (D.m_bytePos d) 0) as [E0|Hne];
    [destruct (Z.eqb_spec (D.m_bitPos d) 0) as [E1|Hne]|]; simpl.
  - rewrite E0, E1 in Hpos. simpl in Hpos.
    assert (Hs : sy = []).
    { destruct sy; [reflexivity|]. simpl length in Hpos.
      assert (0 < Z.of_nat (S (length sy)) * bpc) by (apply Z.mul_pos_pos; lia). lia. }
    subst sy.
    rewrite (di_K _ _ _ _ _ Hd), <- (di_buflen _ _ _ _ _ Hd), memset_all.
    rewrite (di_buflen _ _ _ _ _ Hd).
    exists (replicate Kn x00), 0%nat, [], 0. rewrite E0, E1.
    split_and!; auto using layout_zero; try lia.
  - destruct (di_buf _ _ _ _ _ Hd) as [->|(p & done & cur & Hp & Hlay & Hc & Hm & Hv)].
    + simpl in Hpos. lia.
    + exists (D.m_outBuf d), p, done, cur. split_and!; auto; lia.
  - destruct (di_buf _ _ _ _ _ Hd) as [->|(p & done & cur & Hp & Hlay & Hc & Hm & Hv)].
    + simpl in Hpos. lia.
    + exists (D.m_outBuf d), p, done, cur. split_and!; auto; lia.
Qed.

Lemma carry_small p bit : bit < 8 -> D.carry 4 p bit = Ok (p, bit).
Proof. intros. simpl. destruct (Z.leb_spec 8 bit); [lia|reflexivity]. Qed.

Lemma carry_once p bit : 8 <= bit < 16 -> D.carry 4 p bit = Ok (p + 1, bit - 8).
Proof.
  intros. simpl. destruct (Z.leb_spec 8 bit); [|lia].
  destruct (Z.leb_spec 8 (bit - 8)); [lia|reflexivity].
Qed.

Lemma Z_to_byte_mod z : Z_to_byte (z mod 256) = Z_to_byte z.
Proof. unfold Z_to_byte. rewrite Z.mod_mod by lia. reflexivity. Qed.

Lemma or_into_ok buf Kn p done cur x :
  layout buf Kn p done cur -> (p < Kn)%nat ->
  exists buf', D.or_into buf (Z.of_nat p) x = Ok buf' /\
    layout buf' Kn p done (Z.lor cur x mod 256).
Proof.
  intros H Hp. unfold D.or_into.
  destruct (layout_rd _ _ _ _ _ H Hp) as (old & -> & Hold). rewrite bind_Ok, Hold.
  rewrite <- Z_to_byte_mod.
  apply (layout_wr _ _ _ _ _ _ H Hp). apply Z.mod_pos_bound. lia.
Qed.

Lemma dec_put_byte_ok bpc Kn B d sy c entry v :
  1 <= bpc <= 7 -> Z.of_nat Kn * 8 = B * bpc ->
  dec_inv bpc Kn B d sy ->
  rd (D.m_lookup d) (byte_to_Z c) = Ok entry -> to_unsigned entry = v ->
  0 <= v < 2 ^ bpc ->
  exists d' out, D.put_byte d c = Ok (d', out) /\
    D.m_lookup d' = D.m_lookup d /\
    ((Z.of_nat (length sy) + 1 < B /\ out = [] /\
      dec_inv bpc Kn B d' (sy ++ [v])) \/
     (Z.of_nat (length sy) + 1 = B /\ dec_inv bpc Kn B d' [] /\
      exists bytes, out = [mkOutput 1 bytes 0] /\ length bytes = Kn /\
        val 8 (syms bytes) = val bpc (sy ++ [v]))).
Proof.
  intros Hbpc HKB Hd Hrd Hent Hv.
  pose proof (pow2_le_128 bpc Hbpc) as Hp2.
  pose proof (di_pos _ _ _ _ _ Hd) as Hpos.
  pose proof (di_bit _ _ _ _ _ Hd) as Hbit.
  pose proof (di_len _ _ _ _ _ Hd) as Hlen.
  destruct (dec_start _ _ _ _ _ Hbpc Hd)
    as (buf0 & p & done & cur & Hb0 & Hp & Hlay & Hcur & Hmod & Hval).
  unfold D.put_byte. rewrite Hrd, bind_Ok, Hent.
  destruct (Z.leb_spec 256 v) as [|_]; [lia|].
  rewrite Hb0, bind_Ok. rewrite (di_bpc _ _ _ _ _ Hd), (di_K _ _ _ _ _ Hd), Hp.
  set (bit := D.m_bitPos d) in *.
  assert (Hnew : 8 * Z.of_nat p + (bit + bpc) = (Z.of_nat (length sy) + 1) * bpc) by lia.
  assert (HB : (Z.of_nat (length sy) + 1) * bpc <= B * bpc)
    by (apply Z.mul_le_mono_nonneg_r; lia).
  assert (Hstrict : (Z.of_nat (length sy) + 1) * bpc < B * bpc ->
                    Z.of_nat (length sy) + 1 < B)
    by (intros; apply (Z.mul_lt_mono_pos_r bpc); lia).
  assert (Hinv0 : forall buf, length buf = Kn ->
                    dec_inv bpc Kn B (D.set_cursor d 0 0 buf) []).
  { intros buf Hb. constructor; simpl; try apply Hd; try lia. left; reflexivity. }
  assert (Hsnoc : val bpc (sy ++ [v]) = val bpc sy * 2 ^ bpc + v) by apply val_snoc.
  assert (Hlensnoc : Z.of_nat (length (sy ++ [v])) = Z.of_nat (length sy) + 1)
    by (rewrite length_app; simpl; lia).
  destruct (Z.leb_spec (bit + bpc) 8) as [Hle|Hgt].
  - (* the symbol ends in the current byte *)
    assert (HpK : (p < Kn)%nat) by lia.
    rewrite shl32_ok by lia. rewrite bind_Ok.
    destruct (or_into_ok _ _ _ _ _
                (Z.shiftl v (8 - (bit + bpc)) mod 2 ^ 32) Hlay HpK)
      as (buf1 & -> & Hlay1). rewrite bind_Ok.
    rewrite Z.shiftl_mul_pow2 in Hlay1 by lia.
    destruct (dec_same_byte bit bpc v cur (val 8 done) (val bpc sy)
                Hbit Hbpc Hv Hcur Hmod Hval Hle) as (Hx & Hcx & Hlt8 & Heq8).
    set (x := (v * 2 ^ (8 - (bit + bpc))) mod 2 ^ 32) in *.
    rewrite (lor_add cur x (8 - bit)) in Hlay1 by (auto; lia).
    rewrite Z.mod_small in Hlay1 by lia.
    destruct (Z.eq_dec (bit + bpc) 8) as [E8|Hn8].
    + rewrite carry_once by lia. rewrite bind_Ok.
      apply layout_next in Hlay1; [|exact HpK].
      rewrite E8, Z.sub_diag.
      specialize (Heq8 E8).
      destruct (Z.eqb_spec (Z.of_nat p + 1) (Z.of_nat Kn)) as [Efull|Hnf].
      * assert (S p = Kn) by lia. subst Kn.
        destruct (layout_full _ _ _ _ Hlay1) as [_ Hsy].
        pose proof (layout_length _ _ _ _ _ Hlay1) as Hl1.
        rewrite prefix_of_ok by lia. rewrite take_ge by lia. rewrite bind_Ok.
        eexists _, _. split; [reflexivity|]. split; [reflexivity|].
        right. split_and!; [apply (Z.mul_reg_r _ _ bpc); lia|apply Hinv0; exact Hl1|].
        exists buf1. split_and!; auto.
        rewrite Hsy, val_snoc, Hsnoc. change (2 ^ 8) with 256. lia.
      * eexists _, _. split; [reflexivity|]. split; [reflexivity|].
        left. split_and!; [apply Hstrict; lia|reflexivity|].
        constructor; simpl; try apply Hd; try lia.
        -- apply (layout_length _ _ _ _ _ Hlay1).
        -- right. exists (S p), (done ++ [cur + x]), 0.
           split_and!; try lia; auto.
           rewrite val_snoc, Hsnoc. change (2 ^ 8) with 256.
           rewrite Z.pow_0_r, Z.div_0_l by (apply Z.pow_nonzero; lia). lia.
    + rewrite carry_small by lia. rewrite bind_Ok.
      destruct (Hlt8 ltac:(lia)) as [Hv' Hm'].
      destruct (Z.eqb_spec (Z.of_nat p) (Z.of_nat Kn)) as [Efull|Hnf]; [lia|].
      eexists _, _. split; [reflexivity|]. split; [reflexivity|].
      left. split_and!; [apply Hstrict; lia|reflexivity|].
      constructor; simpl; try apply Hd; try lia.
      * apply (layout_length _ _ _ _ _ Hlay1).
      * right. exists p, done, (cur + x). split_and!; try lia; auto.
        all: rewrite ?Hsnoc; try exact Hv'.
  - (* the symbol straddles two bytes *)
    assert (HpK : (S p < Kn)%nat) by lia.
    rewrite shr32_ok by lia. rewrite bind_Ok.
    destruct (or_into_ok _ _ _ _ _ (Z.shiftr v (bit + bpc - 8)) Hlay ltac:(lia))
      as (buf1 & -> & Hlay1). rewrite bind_Ok.
    rewrite Z.shiftr_div_pow2 in Hlay1 by lia.
    destruct (dec_next_byte bit bpc v cur (val 8 done) (val bpc sy)
                Hbit Hbpc Hv Hcur Hmod Hval Hgt) as (Hhi & Hch & Hv' & Hm').
    set (hi := v / 2 ^ (bit + bpc - 8)) in *.
    rewrite (lor_add cur hi (8 - bit)) in Hlay1 by (auto; lia).
    rewrite Z.mod_small in Hlay1 by lia.
    apply layout_next in Hlay1; [|lia].
    rewrite shl32_ok by lia. rewrite bind_Ok.
    replace (Z.of_nat p + 1) with (Z.of_nat (S p)) by lia.
    destruct (or_into_ok _ _ _ _ _
                (Z.shiftl v (16 - (bit + bpc)) mod 2 ^ 32) Hlay1 HpK)
      as (buf2 & -> & Hlay2). rewrite bind_Ok.
    rewrite Z.shiftl_mul_pow2, Z.lor_0_l in Hlay2 by lia.
    set (lo := ((v * 2 ^ (16 - (bit + bpc))) mod 2 ^ 32) mod 256) in *.
    rewrite carry_once by lia. rewrite bind_Ok.
    destruct (Z.eqb_spec (Z.of_nat p + 1) (Z.of_nat Kn)) as [Efull|Hnf]; [lia|].
    eexists _, _. split; [reflexivity|]. split; [reflexivity|].
    left. split_and!; [apply Hstrict; lia|reflexivity|].
    constructor; simpl; try apply Hd; try lia.
    + apply (layout_length _ _ _ _ _ Hlay2).
    + right. exists (S p), (done ++ [cur + hi]), lo.
      split_and!; try lia; auto.
      all: try (subst lo; apply Z.mod_pos_bound; lia).
      all: rewrite ?val_snoc, ?Hsnoc; change (2 ^ 8) with 256; try exact Hv'.
Qed.

(** ** Positional values and the decoding lookup array *)

Lemma val_nonneg w l : Forall (sym w) l -> 0 <= val w l.
Proof.
  induction l as [|x l IH] using rev_ind; intros H; [rewrite val_nil; lia|].
  apply Forall_app in H as [H1 H2]. apply Forall_cons_1 in H2 as [Hx _].
  rewrite val_snoc. specialize (IH H1). unfold sym in Hx.
  assert (0 <= 2 ^ w) by (apply Z.pow_nonneg; lia).
  assert (0 <= val w l * 2 ^ w) by (apply Z.mul_nonneg_nonneg; lia). lia.
Qed.

Lemma val_inj w l l' :
  0 <= w -> length l = length l' ->
  Forall (sym w) l -> Forall (sym w) l' -> val w l = val w l' -> l = l'.
Proof.
  intros Hw. revert l'. induction l as [|x l IH] using rev_ind; intros l' Hlen H H' E.
  - destruct l'; [reflexivity|discriminate].
  - destruct l' as [|x' l' _] using rev_ind.
    + rewrite length_app in Hlen. simpl in Hlen. lia.
    + rewrite !length_app in Hlen. simpl in Hlen.
      apply Forall_app in H as [H1 H2]. apply Forall_cons_1 in H2 as [Hx _].
      apply Forall_app in H' as [H1' H2']. apply Forall_cons_1 in H2' as [Hx' _].
      rewrite !val_snoc in E. unfold sym in Hx, Hx'.
      assert (0 < 2 ^ w) by (apply Z.pow_pos_nonneg; lia).
      assert (val w l = val w l' /\ x = x') as [E1 E2].
      { assert (Hd : (val w l * 2 ^ w + x) / 2 ^ w = val w l)
          by (rewrite Z.div_add_l, Z.div_small by lia; lia).
        assert (Hd' : (val w l' * 2 ^ w + x') / 2 ^ w = val w l')
          by (rewrite Z.div_add_l, Z.div_small by lia; lia).
        rewrite E in Hd. split; [lia|]. rewrite Hd' in Hd. rewrite Hd in E. lia. }
      subst x'. f_equal. apply IH; auto. lia.
Qed.

Lemma syms_range buf : Forall (sym 8) (syms buf).
Proof.
  unfold syms. apply Forall_fmap, Forall_forall. intros c _.
  apply byte_to_Z_range.
Qed.

Lemma syms_inj a b : syms a = syms b -> a = b.
Proof.
  unfold syms. revert b. induction a as [|x a IH]; intros [|y b] H;
    try discriminate; [reflexivity|].
  simpl in H. injection H as H1 H2. f_equal; [apply byte_to_Z_inj; exact H1|auto].
Qed.

Lemma dec_ignore d c entry :
  rd (D.m_lookup d) (byte_to_Z c) = Ok entry -> 256 <= to_unsigned entry ->
  D.put_byte d c = Ok (d, []).
Proof.
  intros H Hi. unfold D.put_byte. rewrite H, bind_Ok.
  destruct (Z.leb_spec 256 (to_unsigned entry)); [reflexivity|lia].
Qed.

(** *** The decoding lookup array *)

Lemma bind_Ok_inv {A B} (m : result A) (f : A -> result B) (b : B) :
  (m ≫= f) = Ok b -> exists a, m = Ok a /\ f a = Ok b.
Proof. destruct m; simpl; intros H; try discriminate. eauto. Qed.

Lemma rd_Ok_inv {A} (l : list A) i x :
  rd l i = Ok x -> 0 <= i /\ l !! Z.to_nat i = Some x.
Proof.
  unfold rd. destruct (Z.ltb_spec i 0); [discriminate|].
  destruct (l !! Z.to_nat i); simpl; intros E; [|discriminate].
  injection E as ->. split; [lia|reflexivity].
Qed.

Lemma wr_Ok_inv {A} (l : list A) i x l' :
  wr l i x = Ok l' ->
  0 <= i < Z.of_nat (length l) /\ l' = <[Z.to_nat i := x]> l.
Proof.
  unfold wr. destruct (Z.leb_spec 0 i); [|discriminate].
  destruct (Z.ltb_spec i (Z.of_nat (length l))); [|discriminate].
  simpl. intros E. injection E as <-. split; [lia|reflexivity].
Qed.

Lemma assert_Ok_inv c u : assert c = Ok u -> c = true.
Proof. destruct c; [reflexivity|discriminate]. Qed.

Lemma register_inv lookup k i lookup' :
  D.register lookup k i = Ok lookup' ->
  0 <= k < Z.of_nat (length lookup) /\ rd lookup k = Ok (-1) /\
  lookup' = <[Z.to_nat k := i]> lookup.
Proof.
  unfold D.register. intros H.
  apply bind_Ok_inv in H as (old & Hold & H).
  apply bind_Ok_inv in H as (u & Ha & H).
  apply assert_Ok_inv, Z.eqb_eq in Ha. subst old.
  apply wr_Ok_inv in H as [Hk ->]. auto.
Qed.

Lemma rd_insert_eq (l : list Z) k x :
  0 <= k < Z.of_nat (length l) -> rd (<[Z.to_nat k := x]> l) k = Ok x.
Proof.
  intros H. unfold rd. destruct (Z.ltb_spec k 0); [lia|].
  rewrite list_lookup_insert_eq by lia. reflexivity.
Qed.

Lemma rd_insert_ne (l : list Z) k k' x :
  0 <= k -> 0 <= k' -> k <> k' ->
  rd (<[Z.to_nat k := x]> l) k' = rd l k'.
Proof.
  intros H H' Hne. unfold rd. destruct (Z.ltb_spec k' 0); [lia|].
  rewrite list_lookup_insert_ne by lia. reflexivity.
Qed.

(** A successful registration keeps every entry that is already set. *)
Lemma register_keeps lookup k i lookup' k' j :
  D.register lookup k i = Ok lookup' ->
  rd lookup k' = Ok j -> j <> -1 -> rd lookup' k' = Ok j.
Proof.
  intros H Hk' Hj. apply register_inv in H as (Hk & Hm & ->).
  pose proof (rd_Ok_inv _ _ _ Hk') as [Hk0 _].
  rewrite rd_insert_ne; auto; try lia. intros ->. congruence.
Qed.

Lemma register_sets lookup k i lookup' :
  D.register lookup k i = Ok lookup' -> rd lookup' k = Ok i.
Proof.
  intros H. apply register_inv in H as (Hk & Hm & ->).
  apply rd_insert_eq. exact Hk.
Qed.

Lemma register_length lookup k i lookup' :
  D.register lookup k i = Ok lookup' -> length lookup' = length lookup.
Proof.
  intros H. apply register_inv in H as (Hk & Hm & ->). apply length_insert.
Qed.

Lemma fill_lookup_ok ci alphabet :
  forall n (i : nat) lookup lookup',
    (forall j, (j < i)%nat ->
       rd lookup (byte_to_Z (alph alphabet (Z.of_nat j))) = Ok (Z.of_nat j)) ->
    D.fill_lookup ci alphabet n (Z.of_nat i) lookup = Ok lookup' ->
    length lookup' = length lookup /\
    forall j, (j < i + n)%nat ->
      rd lookup' (byte_to_Z (alph alphabet (Z.of_nat j))) = Ok (Z.of_nat j).
Proof.
  induction n as [|n IH]; intros i lookup lookup' Hprev H.
  - simpl in H. injection H as <-. rewrite Nat.add_0_r. auto.
  - simpl in H.
    apply bind_Ok_inv in H as (a & Ha & H).
    apply bind_Ok_inv in H as (l1 & Hl1 & H).
    apply rd_Ok_inv in Ha as [_ Ha]. rewrite Nat2Z.id in Ha.
    assert (Hai : alph alphabet (Z.of_nat i) = a).
    { unfold alph. rewrite Nat2Z.id. apply list_lookup_total_correct. exact Ha. }
    replace (Z.of_nat i + 1) with (Z.of_nat (S i)) in H by lia.
    assert (Hstep : length l1 = length lookup /\
              forall j, (j < S i)%nat ->
                rd l1 (byte_to_Z (alph alphabet (Z.of_nat j))) = Ok (Z.of_nat j)).
    { destruct (ci && D.isalpha (byte_to_Z a)) eqn:Eci.
      - apply bind_Ok_inv in Hl1 as (l0 & Hl0 & Hl1).
        split; [rewrite (register_length _ _ _ _ Hl1);
                apply (register_length _ _ _ _ Hl0)|].
        intros j Hj. destruct (Nat.eq_dec j i) as [->|Hne].
        + rewrite Hai.
          apply andb_true_iff in Eci as [_ Hal].
          unfold D.isalpha in Hal.
          destruct (Z.eq_dec (D.tolower (byte_to_Z a)) (byte_to_Z a)) as [El|Hl].
          * rewrite <- El at 1. apply (register_sets _ _ _ _ Hl1).
          * assert (Eu : D.toupper (byte_to_Z a) = byte_to_Z a).
            { unfold D.tolower in Hl. unfold D.toupper.
              repeat match goal with
                     | |- context [?x <=? ?y] => destruct (Z.leb_spec x y)
                     | H : context [?x <=? ?y] |- _ => destruct (Z.leb_spec x y)
                     end; simpl in *; lia. }
            apply (register_keeps _ _ _ _ _ (Z.of_nat i) Hl1); [|lia].
            rewrite <- Eu at 1. apply (register_sets _ _ _ _ Hl0).
        + apply (register_keeps _ _ _ _ _ (Z.of_nat j) Hl1); [|lia].
          apply (register_keeps _ _ _ _ _ (Z.of_nat j) Hl0); [|lia].
          apply Hprev. lia.
      - split; [apply (register_length _ _ _ _ Hl1)|].
        intros j Hj. destruct (Nat.eq_dec j i) as [->|Hne].
        + rewrite Hai. apply (register_sets _ _ _ _ Hl1).
        + apply (register_keeps _ _ _ _ _ (Z.of_nat j) Hl1); [|lia].
          apply Hprev. lia. }
    destruct Hstep as [Hlen Hstep].
    destruct (IH (S i) l1 lookup' Hstep H) as [Hlen' Hall].
    split; [congruence|]. intros j Hj. apply Hall. lia.
Qed.

Lemma lookup_built alphabet base ci lookup :
  0 <= base ->
  D.InitializeDecodingLookupArray alphabet base ci = Ok lookup ->
  length lookup = 256%nat /\
  forall v, 0 <= v < base ->
    rd lookup (byte_to_Z (alph alphabet v)) = Ok v.
Proof.
  intros Hb H. unfold D.InitializeDecodingLookupArray in H.
  change 0 with (Z.of_nat 0) in H.
  apply fill_lookup_ok in H; [|intros j Hj; lia].
  destruct H as [Hlen H]. split; [rewrite Hlen; apply length_replicate|].
  intros v Hv. specialize (H (Z.to_nat v) ltac:(lia)).
  rewrite Z2Nat.id in H by lia. exact H.
Qed.

Lemma alph_lookup alphabet (i : nat) :
  (i < length alphabet)%nat ->
  alphabet !! i = Some (alph alphabet (Z.of_nat i)).
Proof.
  intros H. unfold alph. rewrite Nat2Z.id.
  apply list_lookup_lookup_total_lt. exact H.
Qed.

Lemma fill_lookup_distinct alphabet :
  NoDup alphabet ->
  forall n (i : nat) lookup,
    (i + n <= length alphabet)%nat -> length lookup = 256%nat ->
    (forall k, 0 <= k < 256 ->
       rd lookup k = Ok (-1) \/
       exists j, (j < i)%nat /\ k = byte_to_Z (alph alphabet (Z.of_nat j))) ->
    exists lookup', D.fill_lookup false alphabet n (Z.of_nat i) lookup = Ok lookup'.
Proof.
  intros Hnd. induction n as [|n IH]; intros i lookup Hlen Hl Hfree.
  - eexists. reflexivity.
  - simpl. pose proof (alph_lookup alphabet i ltac:(lia)) as Ha.
    rewrite (rd_lookup _ _ _ Ha), bind_Ok.
    set (a := alph alphabet (Z.of_nat i)) in *.
    pose proof (byte_to_Z_range a) as Hr.
    assert (Hm : rd lookup (byte_to_Z a) = Ok (-1)).
    { destruct (Hfree (byte_to_Z a) Hr) as [|(j & Hj & E)]; [assumption|].
      apply byte_to_Z_inj in E.
      pose proof (alph_lookup alphabet j ltac:(lia)) as Hj'. rewrite <- E in Hj'.
      pose proof (NoDup_lookup _ _ _ _ Hnd Ha Hj'). lia. }
    unfold D.register at 1. rewrite Hm, bind_Ok. simpl assert. rewrite bind_Ok.
    unfold wr. rewrite Hl.
    destruct (Z.leb_spec 0 (byte_to_Z a)); [|lia].
    destruct (Z.ltb_spec (byte_to_Z a) (Z.of_nat 256)); [|lia]. simpl andb. cbv iota.
    rewrite bind_Ok.
    replace (Z.of_nat i + 1) with (Z.of_nat (S i)) by lia.
    apply IH; [lia|rewrite length_insert; exact Hl|].
    intros k Hk. destruct (Z.eq_dec k (byte_to_Z a)) as [->|Hne].
    + right. exists i. split; [lia|reflexivity].
    + destruct (Hfree k Hk) as [Hf|(j & Hj & E)].
      * left. rewrite rd_insert_ne; auto; lia.
      * right. exists j. split; [lia|exact E].
Qed.

Lemma lookup_exists alphabet base :
  NoDup alphabet -> 0 <= base <= Z.of_nat (length alphabet) ->
  exists lookup, D.InitializeDecodingLookupArray alphabet base false = Ok lookup.
Proof.
  intros Hnd Hb. unfold D.InitializeDecodingLookupArray.
  change 0 with (Z.of_nat 0).
  apply fill_lookup_distinct; auto; [lia|].
  intros k Hk. left. unfold rd. destruct (Z.ltb_spec k 0); [lia|].
  rewrite lookup_replicate_2 by lia. reflexivity.
Qed.

(** ** Encoder and decoder in lockstep *)

(** The number of characters and of bytes in one block. *)
Definition block_chars (bpc : Z) : nat :=
  Z.to_nat (Z.lcm 8 bpc / bpc).
Definition block_bytes (bpc : Z) : nat :=
  Z.to_nat (Z.lcm 8 bpc / 8).

Lemma block_sizes bpc :
  1 <= bpc <= 7 ->
  Z.of_nat (block_chars bpc) * bpc = 8 * Z.of_nat (block_bytes bpc) /\
  E.block_bits 8 8 bpc = Ok (Z.of_nat (block_chars bpc) * bpc) /\
  D.block_bits 8 bpc bpc = Ok (8 * Z.of_nat (block_bytes bpc)) /\
  (0 < block_chars bpc)%nat /\ (0 < block_bytes bpc)%nat.
Proof.
  intros H. split_range bpc 1 7%nat; vm_compute; repeat split; lia.
Qed.

Lemma enc_init bpc alphabet pad padflag :
  1 <= bpc <= 7 -> 2 ^ bpc <= Z.of_nat (length alphabet) ->
  exists e,
    E.IsolatedInitialize (E.mkParams (Some alphabet) (Some bpc) pad padflag)
    = Ok e /\
    enc_inv bpc (block_chars bpc) (Z.of_nat (block_bytes bpc)) e [] /\
    E.m_alphabet e = alphabet /\
    E.m_padding e = match pad with
                    | Some p => if default true padflag then byte_to_Z p else -1
                    | None => -1
                    end.
Proof.
  intros Hbpc Hal.
  destruct (block_sizes bpc Hbpc) as (HBK & Hbb & _ & HB & HK).
  unfold E.IsolatedInitialize, GetRequiredParameter.
  cbn [E.EncodingLookupArray E.Log2Base E.PaddingByte E.Pad].
  rewrite !bind_Ok.
  destruct (Z.leb_spec bpc 0); [lia|]. destruct (Z.leb_spec 8 bpc); [lia|].
  simpl orb. cbv iota. rewrite Hbb, bind_Ok.
  rewrite Z.div_mul by lia. rewrite Nat2Z.id.
  eexists. split; [reflexivity|]. simpl. split; [|auto].
  constructor; simpl; auto; try lia.
  apply length_replicate.
Qed.

Lemma dec_init bpc lookup :
  1 <= bpc <= 7 ->
  exists d,
    D.IsolatedInitialize (D.mkParams (Some lookup) (Some bpc)) = Ok d /\
    dec_inv bpc (block_bytes bpc) (Z.of_nat (block_chars bpc)) d [] /\
    D.m_lookup d = lookup.
Proof.
  intros Hbpc.
  destruct (block_sizes bpc Hbpc) as (HBK & _ & Hbb & HB & HK).
  unfold D.IsolatedInitialize, GetRequiredParameter.
  cbn [D.DecodingLookupArray D.Log2Base].
  rewrite !bind_Ok.
  destruct (Z.leb_spec bpc 0); [lia|]. destruct (Z.leb_spec 8 bpc); [lia|].
  simpl orb. cbv iota. rewrite Hbb, bind_Ok.
  rewrite Z.mul_comm, Z.div_mul by lia. rewrite Nat2Z.id.
  eexists. split; [reflexivity|]. simpl. split; [|auto].
  constructor; simpl; auto; try lia.
  apply length_replicate.
Qed.

Lemma enc_put_loop_app e a b :
  E.put_loop e (a ++ b)
  = '(e1, o1) ← E.put_loop e a;
    '(e2, o2) ← E.put_loop e1 b; Ok (e2, o1 ++ o2).
Proof.
  revert e. induction a as [|c a IH]; intros e; simpl.
  - destruct (E.put_loop e b) as [[e2 o2]| |]; reflexivity.
  - destruct (E.put_byte e c) as [[e1 o1]| |]; simpl; try reflexivity.
    rewrite IH. destruct (E.put_loop e1 a) as [[e2 o2]| |]; simpl; try reflexivity.
    destruct (E.put_loop e2 b) as [[e3 o3]| |]; simpl; try reflexivity.
    rewrite app_assoc. reflexivity.
Qed.

Lemma dec_put_loop_app d a b :
  D.put_loop d (a ++ b)
  = '(d1, o1) ← D.put_loop d a;
    '(d2, o2) ← D.put_loop d1 b; Ok (d2, o1 ++ o2).
Proof.
  revert d. induction a as [|c a IH]; intros d; simpl.
  - destruct (D.put_loop d b) as [[d2 o2]| |]; reflexivity.
  - destruct (D.put_byte d c) as [[d1 o1]| |]; simpl; try reflexivity.
    rewrite IH. destruct (D.put_loop d1 a) as [[d2 o2]| |]; simpl; try reflexivity.
    destruct (D.put_loop d2 b) as [[d3 o3]| |]; simpl; try reflexivity.
    rewrite app_assoc. reflexivity.
Qed.

Lemma emitted_app os os' : emitted (os ++ os') = emitted os ++ emitted os'.
Proof. unfold emitted. rewrite map_app, concat_app. reflexivity. Qed.

Lemma dec_ignored_loop d l :
  Forall (fun c => exists entry,
            rd (D.m_lookup d) (byte_to_Z c) = Ok entry /\
            256 <= to_unsigned entry) l ->
  D.put_loop d l = Ok (d, []).
Proof.
  induction 1 as [|c l (entry & Hrd & Hig) _ IH]; [reflexivity|].
  simpl. rewrite (dec_ignore _ _ _ Hrd Hig), bind_Ok. simpl.
  rewrite IH. reflexivity.
Qed.

Section Lockstep.
Variables (bpc : Z) (alphabet : list byte) (lookup : list Z).
Hypothesis Hbpc : 1 <= bpc <= 7.
Hypothesis Hlook : forall v, 0 <= v < 2 ^ bpc ->
  rd lookup (byte_to_Z (alph alphabet v)) = Ok v.
Let Bn := block_chars bpc.
Let Kn := block_bytes bpc.

Lemma dec_syms_ok sy :
  forall d sy0,
    dec_inv bpc Kn (Z.of_nat Bn) d sy0 -> D.m_lookup d = lookup ->
    Forall (sym bpc) sy -> (length sy0 + length sy <= Bn)%nat ->
    exists d' out,
      D.put_loop d (alph alphabet <$> sy) = Ok (d', out) /\
      D.m_lookup d' = lookup /\
      (((length sy0 + length sy < Bn)%nat /\ out = [] /\
        dec_inv bpc Kn (Z.of_nat Bn) d' (sy0 ++ sy)) \/
       ((length sy0 + length sy = Bn)%nat /\
        dec_inv bpc Kn (Z.of_nat Bn) d' [] /\
        exists bytes, out = [mkOutput 1 bytes 0] /\ length bytes = Kn /\
          val 8 (syms bytes) = val bpc (sy0 ++ sy))).
Proof.
  destruct (block_sizes bpc Hbpc) as (HBK & _ & _ & HB & HK).
  fold Bn Kn in HBK, HB, HK.
  induction sy as [|v sy IH]; intros d sy0 Hd Hl Hsy Hlen.
  - simpl. exists d, []. split; [reflexivity|]. split; [exact Hl|].
    left. rewrite app_nil_r. pose proof (di_len _ _ _ _ _ Hd). simpl.
    split_and!; auto. lia.
  - apply Forall_cons_1 in Hsy as [Hv Hsy]. simpl in Hlen.
    pose proof (Hlook v Hv) as Hrd. rewrite <- Hl in Hrd.
    destruct (dec_put_byte_ok bpc Kn (Z.of_nat Bn) d sy0 _ v v Hbpc
                ltac:(lia) Hd Hrd
                ltac:(apply to_unsigned_small;
                      pose proof (pow2_le_128 bpc Hbpc); unfold sym in Hv; lia)
                Hv)
      as (d1 & o1 & Hpb & Hl1 & Hcase).
    rewrite fmap_cons. simpl D.put_loop. rewrite Hpb, bind_Ok. cbn beta iota.
    destruct Hcase as [(Hlt & -> & Hd1)|(Heq & Hd1 & bytes & -> & Hbl & Hbv)].
    + destruct (IH d1 (sy0 ++ [v]) Hd1 ltac:(congruence) Hsy
                  ltac:(rewrite length_app; simpl; lia))
        as (d' & out & Hpl & Hl' & Hc).
      rewrite Hpl, bind_Ok. cbn beta iota. exists d', out. split; [reflexivity|].
      split; [exact Hl'|].
      rewrite length_app, <- app_assoc in Hc. simpl in Hc.
      destruct Hc as [(? & ? & ?)|(? & ? & ?)]; [left|right]; split_and!; auto; simpl; lia.
    + assert (sy = []) by (destruct sy; [reflexivity|simpl in Hlen; lia]). subst sy.
      simpl. exists d1, [mkOutput 1 bytes 0]. split; [reflexivity|].
      split; [congruence|]. right. split_and!; [lia|exact Hd1|].
      exists bytes. auto.
Qed.

Lemma lockstep s :
  forall e d pre,
    enc_inv bpc Bn (Z.of_nat Kn) e pre -> E.m_alphabet e = alphabet ->
    dec_inv bpc Kn (Z.of_nat Bn) d [] -> D.m_lookup d = lookup ->
    exists e' outs d' outs' pre',
      E.put_loop e s = Ok (e', outs) /\
      D.put_loop d (emitted outs) = Ok (d', outs') /\
      enc_inv bpc Bn (Z.of_nat Kn) e' pre' /\
      E.m_alphabet e' = alphabet /\ E.m_padding e' = E.m_padding e /\
      dec_inv bpc Kn (Z.of_nat Bn) d' [] /\ D.m_lookup d' = lookup /\
      pre ++ s = emitted outs' ++ pre'.
Proof.
  destruct (block_sizes bpc Hbpc) as (HBK & _ & _ & HB & HK).
  fold Bn Kn in HBK, HB, HK.
  induction s as [|c s IH]; intros e d pre He Ha Hd Hl.
  - exists e, [], d, [], pre. simpl. rewrite app_nil_r. split_and!; auto.
  - destruct (put_byte_ok bpc Bn (Z.of_nat Kn) e pre c Hbpc HBK He)
      as (e1 & o1 & Hpb & Ha1 & Hp1 & Hcase).
    simpl E.put_loop. rewrite Hpb, bind_Ok.
    destruct Hcase as [(Hlt & -> & He1)|(Heq & He1 & sy & -> & Hsl & Hsr & Hsv)].
    + destruct (IH e1 d (pre ++ [c]) He1 ltac:(congruence) Hd Hl)
        as (e' & outs & d' & outs' & pre' & Hel & Hdl & He' & Ha' & Hp' & Hd' & Hl' & Hs).
      rewrite Hel, bind_Ok. exists e', outs, d', outs', pre'.
      rewrite <- app_assoc in Hs. simpl in Hs.
      split_and!; auto; congruence.
    + destruct (dec_syms_ok sy d [] Hd Hl Hsr ltac:(simpl; lia))
        as (d1 & od & Hdl1 & Hl1 & Hc).
      destruct Hc as [(Hc & _)|(_ & Hd1 & bytes & -> & Hbl & Hbv)];
        [simpl in Hc; lia|].
      assert (Hbytes : bytes = pre ++ [c]).
      { apply syms_inj. apply (val_inj 8); [lia| |apply syms_range..|].
        - unfold syms. rewrite !length_fmap, Hbl, length_app. simpl. lia.
        - simpl in Hbv. rewrite Hbv. exact Hsv. }
      destruct (IH e1 d1 [] He1 ltac:(congruence) Hd1 Hl1)
        as (e' & outs & d' & outs' & pre' & Hel & Hdl & He' & Ha' & Hp' & Hd' & Hl' & Hs).
      rewrite Hel, bind_Ok.
      exists e', (mkOutput 1 (alph (E.m_alphabet e) <$> sy) 0 :: outs), d',
        (mkOutput 1 bytes 0 :: outs'), pre'.
      split; [reflexivity|].
      split.
      { change (emitted (?o :: ?os)) with (out_data o ++ emitted os).
        cbn [out_data]. rewrite dec_put_loop_app, Ha, Hdl1, bind_Ok.
        cbn beta iota. rewrite Hdl, bind_Ok. reflexivity. }
      split_and!; auto; try congruence.
      change (emitted (?o :: ?os)) with (out_data o ++ emitted os).
      cbn [out_data]. rewrite Hbytes, <- !app_assoc. simpl. simpl in Hs.
      rewrite Hs at 1. reflexivity.
Qed.

Lemma shifted_eq a b r k :
  0 <= k -> 0 <= r < 2 ^ k -> a * 2 ^ k + r = b * 2 ^ k -> a = b.
Proof.
  intros Hk Hr E. assert (0 < 2 ^ k) by (apply Z.pow_pos_nonneg; lia).
  assert (Ha : (a * 2 ^ k + r) / 2 ^ k = a)
    by (rewrite Z.div_add_l, Z.div_small by lia; lia).
  rewrite E, Z.div_mul in Ha by lia. lia.
Qed.

Lemma lockstep_end e d pre me me' :
  enc_inv bpc Bn (Z.of_nat Kn) e pre -> E.m_alphabet e = alphabet ->
  dec_inv bpc Kn (Z.of_nat Bn) d [] -> D.m_lookup d = lookup ->
  (E.m_padding e <> -1 ->
   rd lookup (byte_to_Z (Z_to_byte (E.m_padding e))) = Ok (-1)) ->
  me' <> 0 ->
  exists e' data d' outs',
    E.put_end e me = Ok (e', [mkOutput 2 data me]) /\
    D.Put2 d data me' = Ok (d', outs') /\ emitted outs' = pre.
Proof.
  intros He Ha Hd Hl Hpad Hme.
  destruct (block_sizes bpc Hbpc) as (HBK & _ & _ & HB & HK).
  fold Bn Kn in HBK, HB, HK.
  pose proof (ei_len _ _ _ _ _ He) as Hprelen.
  destruct (put_end_ok bpc Bn (Z.of_nat Kn) e pre me Hbpc HBK He)
    as (e' & m & sy & k & Hpe & He' & Ha' & Hp' & Hm & HmB & Hsy & Hsl & Hsr
        & Hk & Hmk & Hv).
  rewrite Hpe. eexists _, _. 
  assert (HmBn : (m < Bn)%nat).
  { apply Nat2Z.inj_lt. apply (Z.mul_lt_mono_pos_r bpc); lia. }
  destruct (dec_syms_ok sy d [] Hd Hl Hsr ltac:(simpl; lia))
    as (d1 & od & Hdl1 & Hl1 & Hc).
  destruct Hc as [(_ & -> & Hd1)|(Hc & _)]; [|simpl in Hc; lia].
  simpl app in Hd1.
  pose proof (di_pos _ _ _ _ _ Hd1) as Hpos.
  pose proof (di_bit _ _ _ _ _ Hd1) as Hbit.
  pose proof (di_buflen _ _ _ _ _ Hd1) as Hbl.
  rewrite Hsl in Hpos.
  assert (HbyteP : D.m_bytePos d1 = Z.of_nat (length pre)) by lia.
  assert (HbitP : D.m_bitPos d1 = k) by lia.
  assert (Htake : take (length pre) (D.m_outBuf d1) = pre).
  { destruct (di_buf _ _ _ _ _ Hd1) as [->|(p & done & cur & Hp & Hlay & Hcur & Hmod & Hval)].
    - simpl in Hsl. subst m. destruct pre; [reflexivity|simpl in Hmk; lia].
    - assert (p = length pre) by lia. subst p.
      pose proof (layout_take _ _ _ _ _ Hlay) as Ht.
      apply syms_inj. rewrite <- take_syms, Ht.
      apply (val_inj 8); [lia| | |apply syms_range|].
      + destruct Hlay as (_ & Hdl & _). unfold syms. rewrite length_fmap. exact Hdl.
      + rewrite <- Ht. apply Forall_take, syms_range.
      + rewrite HbitP, Hv in Hval.
        apply (shifted_eq _ _ (cur / 2 ^ (8 - k)) k); [lia| |exact Hval].
        split; [apply Z.div_pos; [lia|apply Z.pow_pos_nonneg; lia]|].
        apply Z.div_lt_upper_bound; [apply Z.pow_pos_nonneg; lia|].
        rewrite <- Z.pow_add_r by lia. replace (8 - k + k) with 8 by lia.
        change (2 ^ 8) with 256. lia. }
  exists (D.set_cursor d1 0 0 (D.m_outBuf d1)),
    [mkOutput 2 pre me'].
  split; [reflexivity|]. split; [|unfold emitted; simpl; apply app_nil_r].
  unfold D.Put2. rewrite dec_put_loop_app, Ha, Hdl1, bind_Ok. cbn beta iota.
  rewrite dec_ignored_loop.
  - rewrite !bind_Ok. cbn beta iota.
    destruct (Z.eqb_spec me' 0) as [|_]; [contradiction|].
    unfold D.put_end. rewrite HbyteP, prefix_of_ok by lia.
    rewrite Htake, !bind_Ok. reflexivity.
  - destruct (negb (E.m_padding e =? -1) && (0 <? Z.of_nat m)) eqn:Ep;
      [|constructor].
    apply andb_true_iff in Ep as [Ep _]. apply negb_true_iff, Z.eqb_neq in Ep.
    apply Forall_replicate. exists (-1). rewrite Hl1. split; [auto|].
    now vm_compute.
Qed.
End Lockstep.

(** C3: for every [b] in [1,7] and every alphabet of [2^b] distinct bytes,
    the decoding lookup array can be built, and for every byte string [s]
    the encoder's complete output for [s] (one [Put2] with the message-end
    flag), fed to a decoder whose lookup array was built from the same
    alphabet and ignores the padding byte, decodes to exactly [s].  The
    padding byte and the [Pad] flag are arbitrary; both calls succeed. *)
Theorem roundtrip (b : Z) (alphabet : list byte) :
  1 <= b <= 7 -> Z.of_nat (length alphabet) = 2 ^ b -> NoDup alphabet ->
  (exists lookup,
     D.InitializeDecodingLookupArray alphabet (2 ^ b) false = Ok lookup) /\
  forall caseInsensitive lookup pad padflag me me' s,
    D.InitializeDecodingLookupArray alphabet (2 ^ b) caseInsensitive
    = Ok lookup ->
    (forall p, pad = Some p -> rd lookup (byte_to_Z p) = Ok (-1)) ->
    me <> 0 -> me' <> 0 ->
    exists e d e' outs d' outs',
      E.IsolatedInitialize (E.mkParams (Some alphabet) (Some b) pad padflag)
      = Ok e /\
      D.IsolatedInitialize (D.mkParams (Some lookup) (Some b)) = Ok d /\
      E.Put2 e s me = Ok (e', outs) /\
      D.Put2 d (emitted outs) me' = Ok (d', outs') /\
      emitted outs' = s.
Proof.
  intros Hb Hlen Hnd. pose proof (pow2_le_128 b Hb) as Hp2.
  split; [apply lookup_exists; [exact Hnd|lia]|].
  intros ci lookup pad padflag me me' s Hlk Hpad Hme Hme'.
  destruct (lookup_built alphabet (2 ^ b) ci lookup ltac:(lia) Hlk) as [Hll Hlook].
  destruct (enc_init b alphabet pad padflag Hb ltac:(lia))
    as (e & Hei & He & Ha & Hp).
  destruct (dec_init b lookup Hb) as (d & Hdi & Hd & Hl).
  destruct (lockstep b alphabet lookup Hb Hlook s e d [] He Ha Hd Hl)
    as (e1 & outs & d1 & outs1 & pre & Hel & Hdl & He1 & Ha1 & Hp1 & Hd1 & Hl1 & Hs).
  destruct (lockstep_end b alphabet lookup Hb Hlook e1 d1 pre me me'
              He1 Ha1 Hd1 Hl1) as (e2 & data & d2 & outs2 & Hpe & Hd2 & Hem); auto.
  { rewrite Hp1, Hp. intros Hne. destruct pad as [p|]; [|contradiction].
    destruct (default true padflag); [|contradiction].
    rewrite Z_to_byte_to_Z. apply Hpad. reflexivity. }
  unfold D.Put2 in Hd2.
  destruct (D.put_loop d1 data) as [[d3 o3]| |] eqn:Hd3; try discriminate.
  rewrite bind_Ok in Hd2. cbn beta iota in Hd2.
  destruct (Z.eqb_spec me' 0) as [|_]; [contradiction|].
  destruct (D.put_end d3 me') as [[d4 o4]| |] eqn:Hd4; try discriminate.
  rewrite bind_Ok in Hd2. cbn beta iota in Hd2. injection Hd2 as <- <-.
  exists e, d, e2, (outs ++ [mkOutput 2 data me]), d4, (outs1 ++ o3 ++ o4).
  split; [exact Hei|]. split; [exact Hdi|]. split.
  { unfold E.Put2. rewrite Hel, bind_Ok. cbn beta iota.
    destruct (Z.eqb_spec me 0) as [|_]; [contradiction|].
    rewrite Hpe, bind_Ok. reflexivity. }
  split.
  { unfold D.Put2. rewrite emitted_app, dec_put_loop_app, Hdl, bind_Ok.
    cbn beta iota. unfold emitted at 1. simpl. rewrite app_nil_r.
    rewrite Hd3, !bind_Ok. cbn beta iota.
    destruct (Z.eqb_spec me' 0) as [|_]; [contradiction|].
    rewrite Hd4, bind_Ok. cbn beta iota. rewrite app_assoc. reflexivity. }
  rewrite !emitted_app. rewrite emitted_app in Hem. simpl in Hs. rewrite Hs, Hem.
  reflexivity.
Qed.

(** ** The grouper *)

(** The grouper one byte at a time: the bytes handed downstream for the
    input [s] when the counter is [c], and the counter afterwards. *)
Fixpoint grouped (g : Z) (sep : list byte) (c : Z) (s : list byte)
  : list byte * Z :=
  match s with
  | [] => ([], c)
  | x :: s =>
      let c0 := if c =? g then 0 else c in
      let r := grouped g sep (c0 + 1) s in
      ((if c =? g then sep else []) ++ x :: r.1, r.2)
  end.

Lemma grouped_app g sep c a b :
  grouped g sep c (a ++ b)
  = ((grouped g sep c a).1 ++ (grouped g sep (grouped g sep c a).2 b).1,
     (grouped g sep (grouped g sep c a).2 b).2).
Proof.
  revert c. induction a as [|x a IH]; intros c; simpl.
  - destruct (grouped g sep c b); reflexivity.
  - rewrite IH. simpl. rewrite <- app_assoc. reflexivity.
Qed.

(** A run of bytes that fits in the current group is forwarded as it is. *)
Lemma grouped_run g sep c x :
  0 <= c -> c + Z.of_nat (length x) <= g ->
  grouped g sep c x = (x, c + Z.of_nat (length x)).
Proof.
  revert c. induction x as [|b x IH]; intros c Hc Hle; simpl.
  - f_equal. lia.
  - simpl length in Hle. destruct (Z.eqb_spec c g); [lia|].
    rewrite IH by lia. simpl. f_equal. lia.
Qed.

Lemma prefix_of_Z buf n :
  0 <= n <= Z.of_nat (length buf) -> prefix_of buf n = Ok (take (Z.to_nat n) buf).
Proof.
  intros H. unfold prefix_of.
  destruct (Z.leb_spec 0 n); [|lia].
  destruct (Z.leb_spec n (Z.of_nat (length buf))); [|lia]. reflexivity.
Qed.

Definition wf (st : G.t) : Prop :=
  0 <= G.m_counter st <= G.m_groupSize st /\ 0 < G.m_groupSize st < 2 ^ 32.

Lemma put_loop_grouped fuel :
  forall st s,
    wf st -> (length s <= fuel)%nat ->
    exists st' outs,
      G.put_loop fuel st s = Ok (st', outs) /\
      emitted outs = (grouped (G.m_groupSize st) (G.m_separator st)
                        (G.m_counter st) s).1 /\
      st' = G.set_counter st
              (grouped (G.m_groupSize st) (G.m_separator st)
                 (G.m_counter st) s).2 /\
      wf st'.
Proof.
  induction fuel as [|fuel IH]; intros st s Hwf Hlen.
  - destruct s; [|simpl in Hlen; lia].
    exists st, []. simpl. split_and!; auto. destruct st; reflexivity.
  - destruct s as [|x s].
    { exists st, []. simpl. split_and!; auto. destruct st; reflexivity. }
    destruct Hwf as [Hc Hg].
    set (g := G.m_groupSize st) in *. set (sep := G.m_separator st).
    set (c0 := if G.m_counter st =? g then 0 else G.m_counter st).
    assert (Hc0 : 0 <= c0 < g) by (subst c0; destruct (Z.eqb_spec (G.m_counter st) g); lia).
    set (inp := x :: s) in *.
    set (len := Z.min (Z.of_nat (length inp)) (to_unsigned (g - c0))).
    assert (Hgap : to_unsigned (g - c0) = g - c0) by (apply to_unsigned_small; lia).
    assert (Hlen1 : 1 <= len <= Z.of_nat (length inp) /\ len <= g - c0).
    { subst len. rewrite Hgap. subst inp. simpl length. lia. }
    assert (Hstep : G.put_loop (S fuel) st inp
              = (data ← prefix_of inp len;
                 '(g', out2) ← G.put_loop fuel
                                 (G.set_counter st (to_unsigned (c0 + len)))
                                 (drop (Z.to_nat len) inp);
                 Ok (g', (if G.m_counter st =? g
                          then [mkOutput 1 sep 0] else [])
                         ++ mkOutput 2 data 0 :: out2))).
    { subst inp. simpl G.put_loop. fold g. subst c0 len.
      destruct (G.m_counter st =? g); reflexivity. }
    rewrite Hstep. clear Hstep.
    rewrite prefix_of_Z by lia. rewrite bind_Ok.
    rewrite (to_unsigned_small (c0 + len)) by lia.
    destruct (IH (G.set_counter st (c0 + len)) (drop (Z.to_nat len) inp))
      as (st' & outs & Hpl & Hem & Hst & Hwf').
    { split; simpl; lia. }
    { rewrite length_drop. subst inp. simpl length in *. lia. }
    rewrite Hpl, bind_Ok. cbn beta iota.
    eexists _, _. split; [reflexivity|].
    simpl G.m_groupSize in *. simpl G.m_separator in *. simpl G.m_counter in *.
    fold g sep in Hem, Hst.
    assert (Hsplit : grouped g sep (G.m_counter st) inp
              = ((if G.m_counter st =? g then sep else [])
                 ++ take (Z.to_nat len) inp
                 ++ (grouped g sep (c0 + len) (drop (Z.to_nat len) inp)).1,
                 (grouped g sep (c0 + len) (drop (Z.to_nat len) inp)).2)).
    { destruct (Z.to_nat len) as [|n'] eqn:En; [lia|].
      subst inp. cbn [take drop grouped]. fold c0.
      pose proof (grouped_app g sep (c0 + 1) (take n' s) (drop n' s)) as Ha.
      rewrite take_drop in Ha. rewrite Ha.
      rewrite (grouped_run g sep (c0 + 1))
        by (rewrite ?length_take; simpl length in *; lia).
      cbn [fst snd].
      replace (c0 + 1 + Z.of_nat (length (take n' s))) with (c0 + len)
        by (rewrite length_take; simpl length in *; lia).
      reflexivity. }
    rewrite Hsplit. simpl fst. simpl snd.
    split_and!; auto.
    + rewrite emitted_app.
      change (emitted (?o :: ?os)) with (out_data o ++ emitted os).
      cbn [out_data]. rewrite Hem.
      destruct (G.m_counter st =? g); [|reflexivity].
      unfold emitted at 1. simpl. rewrite app_nil_r. reflexivity.
Qed.

Fixpoint join (sep : list byte) (gs : list (list byte)) : list byte :=
  match gs with
  | [] => []
  | x :: rest =>
      match rest with
      | [] => x
      | _ :: _ => x ++ sep ++ join sep rest
      end
  end.

Lemma grouped_full g sep rest :
  0 < g -> rest <> [] ->
  grouped g sep g rest
  = (sep ++ (grouped g sep 0 rest).1, (grouped g sep 0 rest).2).
Proof.
  intros Hg Hne. destruct rest as [|y r]; [contradiction|].
  cbn [grouped fst snd]. rewrite Z.eqb_refl.
  replace (0 =? g) with false by (symmetry; apply Z.eqb_neq; lia).
  reflexivity.
Qed.

Lemma grouped_groups g sep gs last :
  0 < g -> Forall (fun x => Z.of_nat (length x) = g) gs ->
  0 < Z.of_nat (length last) <= g ->
  grouped g sep 0 (concat gs ++ last)
  = (join sep (gs ++ [last]), Z.of_nat (length last)).
Proof.
  intros Hg Hgs Hlast. induction Hgs as [|x gs Hx Hgs IH]; simpl.
  - rewrite grouped_run by lia. reflexivity.
  - rewrite <- app_assoc, grouped_app, (grouped_run g sep 0 x) by lia.
    cbn [fst snd]. rewrite Z.add_0_l, Hx.
    rewrite grouped_full; [|lia|destruct last; [simpl in Hlast; lia|];
                                 destruct (concat gs); discriminate].
    rewrite IH. cbn [fst snd].
    destruct (gs ++ [last]) eqn:E; [destruct gs; discriminate|reflexivity].
Qed.

Definition wf_state (st : G.t) : Prop :=
  0 <= G.m_counter st <= G.m_groupSize st /\ G.m_groupSize st < 2 ^ 32.

Lemma grouper_put2 st s me :
  wf_state st ->
  exists st' outs,
    G.Put2 st s me = Ok (st', outs) /\ wf_state st' /\
    G.m_groupSize st' = G.m_groupSize st /\
    G.m_separator st' = G.m_separator st /\
    G.m_terminator st' = G.m_terminator st /\
    (if G.m_groupSize st =? 0 then
       emitted outs = s ++ (if me =? 0 then [] else G.m_terminator st) /\
       G.m_counter st' = 0
     else
       emitted outs
       = (grouped (G.m_groupSize st) (G.m_separator st) (G.m_counter st) s).1
         ++ (if me =? 0 then [] else G.m_terminator st) /\
       G.m_counter st'
       = if me =? 0
         then (grouped (G.m_groupSize st) (G.m_separator st)
                 (G.m_counter st) s).2
         else 0).
Proof.
  intros [Hc Hg]. unfold G.Put2.
  destruct (Z.eqb_spec (G.m_groupSize st) 0) as [E0|Hne].
  - rewrite bind_Ok. cbn beta iota.
    destruct (Z.eqb_spec me 0).
    + eexists _, _. split; [reflexivity|]. unfold wf_state, emitted. simpl.
      rewrite !app_nil_r. split_and!; auto; lia.
    + eexists _, _. split; [reflexivity|]. unfold wf_state, emitted. simpl.
      rewrite !app_nil_r. split_and!; auto; lia.
  - destruct (put_loop_grouped (length s) st s ltac:(split; lia) ltac:(lia))
      as (st1 & outs & Hpl & Hem & Hst & Hwf1).
    rewrite Hpl, bind_Ok. cbn beta iota.
    destruct Hwf1 as [Hc1 Hg1].
    destruct (Z.eqb_spec me 0).
    + eexists _, _. split; [reflexivity|]. rewrite app_nil_r.
      subst st1. unfold wf_state in *. simpl in *. split_and!; auto; lia.
    + eexists _, _. split; [reflexivity|]. rewrite emitted_app.
      subst st1. unfold wf_state, emitted in *. simpl in *.
      rewrite !app_nil_r. split_and!; auto; try lia. rewrite Hem. reflexivity.
Qed.

(** ** Initialisation, padding, ignored characters, chunking *)

Lemma enc_loop_ok bpc Bn K s :
  1 <= bpc <= 7 -> Z.of_nat Bn * bpc = 8 * K ->
  forall e pre,
    enc_inv bpc Bn K e pre ->
    exists e' outs pre',
      E.put_loop e s = Ok (e', outs) /\ enc_inv bpc Bn K e' pre' /\
      E.m_alphabet e' = E.m_alphabet e /\ E.m_padding e' = E.m_padding e.
Proof.
  intros Hbpc HBK. induction s as [|c s IH]; intros e pre He.
  - exists e, [], pre. simpl. auto.
  - destruct (put_byte_ok bpc Bn K e pre c Hbpc HBK He)
      as (e1 & o1 & Hpb & Ha1 & Hp1 & Hcase).
    assert (exists pre1, enc_inv bpc Bn K e1 pre1) as [pre1 He1]
      by (destruct Hcase as [(_ & _ & H)|(_ & H & _)]; eauto).
    destruct (IH e1 pre1 He1) as (e' & outs & pre' & Hpl & He' & Ha' & Hp').
    simpl E.put_loop. rewrite Hpb, bind_Ok. cbn beta iota.
    rewrite Hpl, bind_Ok. cbn beta iota.
    eexists _, _, pre'. split; [reflexivity|]. split_and!; auto; congruence.
Qed.

Lemma enc_Put2_ok bpc Bn K s me :
  1 <= bpc <= 7 -> Z.of_nat Bn * bpc = 8 * K ->
  forall e pre,
    enc_inv bpc Bn K e pre ->
    exists e' outs pre',
      E.Put2 e s me = Ok (e', outs) /\ enc_inv bpc Bn K e' pre'.
Proof.
  intros Hbpc HBK e pre He.
  destruct (enc_loop_ok bpc Bn K s Hbpc HBK e pre He)
    as (e1 & o1 & pre1 & Hpl & He1 & _).
  unfold E.Put2. rewrite Hpl, bind_Ok. cbn beta iota.
  destruct (me =? 0); [eauto|].
  destruct (put_end_ok bpc Bn K e1 pre1 me Hbpc HBK He1)
    as (e2 & m & sy & k & Hpe & He2 & _).
  rewrite Hpe, bind_Ok. cbn beta iota. eauto.
Qed.

(** A sequence of [Put2] calls on one encoder. *)
Fixpoint put_all (e : E.t) (calls : list (list byte * Z))
  : result (E.t * list Output) :=
  match calls with
  | [] => Ok (e, [])
  | (input, messageEnd) :: calls =>
      '(e1, out1) ← E.Put2 e input messageEnd;
      '(e2, out2) ← put_all e1 calls;
      Ok (e2, out1 ++ out2)
  end.

Lemma put_all_ok bpc Bn K calls :
  1 <= bpc <= 7 -> Z.of_nat Bn * bpc = 8 * K ->
  forall e pre,
    enc_inv bpc Bn K e pre -> exists r, put_all e calls = Ok r.
Proof.
  intros Hbpc HBK. induction calls as [|[input me] calls IH]; intros e pre He.
  - eexists. reflexivity.
  - destruct (enc_Put2_ok bpc Bn K input me Hbpc HBK e pre He)
      as (e1 & o1 & pre1 & Hp & He1).
    destruct (IH e1 pre1 He1) as [[e2 o2] Hr].
    simpl. rewrite Hp, bind_Ok. cbn beta iota. rewrite Hr, bind_Ok.
    eexists. reflexivity.
Qed.

(** C8: [IsolatedInitialize] throws [InvalidArgument] when [Log2Base] is
    outside [1,7] and when [EncodingLookupArray] is missing; when the
    alphabet is present with at least [2^Log2Base] entries and [Log2Base] is
    in [1,7] it succeeds, and every later sequence of [Put2] calls
    succeeds. *)
Theorem encoder_initialize_errors :
  (forall p b, E.Log2Base p = Some b -> ~ 1 <= b <= 7 ->
     exists what, E.IsolatedInitialize p = Throw (InvalidArgument what)) /\
  (forall p, E.EncodingLookupArray p = None ->
     exists what, E.IsolatedInitialize p = Throw (InvalidArgument what)) /\
  (forall p alphabet b,
     E.EncodingLookupArray p = Some alphabet -> E.Log2Base p = Some b ->
     1 <= b <= 7 -> 2 ^ b <= Z.of_nat (length alphabet) ->
     exists e, E.IsolatedInitialize p = Ok e /\
       forall calls, exists r, put_all e calls = Ok r).
Proof.
  split; [|split].
  - intros [al lb pb pf] b Hb Hr. simpl in Hb. subst lb.
    unfold E.IsolatedInitialize, GetRequiredParameter.
    cbn [E.EncodingLookupArray E.Log2Base].
    destruct al; [|eexists; reflexivity]. rewrite !bind_Ok.
    destruct (Z.leb_spec b 0); [eexists; reflexivity|].
    destruct (Z.leb_spec 8 b); [eexists; reflexivity|]. lia.
  - intros [al lb pb pf] Ha. simpl in Ha. subst al. eexists. reflexivity.
  - intros [al lb pb pf] alphabet b Ha Hl Hb Hal. simpl in Ha, Hl. subst al lb.
    destruct (enc_init b alphabet pb pf Hb Hal) as (e & Hi & He & _).
    exists e. split; [exact Hi|]. intros calls.
    destruct (block_sizes b Hb) as (HBK & _).
    apply (put_all_ok b _ _ calls Hb HBK e [] He).
Qed.

(** *** Inversion: configuration fields never change *)

Ltac inv_bind H :=
  repeat match type of H with
         | (_ ≫= _) = Ok _ =>
             let x := fresh "x" in let Hx := fresh "Hx" in
             apply bind_Ok_inv in H as (x & Hx & H)
         | (let '(_, _) := ?p in _) = Ok _ => destruct p
         | (if ?c then _ else _) = Ok _ => destruct c
         end.

Lemma enc_put_bits_config fuel :
  forall e b bls e',
    E.put_bits fuel e b bls = Ok e' ->
    E.m_padding e' = E.m_padding e /\ E.m_alphabet e' = E.m_alphabet e.
Proof.
  induction fuel as [|fuel IH]; intros e b bls e' H; [discriminate|].
  simpl in H. inv_bind H.
  - injection H as <-. auto.
  - apply IH in H. simpl in H. exact H.
  - injection H as <-. auto.
Qed.

Lemma enc_put_byte_config e c e' out :
  E.put_byte e c = Ok (e', out) ->
  E.m_padding e' = E.m_padding e /\ E.m_alphabet e' = E.m_alphabet e.
Proof.
  unfold E.put_byte. intros H. inv_bind H;
    match goal with
    | Hb : E.put_bits _ _ _ _ = Ok _ |- _ =>
        apply enc_put_bits_config in Hb; simpl in Hb
    end; injection H as <- <-; simpl; auto.
Qed.

Lemma enc_put_loop_config s :
  forall e e' out,
    E.put_loop e s = Ok (e', out) ->
    E.m_padding e' = E.m_padding e /\ E.m_alphabet e' = E.m_alphabet e.
Proof.
  induction s as [|c s IH]; intros e e' out H; simpl in H.
  - injection H as <- <-. auto.
  - inv_bind H. injection H as <- <-.
    match goal with
    | H1 : E.put_byte _ _ = Ok _, H2 : E.put_loop _ _ = Ok _ |- _ =>
        apply enc_put_byte_config in H1; apply IH in H2;
        destruct H1, H2; split; congruence
    end.
Qed.

Lemma prefix_of_length buf n data :
  prefix_of buf n = Ok data -> Z.of_nat (length data) = n.
Proof.
  unfold prefix_of. destruct (Z.leb_spec 0 n); [|discriminate].
  destruct (Z.leb_spec n (Z.of_nat (length buf))); [|discriminate].
  simpl. intros E. injection E as <-. rewrite length_take. lia.
Qed.

(** Without a padding byte the final block is the buffered symbols only. *)
Lemma enc_put_end_unpadded e me e' outs :
  E.m_padding e = -1 -> E.put_end e me = Ok (e', outs) ->
  exists data, outs = [mkOutput 2 data me] /\
    Z.of_nat (length data)
    = (if 0 <? E.m_bitPos e then E.m_bytePos e + 1 else E.m_bytePos e).
Proof.
  intros Hp H. unfold E.put_end in H. rewrite Hp in H. simpl negb in H.
  cbn [andb] in H. cbv iota in H.
  apply bind_Ok_inv in H as (buf & Hb & H). rewrite bind_Ok in H.
  cbn beta iota in H.
  apply bind_Ok_inv in H as (data & Hd & H). injection H as <- <-.
  exists data. split; [reflexivity|]. apply (prefix_of_length _ _ _ Hd).
Qed.

(** C9: without a [PaddingByte] parameter the [Pad] parameter is not
    consulted: initialisation gives the same result whatever [Pad] is, the
    padding is disabled ([m_padding = -1]), and the block flushed at the end
    of a message holds exactly the pending symbols, never a padded block. *)
Theorem padding_requires_padding_byte alphabet log2base pad_flag :
  E.IsolatedInitialize (E.mkParams alphabet log2base None pad_flag)
  = E.IsolatedInitialize (E.mkParams alphabet log2base None None) /\
  forall e,
    E.IsolatedInitialize (E.mkParams alphabet log2base None pad_flag) = Ok e ->
    E.m_padding e = -1 /\
    forall s me e1 out1 e2 out2,
      E.put_loop e s = Ok (e1, out1) -> E.put_end e1 me = Ok (e2, out2) ->
      exists data, out2 = [mkOutput 2 data me] /\
        Z.of_nat (length data)
        = (if 0 <? E.m_bitPos e1 then E.m_bytePos e1 + 1 else E.m_bytePos e1).
Proof.
  split; [reflexivity|]. intros e H.
  assert (Hp : E.m_padding e = -1).
  { unfold E.IsolatedInitialize in H.
    cbn [E.EncodingLookupArray E.Log2Base E.PaddingByte E.Pad] in H.
    inv_bind H; try discriminate. injection H as <-. reflexivity. }
  split; [exact Hp|]. intros s me e1 out1 e2 out2 Hl He.
  apply enc_put_loop_config in Hl as [Hp1 _].
  apply (enc_put_end_unpadded e1 me e2 out2); congruence.
Qed.

Definition base64_encode (s : string) : result (list byte) :=
  e ← E.IsolatedInitialize
         (E.mkParams (Some base64_alphabet) (Some 6) (Some "="%byte) None);
  '(_, out) ← E.Put2 e (bytes_of_string s) (-1);
  Ok (emitted out).

(** C5: at the end of a message, after the partial symbol (if any) has been
    finalised, the encoder flushes one block.  With padding enabled and
    [byte_pos > 0] the block holds the [byte_pos] translated symbols followed
    by the padding byte up to [block_size], [block_size] characters in all;
    otherwise it holds exactly the [byte_pos] symbols.  Base64 of "Ma" is
    "TWE=" and of "M" is "TQ==". *)
Theorem end_of_message_flush :
  (forall b alphabet pad pad_flag s me,
     1 <= b <= 7 -> 2 ^ b <= Z.of_nat (length alphabet) ->
     exists e0 e1 outs e2 data,
       E.IsolatedInitialize (E.mkParams (Some alphabet) (Some b) pad pad_flag)
       = Ok e0 /\
       E.put_loop e0 s = Ok (e1, outs) /\
       E.put_end e1 me = Ok (e2, [mkOutput 2 data me]) /\
       E.m_bytePos e2 = 0 /\ E.m_bitPos e2 = 0 /\
       let byte_pos :=
         if 0 <? E.m_bitPos e1 then E.m_bytePos e1 + 1 else E.m_bytePos e1 in
       let block_size := E.m_outputBlockSize e1 in
       let chars :=
         alph alphabet <$> take (Z.to_nat byte_pos) (syms (E.m_outBuf e1)) in
       0 <= byte_pos <= block_size /\
       if negb (E.m_padding e1 =? -1) && (0 <? byte_pos)
       then data = chars ++ replicate (Z.to_nat (block_size - byte_pos))
                              (Z_to_byte (E.m_padding e1)) /\
            Z.of_nat (length data) = block_size
       else data = chars /\ Z.of_nat (length data) = byte_pos) /\
  base64_encode "Ma" = Ok (bytes_of_string "TWE=") /\
  base64_encode "M" = Ok (bytes_of_string "TQ==").
Proof.
  split; [|split; reflexivity].
  intros b alphabet pad pad_flag s me Hb Hal.
  destruct (block_sizes b Hb) as (HBK & _).
  destruct (enc_init b alphabet pad pad_flag Hb Hal) as (e0 & Hi & He0 & Ha0 & _).
  destruct (enc_loop_ok b _ _ s Hb HBK e0 [] He0)
    as (e1 & outs & pre & Hl & He1 & Ha1 & _).
  destruct (put_end_ok b _ _ e1 pre me Hb HBK He1)
    as (e2 & m & sy & k & Hpe & He2 & _ & _ & Hm & HmB & Hsy & Hsl & _).
  exists e0, e1, outs, e2. eexists. split; [exact Hi|]. split; [exact Hl|].
  split; [exact Hpe|].
  pose proof (ei_pos _ _ _ _ _ He2) as Hpos2.
  pose proof (ei_bit _ _ _ _ _ He2) as Hbit2.
  pose proof (ei_byte _ _ _ _ _ He2) as Hbyte2.
  simpl length in Hpos2.
  assert (E.m_bytePos e2 * b = 0 /\ E.m_bitPos e2 = 0) as [Hz1 Hz2].
  { assert (0 <= E.m_bytePos e2 * b) by (apply Z.mul_nonneg_nonneg; lia). lia. }
  apply Z.mul_eq_0 in Hz1. split; [lia|]. split; [exact Hz2|].
  cbv zeta. rewrite <- Hm, Nat2Z.id, (ei_B _ _ _ _ _ He1), <- Hsy.
  rewrite Ha1, Ha0. split; [lia|].
  destruct (negb (E.m_padding e1 =? -1) && (0 <? Z.of_nat m)).
  - replace (Z.to_nat (Z.of_nat (block_chars b) - Z.of_nat m))
      with (block_chars b - m)%nat by lia.
    split; [reflexivity|].
    rewrite length_app, length_fmap, Hsl, length_replicate. lia.
  - rewrite app_nil_r. split; [reflexivity|]. rewrite length_fmap. lia.
Qed.

(** *** The decoder skips ignored characters *)

Definition ignored (lookup : list Z) (c : byte) : Prop :=
  exists entry, rd lookup (byte_to_Z c) = Ok entry /\ 256 <= to_unsigned entry.

Lemma dec_put_byte_lookup d c d' out :
  D.put_byte d c = Ok (d', out) -> D.m_lookup d' = D.m_lookup d.
Proof.
  unfold D.put_byte. intros H. inv_bind H; injection H as <- <-; reflexivity.
Qed.

Lemma dec_put_loop_lookup s :
  forall d d' out, D.put_loop d s = Ok (d', out) -> D.m_lookup d' = D.m_lookup d.
Proof.
  induction s as [|c s IH]; intros d d' out H; simpl in H.
  - injection H as <- <-. reflexivity.
  - inv_bind H. injection H as <- <-.
    match goal with
    | H1 : D.put_byte _ _ = Ok _, H2 : D.put_loop _ _ = Ok _ |- _ =>
        apply dec_put_byte_lookup in H1; apply IH in H2; congruence
    end.
Qed.

(** C6: a character whose lookup entry is the ignore sentinel ([-1], or any
    entry of at least 256 once converted to [unsigned]) leaves the decoder
    as it was and emits nothing; hence a run of ignored characters inserted
    anywhere into an input changes neither the output nor the final state
    of [Put2]. *)
Theorem decoder_ignores_characters :
  (forall d c, ignored (D.m_lookup d) c -> D.put_byte d c = Ok (d, [])) /\
  (forall lookup c, rd lookup (byte_to_Z c) = Ok (-1) -> ignored lookup c) /\
  (forall d a ign b me,
     Forall (ignored (D.m_lookup d)) ign ->
     D.Put2 d (a ++ ign ++ b) me = D.Put2 d (a ++ b) me).
Proof.
  split; [|split].
  - intros d c (entry & Hrd & Hi). apply (dec_ignore _ _ _ Hrd Hi).
  - intros lookup c H. exists (-1). split; [exact H|now vm_compute].
  - intros d a ign b me Hign. unfold D.Put2.
    rewrite !dec_put_loop_app.
    destruct (D.put_loop d a) as [[d1 o1]| |] eqn:Ha; try reflexivity.
    rewrite !bind_Ok. cbn beta iota.
    rewrite dec_put_loop_app.
    rewrite (dec_ignored_loop d1 ign).
    + rewrite bind_Ok. cbn beta iota.
      destruct (D.put_loop d1 b) as [[d2 o2]| |]; reflexivity.
    + rewrite (dec_put_loop_lookup _ _ _ _ Ha). exact Hign.
Qed.

(** *** Chunking *)

(** The state reached and the bytes handed downstream by two calls, the
    first one without end of message, and by one call. *)
Definition in_two_calls {S} (Put2 : S -> list byte -> Z -> result (S * list Output))
    (st : S) (a b : list byte) (messageEnd : Z) : result (S * list byte) :=
  '(st1, out1) ← Put2 st a 0;
  '(st2, out2) ← Put2 st1 b messageEnd;
  Ok (st2, emitted out1 ++ emitted out2).

Definition in_one_call {S} (Put2 : S -> list byte -> Z -> result (S * list Output))
    (st : S) (s : list byte) (messageEnd : Z) : result (S * list byte) :=
  '(st', out) ← Put2 st s messageEnd;
  Ok (st', emitted out).

Lemma grouper_eta (st : G.t) sep term g c :
  G.m_separator st = sep -> G.m_terminator st = term ->
  G.m_groupSize st = g -> G.m_counter st = c -> st = G.mk sep term g c.
Proof. destruct st. simpl. congruence. Qed.

(** C10: for the encoder, the decoder and the grouper, and from any starting
    state (for the grouper: one whose counter does not exceed the group
    size), [Put2] of [a] without the message-end flag followed by [Put2] of
    [b] with flag [me] sends the same bytes downstream, and ends in the same
    state, as one [Put2] of [a ++ b] with flag [me]. *)
Theorem chunking_invariance :
  (forall e a b me,
     in_two_calls E.Put2 e a b me = in_one_call E.Put2 e (a ++ b) me) /\
  (forall d a b me,
     in_two_calls D.Put2 d a b me = in_one_call D.Put2 d (a ++ b) me) /\
  (forall g a b me,
     wf_state g ->
     in_two_calls G.Put2 g a b me = in_one_call G.Put2 g (a ++ b) me).
Proof.
  split; [|split].
  - intros e a b me. unfold in_two_calls, in_one_call, E.Put2.
    rewrite enc_put_loop_app. simpl (0 =? 0).
    destruct (E.put_loop e a) as [[e1 o1]| |]; try reflexivity.
    rewrite !bind_Ok. cbn beta iota.
    destruct (E.put_loop e1 b) as [[e2 o2]| |]; try reflexivity.
    rewrite !bind_Ok. cbn beta iota.
    destruct (me =? 0); [rewrite !bind_Ok, emitted_app; reflexivity|].
    destruct (E.put_end e2 me) as [[e3 o3]| |]; try reflexivity.
    rewrite !bind_Ok. cbn beta iota. rewrite !emitted_app, app_assoc. reflexivity.
  - intros d a b me. unfold in_two_calls, in_one_call, D.Put2.
    rewrite dec_put_loop_app. simpl (0 =? 0).
    destruct (D.put_loop d a) as [[d1 o1]| |]; try reflexivity.
    rewrite !bind_Ok. cbn beta iota.
    destruct (D.put_loop d1 b) as [[d2 o2]| |]; try reflexivity.
    rewrite !bind_Ok. cbn beta iota.
    destruct (me =? 0); [rewrite !bind_Ok, emitted_app; reflexivity|].
    destruct (D.put_end d2 me) as [[d3 o3]| |]; try reflexivity.
    rewrite !bind_Ok. cbn beta iota. rewrite !emitted_app, app_assoc. reflexivity.
  - intros g a b me Hwf. unfold in_two_calls, in_one_call.
    destruct (grouper_put2 g a 0 Hwf)
      as (g1 & o1 & Hp1 & Hwf1 & Hg1 & Hs1 & Ht1 & H1).
    destruct (grouper_put2 g1 b me Hwf1)
      as (g2 & o2 & Hp2 & Hwf2 & Hg2 & Hs2 & Ht2 & H2).
    destruct (grouper_put2 g (a ++ b) me Hwf)
      as (g3 & o3 & Hp3 & Hwf3 & Hg3 & Hs3 & Ht3 & H3).
    rewrite Hp1, Hp3, !bind_Ok. cbn beta iota. rewrite Hp2, !bind_Ok.
    cbn beta iota.
    rewrite Hg1, Hs1, Ht1 in H2. simpl (0 =? 0) in H1. cbv iota in H1.
    destruct (G.m_groupSize g =? 0).
    + destruct H1 as [E1 C1], H2 as [E2 C2], H3 as [E3 C3].
      rewrite E1, E2, E3, app_nil_r, app_assoc.
      do 2 f_equal.
      rewrite (grouper_eta g2 _ _ _ _ Hs2 Ht2 Hg2 C2).
      rewrite (grouper_eta g3 _ _ _ _ Hs3 Ht3 Hg3 C3).
      congruence.
    + destruct H1 as [E1 C1], H2 as [E2 C2], H3 as [E3 C3].
      rewrite C1 in E2, C2. rewrite grouped_app in E3, C3. cbn [fst snd] in E3, C3.
      rewrite E1, E2, E3, app_nil_r, app_assoc.
      do 2 f_equal.
      rewrite (grouper_eta g2 _ _ _ _ Hs2 Ht2 Hg2 C2).
      rewrite (grouper_eta g3 _ _ _ _ Hs3 Ht3 Hg3 C3).
      congruence.
Qed.

(** The grouping used for hexadecimal and Base64 text: groups of four,
    a blank between groups, a line feed at the end. *)
Definition example_grouper (s : string) : result (list byte) :=
  g ← G.IsolatedInitialize
         (G.mkParams (Some 4) (Some (bytes_of_string " ")) (Some [x0a]));
  '(_, out) ← G.Put2 g (bytes_of_string s) (-1);
  Ok (emitted out).

(** C7: with a group size [g > 0], the output of one [Put2] that ends the
    message is the input cut into groups of [g] bytes (the last one of 1 to
    [g] bytes), joined with the separator, which thus stands exactly once
    between two consecutive groups and neither before the first nor after
    the last, followed by the terminator; the counter is 0 afterwards.  An
    empty message gives the terminator alone.  With [g = 4], separator " "
    and terminator "\n", "TWFuTWFu" gives "TWFu TWFu\n". *)
Theorem grouper_separators :
  (forall g sep term groups last me,
     0 < g < 2 ^ 32 -> me <> 0 ->
     Forall (fun x => Z.of_nat (length x) = g) groups ->
     0 < Z.of_nat (length last) <= g ->
     exists st st' outs,
       G.IsolatedInitialize (G.mkParams (Some g) (Some sep) (Some term))
       = Ok st /\
       G.Put2 st (concat groups ++ last) me = Ok (st', outs) /\
       emitted outs = join sep (groups ++ [last]) ++ term /\
       G.m_counter st' = 0) /\
  (forall g sep term me,
     0 < g < 2 ^ 32 -> me <> 0 ->
     exists st st' outs,
       G.IsolatedInitialize (G.mkParams (Some g) (Some sep) (Some term))
       = Ok st /\
       G.Put2 st [] me = Ok (st', outs) /\ emitted outs = term /\
       G.m_counter st' = 0) /\
  example_grouper "TWFuTWFu" = Ok (bytes_of_string "TWFu TWFu" ++ [x0a]).
Proof.
  assert (Hinit : forall g sep term, 0 < g < 2 ^ 32 ->
            G.IsolatedInitialize (G.mkParams (Some g) (Some sep) (Some term))
            = Ok (G.mk sep term g 0)).
  { intros g sep term Hg. unfold G.IsolatedInitialize. simpl.
    rewrite (to_unsigned_small g) by lia.
    destruct (Z.eqb_spec g 0); [lia|]. reflexivity. }
  split; [|split; [|reflexivity]].
  - intros g sep term groups last me Hg Hme Hgs Hlast.
    destruct (grouper_put2 (G.mk sep term g 0) (concat groups ++ last) me
                ltac:(split; simpl; lia))
      as (st' & outs & Hp & _ & _ & _ & _ & H).
    simpl in H. destruct (Z.eqb_spec g 0); [lia|].
    destruct (Z.eqb_spec me 0); [contradiction|].
    rewrite grouped_groups in H by (auto; lia). cbn [fst] in H.
    exists (G.mk sep term g 0), st', outs. rewrite Hinit by lia.
    destruct H. split_and!; auto.
  - intros g sep term me Hg Hme.
    destruct (grouper_put2 (G.mk sep term g 0) [] me ltac:(split; simpl; lia))
      as (st' & outs & Hp & _ & _ & _ & _ & H).
    simpl in H. destruct (Z.eqb_spec g 0); [lia|].
    destruct (Z.eqb_spec me 0); [contradiction|].
    exists (G.mk sep term g 0), st', outs. rewrite Hinit by lia.
    destruct H. split_and!; auto.
Qed.

Lemma base64_alphabet_NoDup : NoDup base64_alphabet.
Proof.
  apply (NoDup_fmap_1 byte_to_Z). apply (bool_decide_unpack _).
  vm_compute. exact I.
Qed.

Lemma roundtrip_witness :
  exists lookup e d e' outs d' outs',
    D.InitializeDecodingLookupArray base64_alphabet (2 ^ 6) false = Ok lookup /\
    E.IsolatedInitialize
      (E.mkParams (Some base64_alphabet) (Some 6) (Some "="%byte) None)
    = Ok e /\
    D.IsolatedInitialize (D.mkParams (Some lookup) (Some 6)) = Ok d /\
    E.Put2 e (bytes_of_string "Ma") (-1) = Ok (e', outs) /\
    D.Put2 d (emitted outs) (-1) = Ok (d', outs') /\
    emitted outs' = bytes_of_string "Ma".
Proof.
  destruct (roundtrip 6 base64_alphabet ltac:(lia) eq_refl
              base64_alphabet_NoDup) as [[lookup Hl] H].
  destruct (H false lookup (Some "="%byte) None (-1) (-1)
              (bytes_of_string "Ma") Hl)
    as (e & d & e' & outs & d' & outs' & He & Hd & Hp & Hq & Hr);
    [|lia|lia|].
  - intros p Hp. injection Hp as <-. vm_compute in Hl. injection Hl as <-.
    reflexivity.
  - exists lookup, e, d, e', outs, d', outs'. auto 10.
Defined.

Lemma encoder_initialize_errors_witness :
  exists e,
    E.IsolatedInitialize
      (E.mkParams (Some base64_alphabet) (Some 6) (Some "="%byte) None)
    = Ok e /\
    forall calls, exists r, put_all e calls = Ok r.
Proof.
  apply (proj2 (proj2 encoder_initialize_errors) _ base64_alphabet 6);
    [reflexivity | reflexivity | lia | vm_compute; discriminate].
Defined.

Lemma padding_requires_padding_byte_witness :
  exists e,
    E.IsolatedInitialize
      (E.mkParams (Some base64_alphabet) (Some 6) None (Some true)) = Ok e /\
    E.m_padding e = -1.
Proof.
  eexists. split; [vm_compute; reflexivity|].
  apply (proj2 (padding_requires_padding_byte (Some base64_alphabet) (Some 6)
                  (Some true))).
  vm_compute. reflexivity.
Defined.

Lemma end_of_message_flush_witness :
  exists e0 e1 outs e2 data,
    E.IsolatedInitialize
      (E.mkParams (Some base64_alphabet) (Some 6) (Some "="%byte) None)
    = Ok e0 /\
    E.put_loop e0 (bytes_of_string "M") = Ok (e1, outs) /\
    E.put_end e1 (-1) = Ok (e2, [mkOutput 2 data (-1)]).
Proof.
  destruct (proj1 end_of_message_flush 6 base64_alphabet (Some "="%byte) None
              (bytes_of_string "M") (-1) ltac:(lia)
              ltac:(vm_compute; discriminate))
    as (e0 & e1 & outs & e2 & data & H0 & H1 & H2 & _).
  exists e0, e1, outs, e2, data. auto.
Defined.

Lemma decoder_ignores_characters_witness :
  let d := D.mk (replicate 256 (-1)) 6 3 0 0 (replicate 3 x00) in
  D.Put2 d ([] ++ [x0a] ++ []) (-1) = D.Put2 d ([] ++ []) (-1).
Proof.
  apply (proj2 (proj2 decoder_ignores_characters)).
  repeat constructor. exists (-1). split; [reflexivity|].
  vm_compute. discriminate.
Defined.

Lemma grouper_separators_witness :
  exists st st' outs,
    G.IsolatedInitialize
      (G.mkParams (Some 4) (Some (bytes_of_string " ")) (Some [x0a])) = Ok st /\
    G.Put2 st (concat [bytes_of_string "TWFu"] ++ bytes_of_string "TWFu") (-1)
    = Ok (st', outs) /\
    emitted outs
    = join (bytes_of_string " ")
        ([bytes_of_string "TWFu"] ++ [bytes_of_string "TWFu"]) ++ [x0a] /\
    G.m_counter st' = 0.
Proof.
  apply (proj1 grouper_separators 4); [lia | lia | | simpl; lia].
  repeat constructor.
Defined.

Lemma chunking_invariance_witness :
  let g := G.mk (bytes_of_string " ") [x0a] 4 0 in
  in_two_calls G.Put2 g (bytes_of_string "ab") (bytes_of_string "cde") (-1)
  = in_one_call G.Put2 g (bytes_of_string "ab" ++ bytes_of_string "cde") (-1).
Proof.
  apply (proj2 (proj2 chunking_invariance)).
  unfold wf_state. simpl. lia.
Defined.

(** ** Rijndael: words, bytes and the multiplications of GF(2^8) *)

Import Rijndael.

Definition is_word (w : Z) : Prop := 0 <= w < 2 ^ 32.
Definition is_byte (b : Z) : Prop := 0 <= b < 256.


Lemma GETBYTE_lxor a b k :
  GETBYTE (Z.lxor a b) k = Z.lxor (GETBYTE a k) (GETBYTE b k).
Proof.
  unfold GETBYTE, byte_of. rewrite Z.shiftr_lxor.
  apply Z.bits_inj'. intros n Hn.
  rewrite Z.land_spec, !Z.lxor_spec, !Z.land_spec.
  destruct (Z.testbit 255 n); btauto.
Qed.

Lemma GETBYTE_range w k : is_byte (GETBYTE w k).
Proof.
  unfold GETBYTE, byte_of, is_byte. change 255 with (Z.ones 8).
  rewrite Z.land_ones by lia. apply Z.mod_pos_bound. lia.
Qed.

Lemma word_bytes_sum w :
  is_word w ->
  w = GETBYTE w 0 + 256 * GETBYTE w 1 + 65536 * GETBYTE w 2
      + 16777216 * GETBYTE w 3.
Proof.
  unfold is_word, GETBYTE, byte_of. intros H. change 255 with (Z.ones 8).
  rewrite !Z.land_ones, !Z.shiftr_div_pow2 by lia. simpl.
  Z.div_mod_to_equations. lia.
Qed.

Lemma word_ext w w' :
  is_word w -> is_word w' ->
  GETBYTE w 0 = GETBYTE w' 0 -> GETBYTE w 1 = GETBYTE w' 1 ->
  GETBYTE w 2 = GETBYTE w' 2 -> GETBYTE w 3 = GETBYTE w' 3 -> w = w'.
Proof.
  intros H H' E0 E1 E2 E3.
  rewrite (word_bytes_sum w H), (word_bytes_sum w' H'). congruence.
Qed.

(** Exhaustive checks over all byte values. *)
Lemma forall_bytes (P : Z -> bool) :
  forallb P (seqZ 0 256) = true -> forall x, is_byte x -> P x = true.
Proof.
  intros H x Hx. rewrite forallb_forall in H. apply H.
  apply list_elem_of_In, elem_of_seqZ. unfold is_byte in Hx. lia.
Qed.

Lemma idx_in_range (T : list Z) (P : Z -> bool) x :
  forallb P T = true -> P inhabitant = true -> P (idx T x) = true.
Proof.
  intros HT H0. unfold idx. rewrite list_lookup_total_alt.
  destruct (T !! Z.to_nat x) as [v|] eqn:E; simpl; [|exact H0].
  rewrite forallb_forall in HT. apply HT.
  apply list_elem_of_In, (list_elem_of_lookup_2 _ _ _ E).
Qed.

Lemma idx_Se_range x : is_byte (idx Se x).
Proof.
  pose proof (idx_in_range Se (fun y => (0 <=? y) && (y <? 256)) x
                eq_refl eq_refl) as H.
  unfold is_byte. simpl in H. lia.
Qed.

Ltac xor_solve :=
  apply Z.bits_inj'; let n := fresh "n" in let Hn := fresh "Hn" in
  intros n Hn; rewrite ?Z.lxor_spec, ?Z.testbit_0_l; btauto.

Lemma land_pow2 y k :
  0 <= k -> Z.land y (2 ^ k) = if Z.testbit y k then 2 ^ k else 0.
Proof.
  intros Hk. apply Z.bits_inj'. intros n Hn.
  rewrite Z.land_spec, Z.pow2_bits_eqb by lia.
  destruct (Z.eqb_spec k n) as [->|Hne].
  - destruct (Z.testbit y n); simpl.
    + now rewrite Z.pow2_bits_true by lia.
    + now rewrite Z.testbit_0_l.
  - rewrite andb_false_r. destruct (Z.testbit y k).
    + now rewrite Z.pow2_bits_false by lia.
    + now rewrite Z.testbit_0_l.
Qed.

Lemma land_1 y : Z.land y 1 = if Z.testbit y 0 then 1 else 0.
Proof. apply (land_pow2 y 0). lia. Qed.
Lemma land_2 y : Z.land y 2 = if Z.testbit y 1 then 2 else 0.
Proof. apply (land_pow2 y 1). lia. Qed.
Lemma land_4 y : Z.land y 4 = if Z.testbit y 2 then 4 else 0.
Proof. apply (land_pow2 y 2). lia. Qed.

Ltac gf_linear :=
  rewrite ?Z.shiftl_lxor, ?Z.shiftr_lxor, ?land_1, ?land_2, ?land_4,
    ?Z.lxor_spec;
  repeat match goal with
         | |- context [if Z.testbit ?x ?k then _ else _] =>
             destruct (Z.testbit x k)
         end;
  simpl xorb; cbv iota; simpl Z.mul; xor_solve.

Lemma f2_lxor a b : f2 (Z.lxor a b) = Z.lxor (f2 a) (f2 b).
Proof. unfold f2. gf_linear. Qed.
Lemma f4_lxor a b : f4 (Z.lxor a b) = Z.lxor (f4 a) (f4 b).
Proof. unfold f4. gf_linear. Qed.
Lemma f8_lxor a b : f8 (Z.lxor a b) = Z.lxor (f8 a) (f8 b).
Proof. unfold f8. gf_linear. Qed.

Lemma f3_lxor a b : f3 (Z.lxor a b) = Z.lxor (f3 a) (f3 b).
Proof. unfold f3. rewrite f2_lxor. xor_solve. Qed.
Lemma f9_lxor a b : f9 (Z.lxor a b) = Z.lxor (f9 a) (f9 b).
Proof. unfold f9. rewrite f8_lxor. xor_solve. Qed.
Lemma fb_lxor a b : fb (Z.lxor a b) = Z.lxor (fb a) (fb b).
Proof. unfold fb. rewrite f8_lxor, f2_lxor. xor_solve. Qed.
Lemma fd_lxor a b : fd (Z.lxor a b) = Z.lxor (fd a) (fd b).
Proof. unfold fd. rewrite f8_lxor, f4_lxor. xor_solve. Qed.
Lemma fe_lxor a b : fe (Z.lxor a b) = Z.lxor (fe a) (fe b).
Proof. unfold fe. rewrite f8_lxor, f4_lxor, f2_lxor. xor_solve. Qed.

(** ** Rijndael: the tables *)

(** The word with bytes [b0] (least significant) to [b3]. *)
Definition pack (b0 b1 b2 b3 : Z) : Z :=
  Z.lxor (Z.lxor (Z.lxor b0 (Z.shiftl b1 8)) (Z.shiftl b2 16)) (Z.shiftl b3 24).

Definition wsum (b0 b1 b2 b3 : Z) : Z :=
  b0 + 256 * b1 + 65536 * b2 + 16777216 * b3.

Lemma land_shifted a b k :
  0 <= k -> 0 <= a < 2 ^ k -> Z.land a (Z.shiftl b k) = 0.
Proof.
  intros Hk Ha. apply Z.bits_inj'. intros n Hn.
  rewrite Z.land_spec, Z.bits_0.
  destruct (Z_lt_le_dec n k).
  - rewrite (Z.shiftl_spec_low b k n) by lia. apply andb_false_r.
  - rewrite (testbit_high a n k) by lia. reflexivity.
Qed.

Lemma lxor_shifted a b k :
  0 <= k -> 0 <= a < 2 ^ k -> Z.lxor a (Z.shiftl b k) = a + 2 ^ k * b.
Proof.
  intros Hk Ha. rewrite <- Z.add_nocarry_lxor by now apply land_shifted.
  rewrite Z.shiftl_mul_pow2 by lia. lia.
Qed.

Lemma lor_shifted a b k :
  0 <= k -> 0 <= a < 2 ^ k -> Z.lor a (Z.shiftl b k) = a + 2 ^ k * b.
Proof.
  intros Hk Ha. rewrite <- Z.add_nocarry_lor by now apply land_shifted.
  rewrite Z.shiftl_mul_pow2 by lia. lia.
Qed.

Lemma pack_wsum b0 b1 b2 b3 :
  is_byte b0 -> is_byte b1 -> is_byte b2 -> is_byte b3 ->
  pack b0 b1 b2 b3 = wsum b0 b1 b2 b3.
Proof.
  unfold is_byte, pack, wsum. intros H0 H1 H2 H3.
  rewrite (lxor_shifted b0 b1 8) by lia.
  rewrite (lxor_shifted _ b2 16) by (simpl; lia).
  rewrite (lxor_shifted _ b3 24) by (simpl; lia). simpl. lia.
Qed.

Lemma lor_wsum b0 b1 b2 b3 :
  is_byte b0 -> is_byte b1 -> is_byte b2 -> is_byte b3 ->
  Z.lor (Z.lor (Z.lor b0 (Z.shiftl b1 8)) (Z.shiftl b2 16)) (Z.shiftl b3 24)
  = wsum b0 b1 b2 b3.
Proof.
  unfold is_byte, wsum. intros H0 H1 H2 H3.
  rewrite (lor_shifted b0 b1 8) by lia.
  rewrite (lor_shifted _ b2 16) by (simpl; lia).
  rewrite (lor_shifted _ b3 24) by (simpl; lia). simpl. lia.
Qed.

Lemma GETBYTE_wsum b0 b1 b2 b3 :
  is_byte b0 -> is_byte b1 -> is_byte b2 -> is_byte b3 ->
  GETBYTE (wsum b0 b1 b2 b3) 0 = b0 /\ GETBYTE (wsum b0 b1 b2 b3) 1 = b1 /\
  GETBYTE (wsum b0 b1 b2 b3) 2 = b2 /\ GETBYTE (wsum b0 b1 b2 b3) 3 = b3.
Proof.
  unfold is_byte, wsum, GETBYTE, byte_of. intros H0 H1 H2 H3.
  change 255 with (Z.ones 8).
  rewrite !Z.land_ones, !Z.shiftr_div_pow2 by lia. simpl.
  split_and!; Z.div_mod_to_equations; lia.
Qed.

Lemma wsum_word b0 b1 b2 b3 :
  is_byte b0 -> is_byte b1 -> is_byte b2 -> is_byte b3 ->
  is_word (wsum b0 b1 b2 b3).
Proof. unfold is_byte, is_word, wsum. simpl. lia. Qed.

Lemma wsum_GETBYTE w :
  is_word w -> wsum (GETBYTE w 0) (GETBYTE w 1) (GETBYTE w 2) (GETBYTE w 3) = w.
Proof. intros H. symmetry. now apply word_bytes_sum. Qed.

(** Both tables hold words, and the substitution boxes bytes. *)
Lemma idx_Sd_range x : is_byte (idx Sd x).
Proof.
  pose proof (idx_in_range Sd (fun y => (0 <=? y) && (y <? 256)) x
                eq_refl eq_refl) as H.
  unfold is_byte. simpl in H. lia.
Qed.

Lemma idx_Te_range x : is_word (idx Te x).
Proof.
  pose proof (idx_in_range Te (fun y => (0 <=? y) && (y <? 2 ^ 32)) x
                eq_refl eq_refl) as H.
  unfold is_word. simpl in H. lia.
Qed.

Lemma idx_Td_range x : is_word (idx Td x).
Proof.
  pose proof (idx_in_range Td (fun y => (0 <=? y) && (y <? 2 ^ 32)) x
                eq_refl eq_refl) as H.
  unfold is_word. simpl in H. lia.
Qed.

Lemma lxor_word a b : is_word a -> is_word b -> is_word (Z.lxor a b).
Proof. unfold is_word. intros. apply lxor_range; lia. Qed.

Lemma lxor_byte a b : is_byte a -> is_byte b -> is_byte (Z.lxor a b).
Proof. unfold is_byte. intros. apply (lxor_range a b 8); lia. Qed.

Lemma bytes_eq (f g : Z -> Z) :
  forallb (fun x => f x =? g x) (seqZ 0 256) = true ->
  forall x, is_byte x -> f x = g x.
Proof.
  intros H x Hx. apply Z.eqb_eq.
  apply (forall_bytes (fun x => f x =? g x) H x Hx).
Qed.

Ltac by_bytes := apply bytes_eq; vm_compute; reflexivity.

(** The bytes of the encryption table: [Te[j*256 + x]] is column [j] of
    MixColumns applied to [Se[x]]. *)
Lemma Te_word_0 : forall x, is_byte x ->
  Enc.TL 0 x = pack (f3 (idx Se x)) (idx Se x) (idx Se x) (f2 (idx Se x)).
Proof. by_bytes. Qed.
Lemma Te_word_1 : forall x, is_byte x ->
  Enc.TL 1 x = pack (idx Se x) (idx Se x) (f2 (idx Se x)) (f3 (idx Se x)).
Proof. by_bytes. Qed.
Lemma Te_word_2 : forall x, is_byte x ->
  Enc.TL 2 x = pack (idx Se x) (f2 (idx Se x)) (f3 (idx Se x)) (idx Se x).
Proof. by_bytes. Qed.
Lemma Te_word_3 : forall x, is_byte x ->
  Enc.TL 3 x = pack (f2 (idx Se x)) (f3 (idx Se x)) (idx Se x) (idx Se x).
Proof. by_bytes. Qed.

(** [Td[j*256 + Se[b]]] is column [j] of InvMixColumns applied to [b]. *)
Lemma Td_Se_word_0 : forall b, is_byte b ->
  idx Td (0 * 256 + idx Se b) = pack (fb b) (fd b) (f9 b) (fe b).
Proof. by_bytes. Qed.
Lemma Td_Se_word_1 : forall b, is_byte b ->
  idx Td (1 * 256 + idx Se b) = pack (fd b) (f9 b) (fe b) (fb b).
Proof. by_bytes. Qed.
Lemma Td_Se_word_2 : forall b, is_byte b ->
  idx Td (2 * 256 + idx Se b) = pack (f9 b) (fe b) (fb b) (fd b).
Proof. by_bytes. Qed.
Lemma Td_Se_word_3 : forall b, is_byte b ->
  idx Td (3 * 256 + idx Se b) = pack (fe b) (fb b) (fd b) (f9 b).
Proof. by_bytes. Qed.

(** InvMixColumns undoes each column of the encryption table. *)
Lemma imw_Te_0 : forall x, is_byte x ->
  inv_mix_word (Enc.TL 0 x) = Z.shiftl (idx Se x) 24.
Proof. by_bytes. Qed.
Lemma imw_Te_1 : forall x, is_byte x ->
  inv_mix_word (Enc.TL 1 x) = Z.shiftl (idx Se x) 16.
Proof. by_bytes. Qed.
Lemma imw_Te_2 : forall x, is_byte x ->
  inv_mix_word (Enc.TL 2 x) = Z.shiftl (idx Se x) 8.
Proof. by_bytes. Qed.
Lemma imw_Te_3 : forall x, is_byte x ->
  inv_mix_word (Enc.TL 3 x) = idx Se x.
Proof. by_bytes. Qed.

Lemma Sd_Se : forall x, is_byte x -> idx Sd (idx Se x) = x.
Proof. by_bytes. Qed.

Lemma Te_byte1 : forall x, is_byte x -> GETBYTE (idx Te x) 1 = idx Se x.
Proof. by_bytes. Qed.

Lemma TL_first_0 : forall x, is_byte x -> Enc.TL_first 0 x = Enc.TL 3 x.
Proof. by_bytes. Qed.
Lemma TL_first_1 : forall x, is_byte x -> Enc.TL_first 1 x = Enc.TL 2 x.
Proof. by_bytes. Qed.
Lemma TL_first_2 : forall x, is_byte x -> Enc.TL_first 2 x = Enc.TL 1 x.
Proof. by_bytes. Qed.
Lemma TL_first_3 : forall x, is_byte x -> Enc.TL_first 3 x = Enc.TL 0 x.
Proof. by_bytes. Qed.

Lemma Td_rot_8 : forall x, is_byte x ->
  rotrFixed (idx Td x) 8 = idx Td (1 * 256 + x).
Proof. by_bytes. Qed.
Lemma Td_rot_16 : forall x, is_byte x ->
  rotrFixed (idx Td x) 16 = idx Td (2 * 256 + x).
Proof. by_bytes. Qed.
Lemma Td_rot_24 : forall x, is_byte x ->
  rotrFixed (idx Td x) 24 = idx Td (3 * 256 + x).
Proof. by_bytes. Qed.

Lemma pack_lxor a0 a1 a2 a3 b0 b1 b2 b3 :
  pack (Z.lxor a0 b0) (Z.lxor a1 b1) (Z.lxor a2 b2) (Z.lxor a3 b3)
  = Z.lxor (pack a0 a1 a2 a3) (pack b0 b1 b2 b3).
Proof. unfold pack. rewrite !Z.shiftl_lxor. xor_solve. Qed.

(** The inverse MixColumn transform of a word is linear. *)
Lemma inv_mix_word_lxor a b :
  inv_mix_word (Z.lxor a b) = Z.lxor (inv_mix_word a) (inv_mix_word b).
Proof.
  unfold inv_mix_word. rewrite !GETBYTE_lxor.
  rewrite !Td_Se_word_0, !Td_Se_word_1, !Td_Se_word_2, !Td_Se_word_3
    by first [apply GETBYTE_range | apply lxor_byte; apply GETBYTE_range].
  rewrite !fe_lxor, !fb_lxor, !fd_lxor, !f9_lxor, !pack_lxor. xor_solve.
Qed.

(** ** Rijndael: rounds and their inverses *)

Definition quad : Type := Z * Z * Z * Z.

Definition words4 (t : quad) : Prop :=
  let '(t0, t1, t2, t3) := t in
  is_word t0 /\ is_word t1 /\ is_word t2 /\ is_word t3.

(** One column of a table round: the round key word and one entry of each
    rotated table. *)
Definition enc_col (k x0 x1 x2 x3 : Z) : Z :=
  Z.lxor (Z.lxor (Z.lxor (Z.lxor k (Enc.TL 0 x0)) (Enc.TL 1 x1))
                 (Enc.TL 2 x2)) (Enc.TL 3 x3).

Definition dec_col (k x0 x1 x2 x3 : Z) : Z :=
  Z.lxor (Z.lxor (Z.lxor (Z.lxor k (idx Td (0 * 256 + x0)))
                         (idx Td (1 * 256 + x1)))
                 (idx Td (2 * 256 + x2))) (idx Td (3 * 256 + x3)).

Definition enc_round (k t : quad) : quad :=
  let '(k0, k1, k2, k3) := k in
  let '(t0, t1, t2, t3) := t in
  (enc_col k0 (GETBYTE t0 3) (GETBYTE t1 2) (GETBYTE t2 1) (GETBYTE t3 0),
   enc_col k1 (GETBYTE t1 3) (GETBYTE t2 2) (GETBYTE t3 1) (GETBYTE t0 0),
   enc_col k2 (GETBYTE t2 3) (GETBYTE t3 2) (GETBYTE t0 1) (GETBYTE t1 0),
   enc_col k3 (GETBYTE t3 3) (GETBYTE t0 2) (GETBYTE t1 1) (GETBYTE t2 0)).

Definition enc_first (k s : quad) : quad :=
  let '(k0, k1, k2, k3) := k in
  let '(s0, s1, s2, s3) := s in
  (enc_col k0 (GETBYTE s0 0) (GETBYTE s1 1) (GETBYTE s2 2) (GETBYTE s3 3),
   enc_col k1 (GETBYTE s1 0) (GETBYTE s2 1) (GETBYTE s3 2) (GETBYTE s0 3),
   enc_col k2 (GETBYTE s2 0) (GETBYTE s3 1) (GETBYTE s0 2) (GETBYTE s1 3),
   enc_col k3 (GETBYTE s3 0) (GETBYTE s0 1) (GETBYTE s1 2) (GETBYTE s2 3)).

Definition dec_round (k t : quad) : quad :=
  let '(k0, k1, k2, k3) := k in
  let '(t0, t1, t2, t3) := t in
  (dec_col k0 (GETBYTE t0 3) (GETBYTE t3 2) (GETBYTE t2 1) (GETBYTE t1 0),
   dec_col k1 (GETBYTE t1 3) (GETBYTE t0 2) (GETBYTE t3 1) (GETBYTE t2 0),
   dec_col k2 (GETBYTE t2 3) (GETBYTE t1 2) (GETBYTE t0 1) (GETBYTE t3 0),
   dec_col k3 (GETBYTE t3 3) (GETBYTE t2 2) (GETBYTE t1 1) (GETBYTE t0 0)).

Definition dec_first (k s : quad) : quad :=
  let '(k0, k1, k2, k3) := k in
  let '(s0, s1, s2, s3) := s in
  (dec_col k0 (GETBYTE s0 0) (GETBYTE s3 1) (GETBYTE s2 2) (GETBYTE s1 3),
   dec_col k1 (GETBYTE s1 0) (GETBYTE s0 1) (GETBYTE s3 2) (GETBYTE s2 3),
   dec_col k2 (GETBYTE s2 0) (GETBYTE s1 1) (GETBYTE s0 2) (GETBYTE s3 3),
   dec_col k3 (GETBYTE s3 0) (GETBYTE s2 1) (GETBYTE s1 2) (GETBYTE s0 3)).

(** SubBytes and ShiftRows of a state held in big-endian words, as
    big-endian words ([sub_shift]) and as little-endian words
    ([sub_shift_le]); [sub_le] is SubBytes and ShiftRows of a state held in
    little-endian words, as big-endian words. *)
Definition sb (w k : Z) : Z := idx Se (GETBYTE w k).

Definition sub_shift (y : quad) : quad :=
  let '(y0, y1, y2, y3) := y in
  (pack (sb y3 0) (sb y2 1) (sb y1 2) (sb y0 3),
   pack (sb y0 0) (sb y3 1) (sb y2 2) (sb y1 3),
   pack (sb y1 0) (sb y0 1) (sb y3 2) (sb y2 3),
   pack (sb y2 0) (sb y1 1) (sb y0 2) (sb y3 3)).

Definition sub_shift_le (y : quad) : quad :=
  let '(y0, y1, y2, y3) := y in
  (pack (sb y0 3) (sb y1 2) (sb y2 1) (sb y3 0),
   pack (sb y1 3) (sb y2 2) (sb y3 1) (sb y0 0),
   pack (sb y2 3) (sb y3 2) (sb y0 1) (sb y1 0),
   pack (sb y3 3) (sb y0 2) (sb y1 1) (sb y2 0)).

Definition sub_le (x : quad) : quad :=
  let '(x0, x1, x2, x3) := x in
  (pack (sb x3 3) (sb x2 2) (sb x1 1) (sb x0 0),
   pack (sb x0 3) (sb x3 2) (sb x2 1) (sb x1 0),
   pack (sb x1 3) (sb x0 2) (sb x3 1) (sb x2 0),
   pack (sb x2 3) (sb x1 2) (sb x0 1) (sb x3 0)).

Definition inv_mix4 (k : quad) : quad :=
  let '(k0, k1, k2, k3) := k in
  (inv_mix_word k0, inv_mix_word k1, inv_mix_word k2, inv_mix_word k3).

Lemma byte_of_0 t : byte_of t = GETBYTE t 0.
Proof. reflexivity. Qed.
Lemma byte_of_1 t : byte_of (Z.shiftr t 8) = GETBYTE t 1.
Proof. reflexivity. Qed.
Lemma byte_of_2 t : byte_of (Z.shiftr (Z.shiftr t 8) 8) = GETBYTE t 2.
Proof. unfold GETBYTE. now rewrite Z.shiftr_shiftr by lia. Qed.
Lemma shiftr_3 t :
  is_word t -> Z.shiftr (Z.shiftr (Z.shiftr t 8) 8) 8 = GETBYTE t 3.
Proof.
  unfold is_word, GETBYTE, byte_of. intros H.
  rewrite !Z.shiftr_shiftr by lia. change 255 with (Z.ones 8).
  rewrite Z.land_ones, !Z.shiftr_div_pow2 by lia. simpl.
  Z.div_mod_to_equations. lia.
Qed.

Lemma sb_range w k : is_byte (sb w k).
Proof. apply idx_Se_range. Qed.

Create HintDb aes.
#[export] Hint Resolve GETBYTE_range idx_Se_range idx_Sd_range idx_Te_range
  idx_Td_range sb_range lxor_word lxor_byte : aes.

Lemma GETBYTE_pack b0 b1 b2 b3 :
  is_byte b0 -> is_byte b1 -> is_byte b2 -> is_byte b3 ->
  GETBYTE (pack b0 b1 b2 b3) 0 = b0 /\ GETBYTE (pack b0 b1 b2 b3) 1 = b1 /\
  GETBYTE (pack b0 b1 b2 b3) 2 = b2 /\ GETBYTE (pack b0 b1 b2 b3) 3 = b3.
Proof. intros. rewrite pack_wsum by assumption. now apply GETBYTE_wsum. Qed.

Lemma pack_word b0 b1 b2 b3 :
  is_byte b0 -> is_byte b1 -> is_byte b2 -> is_byte b3 ->
  is_word (pack b0 b1 b2 b3).
Proof. intros. rewrite pack_wsum by assumption. now apply wsum_word. Qed.

Lemma TL_word j x : is_word (Enc.TL j x).
Proof. apply idx_Te_range. Qed.

Lemma enc_col_word k x0 x1 x2 x3 : is_word k -> is_word (enc_col k x0 x1 x2 x3).
Proof. intros. unfold enc_col. auto 10 using TL_word with aes. Qed.

Lemma dec_col_word k x0 x1 x2 x3 : is_word k -> is_word (dec_col k x0 x1 x2 x3).
Proof. intros. unfold dec_col. auto 10 with aes. Qed.

Lemma inv_mix_word_word w : is_word (inv_mix_word w).
Proof. unfold inv_mix_word. auto 10 with aes. Qed.

Lemma quad_eq (a b c d a' b' c' d' : Z) :
  a = a' -> b = b' -> c = c' -> d = d' -> (a, b, c, d) = (a', b', c', d').
Proof. congruence. Qed.

Lemma full_round_enc k t :
  words4 t -> Enc.full_round k t = enc_round k t.
Proof.
  destruct k as [[[k0 k1] k2] k3], t as [[[t0 t1] t2] t3].
  intros (H0 & H1 & H2 & H3).
  unfold Enc.full_round, Enc.QUARTER_ROUND, enc_round, enc_col.
  cbv beta iota zeta.
  rewrite !byte_of_2, !byte_of_1, !byte_of_0, !shiftr_3 by assumption.
  apply quad_eq; xor_solve.
Qed.

Lemma full_round_dec k t :
  words4 t -> Dec.full_round k t = dec_round k t.
Proof.
  destruct k as [[[k0 k1] k2] k3], t as [[[t0 t1] t2] t3].
  intros (H0 & H1 & H2 & H3).
  unfold Dec.full_round, Dec.QUARTER_ROUND, dec_round, dec_col.
  cbv beta iota zeta.
  rewrite !byte_of_2, !byte_of_1, !byte_of_0, !shiftr_3 by assumption.
  change (idx Td (GETBYTE ?t 3)) with (idx Td (0 * 256 + GETBYTE t 3)).
  apply quad_eq; xor_solve.
Qed.

Lemma GETBYTE_pack_0 b0 b1 b2 b3 :
  is_byte b0 -> is_byte b1 -> is_byte b2 -> is_byte b3 ->
  GETBYTE (pack b0 b1 b2 b3) 0 = b0.
Proof.
  intros H0 H1 H2 H3.
  destruct (GETBYTE_pack _ _ _ _ H0 H1 H2 H3) as (? & ? & ? & ?). assumption.
Qed.
Lemma GETBYTE_pack_1 b0 b1 b2 b3 :
  is_byte b0 -> is_byte b1 -> is_byte b2 -> is_byte b3 ->
  GETBYTE (pack b0 b1 b2 b3) 1 = b1.
Proof.
  intros H0 H1 H2 H3.
  destruct (GETBYTE_pack _ _ _ _ H0 H1 H2 H3) as (? & ? & ? & ?). assumption.
Qed.
Lemma GETBYTE_pack_2 b0 b1 b2 b3 :
  is_byte b0 -> is_byte b1 -> is_byte b2 -> is_byte b3 ->
  GETBYTE (pack b0 b1 b2 b3) 2 = b2.
Proof.
  intros H0 H1 H2 H3.
  destruct (GETBYTE_pack _ _ _ _ H0 H1 H2 H3) as (? & ? & ? & ?). assumption.
Qed.
Lemma GETBYTE_pack_3 b0 b1 b2 b3 :
  is_byte b0 -> is_byte b1 -> is_byte b2 -> is_byte b3 ->
  GETBYTE (pack b0 b1 b2 b3) 3 = b3.
Proof.
  intros H0 H1 H2 H3.
  destruct (GETBYTE_pack _ _ _ _ H0 H1 H2 H3) as (? & ? & ? & ?). assumption.
Qed.

Ltac unpack :=
  rewrite ?GETBYTE_pack_0, ?GETBYTE_pack_1, ?GETBYTE_pack_2, ?GETBYTE_pack_3
    by auto with aes.

(** InvMixColumns of a round column gives back the substituted bytes. *)
Lemma col_inverse k x0 x1 x2 x3 :
  is_byte x0 -> is_byte x1 -> is_byte x2 -> is_byte x3 ->
  inv_mix_word (enc_col k x0 x1 x2 x3)
  = Z.lxor (inv_mix_word k)
      (pack (idx Se x3) (idx Se x2) (idx Se x1) (idx Se x0)).
Proof.
  intros H0 H1 H2 H3. unfold enc_col.
  rewrite !inv_mix_word_lxor, imw_Te_0, imw_Te_1, imw_Te_2, imw_Te_3
    by assumption.
  unfold pack. xor_solve.
Qed.

Lemma dec_col_inv_mix k w :
  dec_col k (sb w 3) (sb w 2) (sb w 1) (sb w 0) = Z.lxor k (inv_mix_word w).
Proof. unfold dec_col, inv_mix_word, sb. xor_solve. Qed.

Lemma dec_enc_col k x0 x1 x2 x3 :
  is_byte x0 -> is_byte x1 -> is_byte x2 -> is_byte x3 ->
  let w := enc_col k x0 x1 x2 x3 in
  dec_col (inv_mix_word k) (sb w 3) (sb w 2) (sb w 1) (sb w 0)
  = pack (idx Se x3) (idx Se x2) (idx Se x1) (idx Se x0).
Proof.
  intros H0 H1 H2 H3 w. rewrite dec_col_inv_mix. unfold w.
  rewrite col_inverse by assumption. xor_solve.
Qed.

(** A decryption round with the transformed round key undoes an encryption
    round, seen through SubBytes and ShiftRows. *)
Lemma round_inverse k y :
  dec_round (inv_mix4 k) (sub_shift (enc_round k y)) = sub_shift y.
Proof.
  destruct k as [[[k0 k1] k2] k3], y as [[[y0 y1] y2] y3].
  unfold dec_round, inv_mix4, sub_shift, enc_round. unpack.
  apply quad_eq; apply dec_enc_col; auto with aes.
Qed.

Lemma first_dec_inverse k y :
  dec_first (inv_mix4 k) (sub_shift_le (enc_round k y)) = sub_shift y.
Proof.
  destruct k as [[[k0 k1] k2] k3], y as [[[y0 y1] y2] y3].
  unfold dec_first, inv_mix4, sub_shift_le, sub_shift, enc_round. unpack.
  apply quad_eq; apply dec_enc_col; auto with aes.
Qed.

Lemma first_enc_inverse k x :
  dec_round (inv_mix4 k) (sub_shift (enc_first k x)) = sub_le x.
Proof.
  destruct k as [[[k0 k1] k2] k3], x as [[[x0 x1] x2] x3].
  unfold dec_round, inv_mix4, sub_shift, sub_le, enc_first. unpack.
  apply quad_eq; apply dec_enc_col; auto with aes.
Qed.

Lemma enc_round_words k t : words4 k -> words4 (enc_round k t).
Proof.
  destruct k as [[[k0 k1] k2] k3], t as [[[t0 t1] t2] t3].
  intros (H0 & H1 & H2 & H3). unfold enc_round, words4.
  split_and!; now apply enc_col_word.
Qed.

Lemma enc_first_words k t : words4 k -> words4 (enc_first k t).
Proof.
  destruct k as [[[k0 k1] k2] k3], t as [[[t0 t1] t2] t3].
  intros (H0 & H1 & H2 & H3). unfold enc_first, words4.
  split_and!; now apply enc_col_word.
Qed.

Lemma dec_round_words k t : words4 k -> words4 (dec_round k t).
Proof.
  destruct k as [[[k0 k1] k2] k3], t as [[[t0 t1] t2] t3].
  intros (H0 & H1 & H2 & H3). unfold dec_round, words4.
  split_and!; now apply dec_col_word.
Qed.

Lemma inv_mix4_words k : words4 (inv_mix4 k).
Proof.
  destruct k as [[[k0 k1] k2] k3]. unfold inv_mix4, words4.
  split_and!; apply inv_mix_word_word.
Qed.

Lemma sub_shift_words y : words4 (sub_shift y).
Proof.
  destruct y as [[[y0 y1] y2] y3]. unfold sub_shift, words4.
  split_and!; apply pack_word; auto with aes.
Qed.

Lemma sub_shift_le_words y : words4 (sub_shift_le y).
Proof.
  destruct y as [[[y0 y1] y2] y3]. unfold sub_shift_le, words4.
  split_and!; apply pack_word; auto with aes.
Qed.

Lemma sub_le_words y : words4 (sub_le y).
Proof.
  destruct y as [[[y0 y1] y2] y3]. unfold sub_le, words4.
  split_and!; apply pack_word; auto with aes.
Qed.

(** Runs of rounds. *)
Definition enc_chain (ks : list quad) (y : quad) : quad :=
  foldl (fun y k => enc_round k y) y ks.
Definition dec_chain (ks : list quad) (z : quad) : quad :=
  foldl (fun z k => dec_round k z) z ks.

Lemma chain_inverse ks y :
  dec_chain (inv_mix4 <$> reverse ks) (sub_shift (enc_chain ks y))
  = sub_shift y.
Proof.
  revert y. induction ks as [|k ks IH]; intros y; [reflexivity|].
  rewrite reverse_cons, fmap_app. unfold dec_chain, enc_chain in *.
  rewrite foldl_app. simpl. rewrite IH. apply round_inverse.
Qed.

Lemma enc_chain_words ks y :
  Forall words4 ks -> words4 y -> words4 (enc_chain ks y).
Proof.
  intros Hks. revert y. induction Hks as [|k ks Hk Hks IH]; intros y Hy;
    [exact Hy|].
  apply IH. now apply enc_round_words.
Qed.

Fixpoint flat (ks : list quad) : list Z :=
  match ks with
  | [] => []
  | (k0, k1, k2, k3) :: ks => k0 :: k1 :: k2 :: k3 :: flat ks
  end.



(** The round loops run the chains. *)
Lemma enc_rounds_step a b rk r y :
  Enc.rounds (flat (a :: b :: []) ++ rk) r y
  = let t := Enc.full_round b (Enc.full_round a y) in
    if word32 (r - 1) =? 0 then Ok (t, rk) else Enc.rounds rk (word32 (r - 1)) t.
Proof. destruct a as [[[? ?] ?] ?], b as [[[? ?] ?] ?]. reflexivity. Qed.

Lemma flat_app ks ks' : flat (ks ++ ks') = flat ks ++ flat ks'.
Proof.
  induction ks as [|[[[? ?] ?] ?] ks IH]; [reflexivity|].
  simpl. now rewrite IH.
Qed.

Lemma enc_rounds_chain n : forall ks rest y,
  length ks = (2 * S n)%nat -> Z.of_nat (S n) < 2 ^ 32 ->
  Forall words4 ks -> words4 y ->
  Enc.rounds (flat ks ++ rest) (Z.of_nat (S n)) y
  = Ok (enc_chain ks y, rest).
Proof.
  induction n as [|n IH]; intros ks rest y Hlen Hn Hks Hy;
    destruct ks as [|a [|b ks]]; try discriminate;
    inversion Hks as [|? ? Ha Hks']; inversion Hks' as [|? ? Hb Hks''];
    subst;
    change (a :: b :: ks) with ([a; b] ++ ks);
    rewrite flat_app, <- app_assoc, enc_rounds_step; cbv zeta;
    rewrite (full_round_enc a y), full_round_enc by auto using enc_round_words.
  - destruct ks; [|discriminate]. reflexivity.
  - replace (word32 (Z.of_nat (S (S n)) - 1)) with (Z.of_nat (S n))
      by (unfold word32; rewrite Z.mod_small; lia).
    destruct (Z.eqb_spec (Z.of_nat (S n)) 0) as [E|_]; [lia|].
    rewrite IH; [reflexivity| simpl in Hlen; lia | lia | assumption |].
    auto using enc_round_words.
Qed.

Lemma dec_rounds_step a b rk r y :
  Dec.rounds (flat (a :: b :: []) ++ rk) r y
  = let t := Dec.full_round b (Dec.full_round a y) in
    if word32 (r - 1) =? 0 then Ok (t, rk) else Dec.rounds rk (word32 (r - 1)) t.
Proof. destruct a as [[[? ?] ?] ?], b as [[[? ?] ?] ?]. reflexivity. Qed.

Lemma dec_rounds_chain n : forall ks rest y,
  length ks = (2 * S n)%nat -> Z.of_nat (S n) < 2 ^ 32 ->
  Forall words4 ks -> words4 y ->
  Dec.rounds (flat ks ++ rest) (Z.of_nat (S n)) y
  = Ok (dec_chain ks y, rest).
Proof.
  induction n as [|n IH]; intros ks rest y Hlen Hn Hks Hy;
    destruct ks as [|a [|b ks]]; try discriminate;
    inversion Hks as [|? ? Ha Hks']; inversion Hks' as [|? ? Hb Hks''];
    subst;
    change (a :: b :: ks) with ([a; b] ++ ks);
    rewrite flat_app, <- app_assoc, dec_rounds_step; cbv zeta;
    rewrite (full_round_dec a y), full_round_dec by auto using dec_round_words.
  - destruct ks; [|discriminate]. reflexivity.
  - replace (word32 (Z.of_nat (S (S n)) - 1)) with (Z.of_nat (S n))
      by (unfold word32; rewrite Z.mod_small; lia).
    destruct (Z.eqb_spec (Z.of_nat (S n)) 0) as [E|_]; [lia|].
    rewrite IH; [reflexivity| simpl in Hlen; lia | lia | assumption |].
    auto using dec_round_words.
Qed.

(** ** Rijndael: the first and last rounds and the block functions *)

Lemma preload_ok cacheLineSize read limit :
  0 < cacheLineSize < 2 ^ 31 -> limit <= 2 ^ 31 ->
  forall fuel i, 0 <= i -> limit - i <= Z.of_nat fuel ->
  preload fuel cacheLineSize read limit i 0 = Ok 0.
Proof.
  intros Hc Hl. induction fuel as [|fuel IH]; intros i Hi Hf.
  - simpl. destruct (Z.ltb_spec i limit); [lia|reflexivity].
  - simpl. destruct (Z.ltb_spec i limit); [|reflexivity].
    rewrite Z.land_0_l. unfold word32. rewrite Z.mod_small by lia.
    apply IH; lia.
Qed.

Definition quad_xor (a b : quad) : quad :=
  let '(a0, a1, a2, a3) := a in
  let '(b0, b1, b2, b3) := b in
  (Z.lxor a0 b0, Z.lxor a1 b1, Z.lxor a2 b2, Z.lxor a3 b3).

Definition out_bytes (w : quad) : list byte :=
  let '(w0, w1, w2, w3) := w in
  word_bytes w0 ++ word_bytes w1 ++ word_bytes w2 ++ word_bytes w3.

Definition sd (w k : Z) : Z := idx Sd (GETBYTE w k).

(** The last round of decryption, as little-endian words. *)
Definition inv_sub_shift_le (t : quad) : quad :=
  let '(t0, t1, t2, t3) := t in
  (pack (sd t0 3) (sd t3 2) (sd t2 1) (sd t1 0),
   pack (sd t1 3) (sd t0 2) (sd t3 1) (sd t2 0),
   pack (sd t2 3) (sd t1 2) (sd t0 1) (sd t3 0),
   pack (sd t3 3) (sd t2 2) (sd t1 1) (sd t0 0)).

Definition enc_last (t : quad) : list byte :=
  let '(t0, t1, t2, t3) := t in
  Enc.QUARTER_ROUND_last
    (Enc.QUARTER_ROUND_last
       (Enc.QUARTER_ROUND_last
          (Enc.QUARTER_ROUND_last (replicate 16 x00) t2 15 2 5 8)
          t1 11 14 1 4) t0 7 10 13 0) t3 3 6 9 12.

Definition dec_last (t : quad) : list byte :=
  let '(t0, t1, t2, t3) := t in
  Dec.QUARTER_ROUND_last
    (Dec.QUARTER_ROUND_last
       (Dec.QUARTER_ROUND_last
          (Dec.QUARTER_ROUND_last (replicate 16 x00) t2 7 2 13 8)
          t1 3 14 9 4) t0 15 10 5 0) t3 11 6 1 12.

Lemma word_le_pack a b c d :
  is_byte a -> is_byte b -> is_byte c -> is_byte d ->
  word_le (Z_to_byte a) (Z_to_byte b) (Z_to_byte c) (Z_to_byte d)
  = pack a b c d.
Proof.
  intros Ha Hb Hc Hd. unfold word_le.
  rewrite !byte_to_Z_to_byte_small by assumption.
  rewrite lor_wsum, pack_wsum by assumption. reflexivity.
Qed.

Lemma sd_range w k : is_byte (sd w k).
Proof. apply idx_Sd_range. Qed.

#[export] Hint Resolve sd_range : aes.

Lemma enc_last_words t :
  words4 t -> block_words (enc_last t) = Ok (sub_shift_le t).
Proof.
  destruct t as [[[t0 t1] t2] t3]. intros (H0 & H1 & H2 & H3).
  unfold enc_last, Enc.QUARTER_ROUND_last. cbv beta iota zeta.
  rewrite !byte_of_2, !byte_of_1, !byte_of_0, !shiftr_3 by assumption.
  rewrite !Te_byte1 by auto with aes.
  cbn [replicate insert list_insert block_words].
  rewrite !word_le_pack by auto with aes. reflexivity.
Qed.

Lemma dec_last_words t :
  words4 t -> block_words (dec_last t) = Ok (inv_sub_shift_le t).
Proof.
  destruct t as [[[t0 t1] t2] t3]. intros (H0 & H1 & H2 & H3).
  unfold dec_last, Dec.QUARTER_ROUND_last. cbv beta iota zeta.
  rewrite !byte_of_2, !byte_of_1, !byte_of_0, !shiftr_3 by assumption.
  cbn [replicate insert list_insert block_words].
  rewrite !word_le_pack by auto with aes. reflexivity.
Qed.

Lemma pack_GETBYTE w :
  is_word w -> pack (GETBYTE w 0) (GETBYTE w 1) (GETBYTE w 2) (GETBYTE w 3) = w.
Proof.
  intros H. rewrite pack_wsum by auto with aes. now apply wsum_GETBYTE.
Qed.

Lemma inv_sub_le x : words4 x -> inv_sub_shift_le (sub_le x) = x.
Proof.
  destruct x as [[[x0 x1] x2] x3]. intros (H0 & H1 & H2 & H3).
  unfold inv_sub_shift_le, sub_le, sd. unpack. unfold sb.
  rewrite !Sd_Se by auto with aes.
  apply quad_eq; now apply pack_GETBYTE.
Qed.

Lemma quad_xor_words a b : words4 a -> words4 b -> words4 (quad_xor a b).
Proof.
  destruct a as [[[a0 a1] a2] a3], b as [[[b0 b1] b2] b3].
  intros (? & ? & ? & ?) (? & ? & ? & ?). unfold quad_xor, words4.
  split_and!; now apply lxor_word.
Qed.

Lemma dec_first_words k t : words4 k -> words4 (dec_first k t).
Proof.
  destruct k as [[[k0 k1] k2] k3], t as [[[t0 t1] t2] t3].
  intros (H0 & H1 & H2 & H3). unfold dec_first, words4.
  split_and!; now apply dec_col_word.
Qed.

Lemma dec_chain_words ks y :
  Forall words4 ks -> words4 y -> words4 (dec_chain ks y).
Proof.
  intros Hks. revert y. induction Hks as [|k ks Hk Hks IH]; intros y Hy;
    [exact Hy|].
  apply IH. now apply dec_round_words.
Qed.

Lemma rounds_count n :
  Z.of_nat (S n) < 2 ^ 32 ->
  word32 ((2 * Z.of_nat (S n) + 2) / 2 - 1) = Z.of_nat (S n).
Proof.
  intros H.
  replace ((2 * Z.of_nat (S n) + 2) / 2 - 1) with (Z.of_nat (S n))
    by (Z.div_mod_to_equations; lia).
  unfold word32. apply Z.mod_small. lia.
Qed.

Lemma enc_block cacheLineSize n k0 k1 ks kR p x :
  0 < cacheLineSize < 2 ^ 31 ->
  length ks = (2 * S n)%nat -> Z.of_nat (S n) < 2 ^ 32 ->
  words4 k1 -> Forall words4 ks ->
  block_words p = Ok x -> words4 (quad_xor x k0) ->
  Enc.ProcessAndXorBlock cacheLineSize
    {| m_rounds := 2 * Z.of_nat (S n) + 2;
       m_key := flat (k0 :: k1 :: ks ++ [kR]) |} p None
  = Ok (out_bytes
          (quad_xor
             (sub_shift_le (enc_chain ks (enc_first k1 (quad_xor x k0))))
             kR)).
Proof.
  intros Hc Hlen Hn Hk1 Hks Hp Hx.
  destruct x as [[[i0 i1] i2] i3], k0 as [[[a0 a1] a2] a3],
    k1 as [[[b0 b1] b2] b3].
  unfold Enc.ProcessAndXorBlock. rewrite Hp, bind_Ok.
  cbn [m_key m_rounds flat].
  rewrite preload_ok, bind_Ok by lia.
  cbv beta iota zeta delta [Enc.QUARTER_ROUND1 Enc.QUARTER_ROUND].
  rewrite Z.land_0_l, !Z.lor_0_r.
  destruct Hx as (X0 & X1 & X2 & X3).
  rewrite !byte_of_2, !byte_of_1, !byte_of_0, !shiftr_3 by assumption.
  rewrite !TL_first_0, !TL_first_1, !TL_first_2, !TL_first_3
    by auto with aes.
  match goal with
  | |- context [Enc.rounds _ _ ?t] =>
      replace t with (enc_first (b0, b1, b2, b3)
                        (quad_xor (i0, i1, i2, i3) (a0, a1, a2, a3)))
        by (unfold enc_first, quad_xor, enc_col; apply quad_eq; xor_solve)
  end.
  rewrite rounds_count by lia.
  rewrite flat_app, enc_rounds_chain
    by auto using enc_first_words.
  rewrite bind_Ok.
  pose proof (enc_chain_words ks _ Hks
                (enc_first_words (b0, b1, b2, b3)
                   (quad_xor (i0, i1, i2, i3) (a0, a1, a2, a3)) Hk1)) as HY.
  destruct (enc_chain ks _) as [[[y0 y1] y2] y3].
  change (Enc.QUARTER_ROUND_last _ y3 3 6 9 12)
    with (enc_last (y0, y1, y2, y3)).
  unfold xor_out. rewrite enc_last_words, bind_Ok by assumption.
  destruct kR as [[[r0 r1] r2] r3]. reflexivity.
Qed.

Lemma dec_block cacheLineSize n k0 k1 ks kR p x :
  0 < cacheLineSize < 2 ^ 31 ->
  length ks = (2 * S n)%nat -> Z.of_nat (S n) < 2 ^ 32 ->
  words4 k1 -> Forall words4 ks ->
  block_words p = Ok x -> words4 (quad_xor x k0) ->
  Dec.ProcessAndXorBlock cacheLineSize
    {| m_rounds := 2 * Z.of_nat (S n) + 2;
       m_key := flat (k0 :: k1 :: ks ++ [kR]) |} p None
  = Ok (out_bytes
          (quad_xor
             (inv_sub_shift_le
                (dec_chain ks (dec_first k1 (quad_xor x k0))))
             kR)).
Proof.
  intros Hc Hlen Hn Hk1 Hks Hp Hx.
  destruct x as [[[i0 i1] i2] i3], k0 as [[[a0 a1] a2] a3],
    k1 as [[[b0 b1] b2] b3].
  unfold Dec.ProcessAndXorBlock. rewrite Hp, bind_Ok.
  cbn [m_key m_rounds flat].
  rewrite (preload_ok _ (peek32 Td) 1024), bind_Ok by lia.
  cbv beta iota zeta delta [Dec.QUARTER_ROUND_first].
  rewrite Z.land_0_l, !Z.lor_0_r.
  destruct Hx as (X0 & X1 & X2 & X3).
  rewrite !byte_of_2, !byte_of_1, !byte_of_0, !shiftr_3 by assumption.
  rewrite !Td_rot_8, !Td_rot_16, !Td_rot_24 by auto with aes.
  change (idx Td (GETBYTE ?t 0)) with (idx Td (0 * 256 + GETBYTE t 0)).
  match goal with
  | |- context [Dec.rounds _ _ ?t] =>
      replace t with (dec_first (b0, b1, b2, b3)
                        (quad_xor (i0, i1, i2, i3) (a0, a1, a2, a3)))
        by (unfold dec_first, quad_xor, dec_col; apply quad_eq; xor_solve)
  end.
  rewrite rounds_count by lia.
  rewrite flat_app, dec_rounds_chain by auto using dec_first_words.
  rewrite bind_Ok.
  pose proof (dec_chain_words ks _ Hks
                (dec_first_words (b0, b1, b2, b3)
                   (quad_xor (i0, i1, i2, i3) (a0, a1, a2, a3)) Hk1)) as HY.
  destruct (dec_chain ks _) as [[[y0 y1] y2] y3].
  rewrite preload_ok, bind_Ok by lia.
  rewrite Z.land_0_l, !Z.lor_0_r.
  change (Dec.QUARTER_ROUND_last _ y3 11 6 1 12)
    with (dec_last (y0, y1, y2, y3)).
  unfold xor_out. rewrite dec_last_words, bind_Ok by assumption.
  destruct kR as [[[r0 r1] r2] r3]. reflexivity.
Qed.

Lemma word_le_word b0 b1 b2 b3 : is_word (word_le b0 b1 b2 b3).
Proof.
  unfold word_le. rewrite lor_wsum by apply byte_to_Z_range.
  apply wsum_word; apply byte_to_Z_range.
Qed.

Lemma word_bytes_le b0 b1 b2 b3 :
  word_bytes (word_le b0 b1 b2 b3) = [b0; b1; b2; b3].
Proof.
  unfold word_bytes, word_le. rewrite lor_wsum by apply byte_to_Z_range.
  destruct (GETBYTE_wsum _ _ _ _ (byte_to_Z_range b0) (byte_to_Z_range b1)
              (byte_to_Z_range b2) (byte_to_Z_range b3)) as (E0 & E1 & E2 & E3).
  rewrite E0, E1, E2, E3, !Z_to_byte_to_Z. reflexivity.
Qed.

Lemma block_words_total p :
  length p = 16%nat ->
  exists x, block_words p = Ok x /\ words4 x /\ out_bytes x = p.
Proof.
  intros H.
  do 16 (destruct p as [|? p]; [discriminate|]).
  destruct p; [|discriminate].
  eexists. split; [reflexivity|]. split.
  - split_and!; apply word_le_word.
  - unfold out_bytes. rewrite !word_bytes_le. reflexivity.
Qed.

Lemma block_words_out w : words4 w -> block_words (out_bytes w) = Ok w.
Proof.
  destruct w as [[[w0 w1] w2] w3]. intros (H0 & H1 & H2 & H3).
  unfold out_bytes, word_bytes. cbn [app block_words].
  rewrite !word_le_pack, !pack_GETBYTE by auto with aes. reflexivity.
Qed.

Lemma quad_xor_cancel a b : quad_xor (quad_xor a b) b = a.
Proof.
  destruct a as [[[a0 a1] a2] a3], b as [[[b0 b1] b2] b3].
  unfold quad_xor. apply quad_eq; xor_solve.
Qed.

Lemma enc_chain_snoc ks k y :
  enc_chain (ks ++ [k]) y = enc_round k (enc_chain ks y).
Proof. unfold enc_chain. now rewrite foldl_app. Qed.

Lemma dec_chain_snoc ks k y :
  dec_chain (ks ++ [k]) y = dec_round k (dec_chain ks y).
Proof. unfold dec_chain. now rewrite foldl_app. Qed.

(** Decrypting with the inverted, transformed key schedule undoes
    encrypting with the forward one. *)
Lemma dec_enc_block cacheLineSize n k0 k1 ks kl kR p :
  0 < cacheLineSize < 2 ^ 31 ->
  length ks = (2 * n + 1)%nat -> Z.of_nat (S n) < 2 ^ 32 ->
  words4 k0 -> words4 k1 -> Forall words4 ks -> words4 kl -> words4 kR ->
  length p = 16%nat ->
  exists c,
    Enc.ProcessAndXorBlock cacheLineSize
      {| m_rounds := 2 * Z.of_nat (S n) + 2;
         m_key := flat (k0 :: k1 :: (ks ++ [kl]) ++ [kR]) |} p None = Ok c /\
    Dec.ProcessAndXorBlock cacheLineSize
      {| m_rounds := 2 * Z.of_nat (S n) + 2;
         m_key := flat (kR :: inv_mix4 kl
                        :: ((inv_mix4 <$> reverse ks) ++ [inv_mix4 k1])
                        ++ [k0]) |} c None = Ok p.
Proof.
  intros Hc Hlen Hn H0 H1 Hks Hl HR Hp.
  destruct (block_words_total p Hp) as (x & Hx & Hxw & Hout).
  eexists. split.
  - apply enc_block; try eassumption.
    + rewrite length_app. simpl. lia.
    + apply Forall_app. auto.
    + now apply quad_xor_words.
  - rewrite (dec_block cacheLineSize n kR (inv_mix4 kl) _ k0 _
               (quad_xor
                  (sub_shift_le
                     (enc_chain (ks ++ [kl]) (enc_first k1 (quad_xor x k0))))
                  kR)).
    + rewrite quad_xor_cancel, enc_chain_snoc, first_dec_inverse.
      rewrite dec_chain_snoc.
      rewrite chain_inverse, first_enc_inverse.
      rewrite inv_sub_le by now apply quad_xor_words.
      rewrite quad_xor_cancel, Hout. reflexivity.
    + exact Hc.
    + rewrite length_app, length_fmap, length_reverse. simpl. lia.
    + exact Hn.
    + apply inv_mix4_words.
    + apply Forall_app. split.
      * apply Forall_fmap, Forall_forall. intros ? _. apply inv_mix4_words.
      * repeat constructor. apply inv_mix4_words.
    + apply block_words_out. apply quad_xor_words; [|exact HR].
      apply sub_shift_le_words.
    + rewrite quad_xor_cancel. apply sub_shift_le_words.
Qed.

(** ** Rijndael: the key schedule *)

(** A key buffer of [L] words. *)
Definition good (L : Z) (key : list Z) : Prop :=
  Z.of_nat (length key) = L /\ Forall is_word key.

Lemma rd_good L key i :
  good L key -> 0 <= i < L -> exists v, rd key i = Ok v /\ is_word v.
Proof.
  intros [Hl Hw] Hi.
  destruct (lookup_lt_is_Some_2 key (Z.to_nat i)) as [v Hv]; [lia|].
  exists v. split.
  - rewrite <- (Z2Nat.id i) by lia. now apply rd_lookup.
  - exact (Forall_lookup_1 _ _ _ _ Hw Hv).
Qed.

Lemma wr_good L key i v :
  good L key -> 0 <= i < L -> is_word v ->
  exists key', wr key i v = Ok key' /\ good L key'.
Proof.
  intros [Hl Hw] Hi Hv. exists (<[Z.to_nat i := v]> key). split.
  - rewrite <- (Z2Nat.id i) at 1 by lia. apply wr_insert. lia.
  - split; [now rewrite length_insert|]. now apply Forall_insert.
Qed.

Lemma xor_into_good L key rk d a b :
  good L key -> 0 <= rk + a < L -> 0 <= rk + b < L -> 0 <= rk + d < L ->
  exists key', xor_into key rk d a b = Ok key' /\ good L key'.
Proof.
  intros Hg Ha Hb Hd. unfold xor_into.
  destruct (rd_good L key (rk + a) Hg Ha) as (x & -> & Hx).
  destruct (rd_good L key (rk + b) Hg Hb) as (y & -> & Hy).
  rewrite !bind_Ok. apply wr_good; auto with aes.
Qed.

Lemma word32_word x : is_word (word32 x).
Proof. unfold word32, is_word. apply Z.mod_pos_bound. lia. Qed.

Lemma byte_word x : is_byte x -> is_word x.
Proof. unfold is_byte, is_word. simpl. lia. Qed.

Lemma sub_rot_word w : is_word (sub_rot w).
Proof.
  unfold sub_rot. auto 10 using word32_word, byte_word with aes.
Qed.

Lemma sub_word_word w : is_word (sub_word w).
Proof.
  unfold sub_word. auto 10 using word32_word, byte_word with aes.
Qed.

Lemma rcon_good : good 10 rcon.
Proof.
  split; [reflexivity|]. unfold rcon, is_word.
  repeat constructor; simpl; lia.
Qed.

Ltac step_rd L Hg :=
  match goal with
  | |- context [rd ?k ?i ≫= _] =>
      let v := fresh "v" in
      let E := fresh "E" in
      let W := fresh "W" in
      destruct (rd_good L k i Hg ltac:(lia)) as (v & E & W);
      rewrite E, bind_Ok; clear E
  end.

Ltac step_wr L Hg :=
  match goal with
  | |- context [wr ?k ?i ?x ≫= _] =>
      let k' := fresh "key" in
      let E := fresh "E" in
      let G := fresh "G" in
      destruct (wr_good L k i x Hg ltac:(lia)
                  ltac:(auto using sub_rot_word, sub_word_word with aes))
        as (k' & E & G);
      rewrite E, bind_Ok; clear E
  end.

Ltac step_xor L Hg :=
  match goal with
  | |- context [xor_into ?k ?rk ?d ?a ?b ≫= _] =>
      let k' := fresh "key" in
      let E := fresh "E" in
      let G := fresh "G" in
      destruct (xor_into_good L k rk d a b Hg ltac:(lia) ltac:(lia)
                  ltac:(lia)) as (k' & E & G);
      rewrite E, bind_Ok; clear E
  end.

Lemma expand_16 : forall fuel m j key,
  good 44 key -> 0 <= j -> 0 <= m -> j + m = 9 -> m < Z.of_nat fuel ->
  exists raw, expand fuel 16 key (4 * j) j = Ok raw /\ good 44 raw.
Proof.
  induction fuel as [|fuel IH]; intros m j key Hg Hj Hm Hjm Hf; [lia|].
  cbn [expand]. change (16 / 4) with 4.
  step_rd 44 Hg. step_rd 44 Hg.
  destruct (rd_good 10 rcon j rcon_good ltac:(lia)) as (c & -> & Hc).
  rewrite bind_Ok.
  step_wr 44 Hg. step_xor 44 G. step_xor 44 G0. step_xor 44 G1.
  rewrite (proj1 G2).
  destruct (Z.eqb_spec (4 * j + 4 + 4) 44) as [_|Hne]; [now eauto|].
  change (16 =? 24) with false. change (16 =? 32) with false.
  cbv iota. rewrite bind_Ok.
  replace (4 * j + 4) with (4 * (j + 1)) by lia.
  apply (IH (m - 1)); [assumption|lia..].
Qed.

Lemma expand_24 : forall fuel m j key,
  good 52 key -> 0 <= j -> 0 <= m -> j + m = 7 -> m < Z.of_nat fuel ->
  exists raw, expand fuel 24 key (6 * j) j = Ok raw /\ good 52 raw.
Proof.
  induction fuel as [|fuel IH]; intros m j key Hg Hj Hm Hjm Hf; [lia|].
  cbn [expand]. change (24 / 4) with 6.
  step_rd 52 Hg. step_rd 52 Hg.
  destruct (rd_good 10 rcon j rcon_good ltac:(lia)) as (c & -> & Hc).
  rewrite bind_Ok.
  step_wr 52 Hg. step_xor 52 G. step_xor 52 G0. step_xor 52 G1.
  rewrite (proj1 G2).
  destruct (Z.eqb_spec (6 * j + 6 + 4) 52) as [_|Hne]; [now eauto|].
  change (24 =? 24) with true. cbv iota.
  step_xor 52 G2. step_xor 52 G3.
  replace (6 * j + 6) with (6 * (j + 1)) by lia.
  apply (IH (m - 1)); [assumption|lia..].
Qed.

Lemma expand_32 : forall fuel m j key,
  good 60 key -> 0 <= j -> 0 <= m -> j + m = 6 -> m < Z.of_nat fuel ->
  exists raw, expand fuel 32 key (8 * j) j = Ok raw /\ good 60 raw.
Proof.
  induction fuel as [|fuel IH]; intros m j key Hg Hj Hm Hjm Hf; [lia|].
  cbn [expand]. change (32 / 4) with 8.
  step_rd 60 Hg. step_rd 60 Hg.
  destruct (rd_good 10 rcon j rcon_good ltac:(lia)) as (c & -> & Hc).
  rewrite bind_Ok.
  step_wr 60 Hg. step_xor 60 G. step_xor 60 G0. step_xor 60 G1.
  rewrite (proj1 G2).
  destruct (Z.eqb_spec (8 * j + 8 + 4) 60) as [_|Hne]; [now eauto|].
  change (32 =? 24) with false. change (32 =? 32) with true. cbv iota.
  step_rd 60 G2. step_rd 60 G2. step_wr 60 G2.
  step_xor 60 G3. step_xor 60 G4. step_xor 60 G5.
  replace (8 * j + 8) with (8 * (j + 1)) by lia.
  apply (IH (m - 1)); [assumption|lia..].
Qed.

Lemma GetUserKey_good : forall (n : nat) userKey,
  length userKey = (4 * n)%nat ->
  length (GetUserKey userKey) = n /\ Forall is_word (GetUserKey userKey).
Proof.
  induction n as [|n IH]; intros userKey H.
  - destruct userKey; [|discriminate]. split; [reflexivity|constructor].
  - do 4 (destruct userKey as [|? userKey]; [simpl in H; lia|]).
    destruct (IH userKey) as [Hl Hw]; [simpl in H; lia|].
    cbn [GetUserKey]. split; [simpl; now rewrite Hl|].
    constructor; [apply word_le_word|assumption].
Qed.

Lemma initial_key_good (n : nat) userKey L :
  length userKey = (4 * n)%nat -> Z.of_nat n <= L ->
  good L (GetUserKey userKey ++ replicate (Z.to_nat (L - Z.of_nat n)) 0).
Proof.
  intros H HL. destruct (GetUserKey_good n userKey H) as [Hl Hw]. split.
  - rewrite length_app, length_replicate, Hl. lia.
  - apply Forall_app. split; [assumption|].
    apply Forall_replicate. unfold is_word. lia.
Qed.

(** What [UncheckedSetKey] does with the expanded key. *)
Definition finish (dir : CipherDir) (rounds : Z) (key : list Z) : result t :=
  key ←
    match dir with
    | ENCRYPTION => Ok key
    | DECRYPTION =>
        key ← invert_order 8 key 0 (4 * rounds);
        inv_mix_keys (Z.to_nat (rounds - 1)) key 0
    end;
  key ← ConditionalByteReverse key 0;
  key ← ConditionalByteReverse key (rounds * 4);
  Ok {| m_rounds := rounds; m_key := key |}.

Fixpoint quads (l : list Z) : list quad :=
  match l with
  | a :: b :: c :: d :: l => (a, b, c, d) :: quads l
  | _ => []
  end.

Definition byte_reverse4 (k : quad) : quad :=
  let '(k0, k1, k2, k3) := k in
  (ByteReverse k0, ByteReverse k1, ByteReverse k2, ByteReverse k3).

Definition enc_schedule (q : list quad) : list Z :=
  match q with
  | k0 :: q =>
      match reverse q with
      | kR :: _ =>
          flat (byte_reverse4 k0 :: take (length q - 1) q ++ [byte_reverse4 kR])
      | [] => []
      end
  | [] => []
  end.

Definition dec_schedule (q : list quad) : list Z :=
  match q with
  | k0 :: q =>
      match reverse q with
      | kR :: q' =>
          flat (byte_reverse4 kR :: (inv_mix4 <$> q') ++ [byte_reverse4 k0])
      | [] => []
      end
  | [] => []
  end.

Lemma finish_16 raw :
  length raw = 44%nat ->
  finish ENCRYPTION 10 raw
  = Ok {| m_rounds := 10; m_key := enc_schedule (quads raw) |} /\
  finish DECRYPTION 10 raw
  = Ok {| m_rounds := 10; m_key := dec_schedule (quads raw) |}.
Proof.
  intros H. do 44 (destruct raw as [|? raw]; [discriminate|]).
  destruct raw; [|discriminate]. clear H.
  split.
  - lazy - [inv_mix_word ByteReverse]. reflexivity.
  - lazy - [inv_mix_word ByteReverse]. reflexivity.
Qed.

Lemma finish_24 raw :
  length raw = 52%nat ->
  finish ENCRYPTION 12 raw
  = Ok {| m_rounds := 12; m_key := enc_schedule (quads raw) |} /\
  finish DECRYPTION 12 raw
  = Ok {| m_rounds := 12; m_key := dec_schedule (quads raw) |}.
Proof.
  intros H. do 52 (destruct raw as [|? raw]; [discriminate|]).
  destruct raw; [|discriminate]. clear H.
  split; lazy - [inv_mix_word ByteReverse]; reflexivity.
Qed.

Lemma finish_32 raw :
  length raw = 60%nat ->
  finish ENCRYPTION 14 raw
  = Ok {| m_rounds := 14; m_key := enc_schedule (quads raw) |} /\
  finish DECRYPTION 14 raw
  = Ok {| m_rounds := 14; m_key := dec_schedule (quads raw) |}.
Proof.
  intros H. do 60 (destruct raw as [|? raw]; [discriminate|]).
  destruct raw; [|discriminate]. clear H.
  split; lazy - [inv_mix_word ByteReverse]; reflexivity.
Qed.

Lemma quads_good : forall (n : nat) raw,
  length raw = (4 * n)%nat -> Forall is_word raw ->
  length (quads raw) = n /\ Forall words4 (quads raw).
Proof.
  induction n as [|n IH]; intros raw H Hw.
  - destruct raw; [|discriminate]. split; [reflexivity|constructor].
  - do 4 (destruct raw as [|? raw]; [simpl in H; lia|]).
    do 4 (apply Forall_cons_1 in Hw as [? Hw]).
    destruct (IH raw) as [Hl Hq]; [simpl in H; lia|assumption|].
    cbn [quads]. split; [simpl; now rewrite Hl|].
    constructor; [|assumption]. unfold words4. auto.
Qed.

Lemma ByteReverse_word x : is_word (ByteReverse x).
Proof.
  assert (Hs : forall b k, is_byte b -> 0 <= k <= 24 ->
                           0 <= Z.shiftl b k < 2 ^ 32).
  { intros b k Hb Hk. unfold is_byte in Hb. rewrite Z.shiftl_mul_pow2 by lia.
    assert (0 < 2 ^ k) by (apply Z.pow_pos_nonneg; lia).
    assert (2 ^ k <= 2 ^ 24) by (apply Z.pow_le_mono_r; lia).
    change (2 ^ 32) with (256 * 2 ^ 24). nia. }
  unfold ByteReverse, is_word.
  repeat apply lor_range; try lia; try (apply Hs; [apply GETBYTE_range|lia]).
  pose proof (GETBYTE_range x 3) as Hb. unfold is_byte in Hb. simpl. lia.
Qed.

Lemma byte_reverse4_words k : words4 (byte_reverse4 k).
Proof.
  destruct k as [[[k0 k1] k2] k3]. unfold byte_reverse4, words4.
  split_and!; apply ByteReverse_word.
Qed.

Lemma quads_shape (q : list quad) m :
  length q = S (S (S (S m))) ->
  exists k0 k1 ks kl kR,
    q = k0 :: k1 :: ks ++ [kl; kR] /\ length ks = m.
Proof.
  intros H. destruct q as [|k0 [|k1 t]]; try discriminate.
  destruct (exists_last (l := t)) as (t' & kR & ->);
    [intros ->; discriminate|].
  destruct (exists_last (l := t')) as (ks & kl & ->).
  { intros ->. simpl in H. lia. }
  exists k0, k1, ks, kl, kR. split.
  - now rewrite <- app_assoc.
  - simpl in H. rewrite !length_app in H. simpl in H. lia.
Qed.

Lemma schedule_forms k0 k1 ks kl kR :
  enc_schedule (k0 :: k1 :: ks ++ [kl; kR])
  = flat (byte_reverse4 k0 :: k1 :: (ks ++ [kl]) ++ [byte_reverse4 kR]) /\
  dec_schedule (k0 :: k1 :: ks ++ [kl; kR])
  = flat (byte_reverse4 kR :: inv_mix4 kl
          :: ((inv_mix4 <$> reverse ks) ++ [inv_mix4 k1])
          ++ [byte_reverse4 k0]).
Proof.
  assert (E : k1 :: ks ++ [kl; kR] = (k1 :: ks ++ [kl]) ++ [kR])
    by (simpl; now rewrite <- app_assoc).
  assert (R : reverse (k1 :: ks ++ [kl]) = kl :: reverse ks ++ [k1])
    by now rewrite reverse_cons, reverse_app.
  unfold enc_schedule, dec_schedule. rewrite E, reverse_app, R. clear E R.
  set (l := k1 :: ks ++ [kl]). cbn [reverse rev_append app]. split.
  - rewrite take_app_length'; [reflexivity|].
    rewrite length_app. simpl. lia.
  - rewrite fmap_cons, fmap_app. reflexivity.
Qed.

Lemma set_key_16 userKey :
  length userKey = 16%nat ->
  exists raw, good 44 raw /\
    forall dir, UncheckedSetKey dir userKey = finish dir 10 raw.
Proof.
  intros H.
  destruct (expand_16 10 9 0 _ (initial_key_good 4 userKey 44 H ltac:(lia)))
    as (raw & E & G); try lia.
  exists raw. split; [assumption|]. intros dir.
  unfold UncheckedSetKey. rewrite H.
  transitivity (raw ← expand 10 16
                  (GetUserKey userKey
                   ++ replicate (Z.to_nat (44 - Z.of_nat 4)) 0) (4 * 0) 0;
                finish dir 10 raw); [reflexivity|].
  rewrite E. reflexivity.
Qed.

Lemma set_key_24 userKey :
  length userKey = 24%nat ->
  exists raw, good 52 raw /\
    forall dir, UncheckedSetKey dir userKey = finish dir 12 raw.
Proof.
  intros H.
  destruct (expand_24 10 7 0 _ (initial_key_good 6 userKey 52 H ltac:(lia)))
    as (raw & E & G); try lia.
  exists raw. split; [assumption|]. intros dir.
  unfold UncheckedSetKey. rewrite H.
  transitivity (raw ← expand 10 24
                  (GetUserKey userKey
                   ++ replicate (Z.to_nat (52 - Z.of_nat 6)) 0) (6 * 0) 0;
                finish dir 12 raw); [reflexivity|].
  rewrite E. reflexivity.
Qed.

Lemma set_key_32 userKey :
  length userKey = 32%nat ->
  exists raw, good 60 raw /\
    forall dir, UncheckedSetKey dir userKey = finish dir 14 raw.
Proof.
  intros H.
  destruct (expand_32 10 6 0 _ (initial_key_good 8 userKey 60 H ltac:(lia)))
    as (raw & E & G); try lia.
  exists raw. split; [assumption|]. intros dir.
  unfold UncheckedSetKey. rewrite H.
  transitivity (raw ← expand 10 32
                  (GetUserKey userKey
                   ++ replicate (Z.to_nat (60 - Z.of_nat 8)) 0) (8 * 0) 0;
                finish dir 14 raw); [reflexivity|].
  rewrite E. reflexivity.
Qed.

(** Both key schedules of a user key, in the shape [dec_enc_block] wants. *)
Lemma set_key_schedules userKey :
  length userKey = 16%nat \/ length userKey = 24%nat
  \/ length userKey = 32%nat ->
  exists (n : nat) k0 k1 ks kl kR,
    length ks = (2 * n + 1)%nat /\ Z.of_nat (S n) < 2 ^ 32 /\
    words4 k0 /\ words4 k1 /\ Forall words4 ks /\ words4 kl /\ words4 kR /\
    UncheckedSetKey ENCRYPTION userKey
    = Ok {| m_rounds := 2 * Z.of_nat (S n) + 2;
            m_key := flat (k0 :: k1 :: (ks ++ [kl]) ++ [kR]) |} /\
    UncheckedSetKey DECRYPTION userKey
    = Ok {| m_rounds := 2 * Z.of_nat (S n) + 2;
            m_key := flat (kR :: inv_mix4 kl
                           :: ((inv_mix4 <$> reverse ks) ++ [inv_mix4 k1])
                           ++ [k0]) |}.
Proof.
  assert (shape : forall (n : nat) raw,
             length raw = (4 * (2 * n + 5))%nat -> Forall is_word raw ->
             exists k0 k1 ks kl kR,
               length ks = (2 * n + 1)%nat /\
               words4 k0 /\ words4 k1 /\ Forall words4 ks /\ words4 kl /\
               words4 kR /\
               enc_schedule (quads raw)
               = flat (k0 :: k1 :: (ks ++ [kl]) ++ [kR]) /\
               dec_schedule (quads raw)
               = flat (kR :: inv_mix4 kl
                       :: ((inv_mix4 <$> reverse ks) ++ [inv_mix4 k1])
                       ++ [k0])).
  { intros n raw Hl Hw.
    destruct (quads_good _ raw Hl Hw) as [Hq Hqw].
    destruct (quads_shape (quads raw) (2 * n + 1)) as
      (k0 & k1 & ks & kl & kR & Eq & Hks); [rewrite Hq; lia|].
    rewrite Eq in Hqw |- *.
    apply Forall_cons_1 in Hqw as [W0 Hqw].
    apply Forall_cons_1 in Hqw as [W1 Hqw].
    apply Forall_app in Hqw as [Wks Hqw].
    apply Forall_cons_1 in Hqw as [Wl Hqw].
    apply Forall_cons_1 in Hqw as [WR _].
    destruct (schedule_forms k0 k1 ks kl kR) as [Ee Ed].
    exists (byte_reverse4 k0), k1, ks, kl, (byte_reverse4 kR).
    split_and!; auto using byte_reverse4_words. }
  intros [H|[H|H]].
  - destruct (set_key_16 userKey H) as (raw & [Hl Hw] & E).
    destruct (finish_16 raw ltac:(lia)) as [Fe Fd].
    destruct (shape 3%nat raw ltac:(lia) Hw)
      as (k0 & k1 & ks & kl & kR & ? & ? & ? & ? & ? & ? & Ee & Ed).
    exists 3%nat, k0, k1, ks, kl, kR.
    rewrite !E, Fe, Fd, Ee, Ed. split_and!; auto; simpl; lia.
  - destruct (set_key_24 userKey H) as (raw & [Hl Hw] & E).
    destruct (finish_24 raw ltac:(lia)) as [Fe Fd].
    destruct (shape 4%nat raw ltac:(lia) Hw)
      as (k0 & k1 & ks & kl & kR & ? & ? & ? & ? & ? & ? & Ee & Ed).
    exists 4%nat, k0, k1, ks, kl, kR.
    rewrite !E, Fe, Fd, Ee, Ed. split_and!; auto; simpl; lia.
  - destruct (set_key_32 userKey H) as (raw & [Hl Hw] & E).
    destruct (finish_32 raw ltac:(lia)) as [Fe Fd].
    destruct (shape 5%nat raw ltac:(lia) Hw)
      as (k0 & k1 & ks & kl & kR & ? & ? & ? & ? & ? & ? & Ee & Ed).
    exists 5%nat, k0, k1, ks, kl, kR.
    rewrite !E, Fe, Fd, Ee, Ed. split_and!; auto; simpl; lia.
Qed.

(** C2: for every user key of 16, 24 or 32 bytes and every 16-byte block
    [p], both key schedules are set up without error, encrypting [p] with no
    xor block succeeds, and decrypting the result with no xor block gives
    [p] back.  [cacheLineSize], the value of [GetCacheLineSize()], is any
    positive [int]. *)
Theorem decrypt_encrypt (cacheLineSize : Z) (userKey p : list byte) :
  0 < cacheLineSize < 2 ^ 31 ->
  length userKey = 16%nat \/ length userKey = 24%nat
  \/ length userKey = 32%nat ->
  length p = 16%nat ->
  exists ke kd c,
    UncheckedSetKey ENCRYPTION userKey = Ok ke /\
    UncheckedSetKey DECRYPTION userKey = Ok kd /\
    Enc.ProcessAndXorBlock cacheLineSize ke p None = Ok c /\
    Dec.ProcessAndXorBlock cacheLineSize kd c None = Ok p.
Proof.
  intros Hc Hk Hp.
  destruct (set_key_schedules userKey Hk)
    as (n & k0 & k1 & ks & kl & kR & Hks & Hn & W0 & W1 & Wks & Wl & WR
        & Ee & Ed).
  destruct (dec_enc_block cacheLineSize n k0 k1 ks kl kR p)
    as (c & Ec & Dc); try assumption.
  eexists _, _, c. rewrite Ee, Ed. split_and!; try reflexivity; assumption.
Qed.

Lemma decrypt_encrypt_witness :
  exists ke kd c,
    UncheckedSetKey ENCRYPTION (hex "2b7e151628aed2a6abf7158809cf4f3c") = Ok ke /\
    UncheckedSetKey DECRYPTION (hex "2b7e151628aed2a6abf7158809cf4f3c") = Ok kd /\
    Enc.ProcessAndXorBlock 64 ke (hex "6bc1bee22e409f96e93d7e117393172a") None
    = Ok c /\
    Dec.ProcessAndXorBlock 64 kd c None
    = Ok (hex "6bc1bee22e409f96e93d7e117393172a").
Proof.
  apply (decrypt_encrypt 64); [lia | left; reflexivity | reflexivity].
Defined.

(** ** Rijndael: known answer and table entries *)

(** The cache line size only paces the timing-attack countermeasure. *)
Lemma enc_cache_line cacheLineSize c p x :
  0 < cacheLineSize < 2 ^ 31 ->
  Enc.ProcessAndXorBlock cacheLineSize c p x = Enc.ProcessAndXorBlock 1 c p x.
Proof.
  intros H. unfold Enc.ProcessAndXorBlock.
  destruct (block_words p) as [[[[i0 i1] i2] i3]| |]; try reflexivity.
  rewrite !bind_Ok.
  destruct (m_key c) as [|rk0 [|rk1 [|rk2 [|rk3 [|rk4 [|rk5 [|rk6 [|rk7 rk]]]]]]]];
    try reflexivity.
  rewrite !preload_ok by lia. reflexivity.
Qed.

(** One-block encryption under a user key. *)
Definition encrypts_to (cacheLineSize : Z) (userKey p c : list byte) : Prop :=
  exists ke, UncheckedSetKey ENCRYPTION userKey = Ok ke /\
             Enc.ProcessAndXorBlock cacheLineSize ke p None = Ok c.

(** C1 as stated does not hold: the plaintext
    6bc1bee22e409f96e93d7e1173931722 encrypts to
    41969f7ab0551c80b56cf2a20f8fd192 and not to
    3ad77bb40d7a3660a89ecaf32466ef97. *)
Lemma kat_spec_plaintext :
  encrypts_to 64 (hex "2b7e151628aed2a6abf7158809cf4f3c")
    (hex "6bc1bee22e409f96e93d7e1173931722")
    (hex "41969f7ab0551c80b56cf2a20f8fd192") /\
  ~ encrypts_to 64 (hex "2b7e151628aed2a6abf7158809cf4f3c")
      (hex "6bc1bee22e409f96e93d7e1173931722")
      (hex "3ad77bb40d7a3660a89ecaf32466ef97").
Proof.
  split.
  - eexists. split; [vm_compute; reflexivity|].
    rewrite enc_cache_line by lia. vm_compute. reflexivity.
  - intros (ke & Hk & He). vm_compute in Hk. injection Hk as <-.
    rewrite enc_cache_line in He by lia. vm_compute in He. discriminate.
Qed.

(** C1, amended: under the 16-byte key 2b7e151628aed2a6abf7158809cf4f3c,
    set for encryption, [ProcessAndXorBlock] with no xor block maps the
    plaintext 6bc1bee22e409f96e93d7e117393172a to the ciphertext
    3ad77bb40d7a3660a89ecaf32466ef97. *)
Theorem kat_aes128 (cacheLineSize : Z) :
  0 < cacheLineSize < 2 ^ 31 ->
  encrypts_to cacheLineSize (hex "2b7e151628aed2a6abf7158809cf4f3c")
    (hex "6bc1bee22e409f96e93d7e117393172a")
    (hex "3ad77bb40d7a3660a89ecaf32466ef97").
Proof.
  intros H. eexists. split; [vm_compute; reflexivity|].
  rewrite enc_cache_line by exact H. vm_compute. reflexivity.
Qed.

Lemma kat_aes128_witness :
  encrypts_to 64 (hex "2b7e151628aed2a6abf7158809cf4f3c")
    (hex "6bc1bee22e409f96e93d7e117393172a")
    (hex "3ad77bb40d7a3660a89ecaf32466ef97").
Proof. apply (kat_aes128 64). lia. Defined.

Lemma FillEncTable_Te : FillEncTable (replicate 1024 0) = Te.
Proof. vm_compute. reflexivity. Qed.

(** C4 as stated does not hold: [Te[0]] is not
    [Se[0] | Se[0] << 8 | f2(Se[0]) << 16 | f3(Se[0]) << 24]. *)
Lemma enc_table_spec_formula :
  idx (FillEncTable (replicate 1024 0)) 0
  <> Z.lor (Z.lor (Z.lor (idx Se 0) (Z.shiftl (idx Se 0) 8))
                  (Z.shiftl (f2 (idx Se 0)) 16))
           (Z.shiftl (f3 (idx Se 0)) 24).
Proof. rewrite FillEncTable_Te. vm_compute. discriminate. Qed.

(** C4, amended: for every [i] in [0, 256), the table filler stores
    [f3(Se[i]) | Se[i] << 8 | Se[i] << 16 | f2(Se[i]) << 24] at [Te[i]]; the
    word [Se[i] | Se[i] << 8 | f2(Se[i]) << 16 | f3(Se[i]) << 24] is
    [Te[i + 256]], and [Te[i + 256 j]] is [Te[i]] rotated right by [8 j]
    bits, for [j = 1, 2, 3]. *)
Theorem enc_table_entries (i : Z) :
  0 <= i < 256 ->
  let T := FillEncTable (replicate 1024 0) in
  idx T i = Z.lor (Z.lor (Z.lor (f3 (idx Se i)) (Z.shiftl (idx Se i) 8))
                         (Z.shiftl (idx Se i) 16))
                  (Z.shiftl (f2 (idx Se i)) 24) /\
  idx T (i + 256) = Z.lor (Z.lor (Z.lor (idx Se i) (Z.shiftl (idx Se i) 8))
                                 (Z.shiftl (f2 (idx Se i)) 16))
                          (Z.shiftl (f3 (idx Se i)) 24) /\
  idx T (i + 256) = rotrFixed (idx T i) 8 /\
  idx T (i + 512) = rotrFixed (idx T i) 16 /\
  idx T (i + 768) = rotrFixed (idx T i) 24.
Proof.
  intros H. cbv zeta. rewrite FillEncTable_Te. revert i H.
  assert (C : forall i, is_byte i ->
     ((idx Te i =? Z.lor (Z.lor (Z.lor (f3 (idx Se i)) (Z.shiftl (idx Se i) 8))
                           (Z.shiftl (idx Se i) 16))
                    (Z.shiftl (f2 (idx Se i)) 24))
      && (idx Te (i + 256)
          =? Z.lor (Z.lor (Z.lor (idx Se i) (Z.shiftl (idx Se i) 8))
                          (Z.shiftl (f2 (idx Se i)) 16))
                   (Z.shiftl (f3 (idx Se i)) 24))
      && (idx Te (i + 256) =? rotrFixed (idx Te i) 8)
      && (idx Te (i + 512) =? rotrFixed (idx Te i) 16)
      && (idx Te (i + 768) =? rotrFixed (idx Te i) 24)) = true).
  { apply forall_bytes. vm_compute. reflexivity. }
  intros i Hi. specialize (C i Hi).
  rewrite !andb_true_iff, !Z.eqb_eq in C. tauto.
Qed.

Lemma enc_table_entries_witness :
  let T := FillEncTable (replicate 1024 0) in
  idx T 0 = Z.lor (Z.lor (Z.lor (f3 (idx Se 0)) (Z.shiftl (idx Se 0) 8))
                         (Z.shiftl (idx Se 0) 16))
                  (Z.shiftl (f2 (idx Se 0)) 24) /\
  idx T (0 + 256) = Z.lor (Z.lor (Z.lor (idx Se 0) (Z.shiftl (idx Se 0) 8))
                                 (Z.shiftl (f2 (idx Se 0)) 16))
                          (Z.shiftl (f3 (idx Se 0)) 24) /\
  idx T (0 + 256) = rotrFixed (idx T 0) 8 /\
  idx T (0 + 512) = rotrFixed (idx T 0) 16 /\
  idx T (0 + 768) = rotrFixed (idx T 0) 24.
Proof. apply (enc_table_entries 0). lia. Defined.

(** * Further properties of the code *)
(** ** Rijndael: the cache line size and the xor block *)

Lemma bind_Throw {A B} ex (f : A -> result B) : (Throw ex ≫= f) = Throw ex.
Proof. reflexivity. Qed.

Lemma bind_Fault {A B} (f : A -> result B) : (Fault ≫= f) = Fault.
Proof. reflexivity. Qed.

Lemma bind_ext {A B} (m : result A) (f g : A -> result B) :
  (forall a, f a = g a) -> (m ≫= f) = (m ≫= g).
Proof. intros H. destruct m; simpl; auto. Qed.

Lemma dec_cache_line cacheLineSize c p x :
  0 < cacheLineSize < 2 ^ 31 ->
  Dec.ProcessAndXorBlock cacheLineSize c p x = Dec.ProcessAndXorBlock 1 c p x.
Proof.
  intros H. unfold Dec.ProcessAndXorBlock.
  apply bind_ext. intros [[[i0 i1] i2] i3].
  destruct (m_key c) as [|rk0 [|rk1 [|rk2 [|rk3 [|rk4 [|rk5 [|rk6 [|rk7 rk]]]]]]]];
    try reflexivity.
  rewrite (preload_ok cacheLineSize (peek32 Td) 1024 H ltac:(lia) 1024%nat 0
             ltac:(lia) ltac:(lia)).
  rewrite (preload_ok 1 (peek32 Td) 1024 ltac:(lia) ltac:(lia) 1024%nat 0
             ltac:(lia) ltac:(lia)).
  rewrite !bind_Ok. cbv zeta.
  repeat match goal with
         | |- context [Dec.QUARTER_ROUND_first ?s ?a ?b ?c ?d] =>
             destruct (Dec.QUARTER_ROUND_first s a b c d) as [[[? ?] ?] ?]
         end.
  apply bind_ext. intros [[[[t0 t1] t2] t3] rk'].
  rewrite (preload_ok cacheLineSize Dec.peek32_Sd 256 H ltac:(lia) 256%nat 0
             ltac:(lia) ltac:(lia)).
  rewrite (preload_ok 1 Dec.peek32_Sd 256 ltac:(lia) ltac:(lia) 256%nat 0
             ltac:(lia) ltac:(lia)).
  reflexivity.
Qed.

(** X1: the cache line size only sets the stride of the table
    preload that guards against cache-timing attacks: for any two cache
    line sizes in [1, 2^31), [ProcessAndXorBlock] gives the same result (the
    same block or the same failure) for every key schedule, input and
    xor block, in the encryption and in the decryption direction. *)
Theorem cache_line_independent (n m : Z) c p x :
  0 < n < 2 ^ 31 -> 0 < m < 2 ^ 31 ->
  Enc.ProcessAndXorBlock n c p x = Enc.ProcessAndXorBlock m c p x /\
  Dec.ProcessAndXorBlock n c p x = Dec.ProcessAndXorBlock m c p x.
Proof.
  intros Hn Hm. split.
  - exact (eq_trans (enc_cache_line n c p x Hn)
             (eq_sym (enc_cache_line m c p x Hm))).
  - exact (eq_trans (dec_cache_line n c p x Hn)
             (eq_sym (dec_cache_line m c p x Hm))).
Qed.

Lemma cache_line_independent_witness :
  Enc.ProcessAndXorBlock 32 (mk 10 (replicate 44 0)) (replicate 16 x00) None
  = Enc.ProcessAndXorBlock 64 (mk 10 (replicate 44 0)) (replicate 16 x00) None /\
  Dec.ProcessAndXorBlock 32 (mk 10 (replicate 44 0)) (replicate 16 x00) None
  = Dec.ProcessAndXorBlock 64 (mk 10 (replicate 44 0)) (replicate 16 x00) None.
Proof.
  exact (cache_line_independent 32 64 (mk 10 (replicate 44 0))
           (replicate 16 x00) None ltac:(lia) ltac:(lia)).
Defined.

(** Byte-wise exclusive or of two blocks. *)
Definition xor_bytes (a b : list byte) : list byte :=
  zip_with (fun x y => Z_to_byte (Z.lxor (byte_to_Z x) (byte_to_Z y))) a b.

Lemma GETBYTE_word_le b0 b1 b2 b3 :
  GETBYTE (word_le b0 b1 b2 b3) 0 = byte_to_Z b0 /\
  GETBYTE (word_le b0 b1 b2 b3) 1 = byte_to_Z b1 /\
  GETBYTE (word_le b0 b1 b2 b3) 2 = byte_to_Z b2 /\
  GETBYTE (word_le b0 b1 b2 b3) 3 = byte_to_Z b3.
Proof.
  unfold word_le. rewrite lor_wsum by apply byte_to_Z_range.
  apply GETBYTE_wsum; apply byte_to_Z_range.
Qed.

Lemma word_bytes_xor t r b0 b1 b2 b3 :
  word_bytes (Z.lxor (Z.lxor t (word_le b0 b1 b2 b3)) r)
  = xor_bytes (word_bytes (Z.lxor t r)) [b0; b1; b2; b3].
Proof.
  destruct (GETBYTE_word_le b0 b1 b2 b3) as (E0 & E1 & E2 & E3).
  unfold word_bytes, xor_bytes. cbn [zip_with].
  rewrite !byte_to_Z_to_byte_small by apply GETBYTE_range.
  rewrite !GETBYTE_lxor, E0, E1, E2, E3.
  repeat (apply (f_equal2 cons); [apply (f_equal Z_to_byte); xor_solve|]).
  reflexivity.
Qed.

Lemma xor_bytes_app a a' b b' :
  length a = length b ->
  xor_bytes (a ++ a') (b ++ b') = xor_bytes a b ++ xor_bytes a' b'.
Proof. intros H. unfold xor_bytes. now apply zip_with_app. Qed.

Lemma xor_out_Some temp rk x out :
  length x = 16%nat -> xor_out temp None rk = Ok out ->
  xor_out temp (Some x) rk = Ok (xor_bytes out x).
Proof.
  intros Hx. unfold xor_out.
  destruct (block_words temp) as [[[[t0 t1] t2] t3]| |]; try discriminate.
  rewrite !bind_Ok.
  destruct rk as [|r0 [|r1 [|r2 [|r3 rk]]]]; try discriminate.
  intros H. injection H as <-.
  do 16 (destruct x as [|? x]; [discriminate|]).
  destruct x; [|discriminate].
  cbn [block_words]. rewrite bind_Ok, !word_bytes_xor.
  reflexivity.
Qed.

Lemma bind_Ok_step {A B} (m : result A) (f g : A -> result B) (P : B -> B -> Prop) :
  (forall a b, f a = Ok b -> exists b', g a = Ok b' /\ P b b') ->
  forall b, (m ≫= f) = Ok b -> exists b', (m ≫= g) = Ok b' /\ P b b'.
Proof. intros H b. destruct m as [a| |]; simpl; [apply H|discriminate..]. Qed.

Lemma enc_xor_block cacheLineSize c p x out :
  length x = 16%nat ->
  Enc.ProcessAndXorBlock cacheLineSize c p None = Ok out ->
  Enc.ProcessAndXorBlock cacheLineSize c p (Some x) = Ok (xor_bytes out x).
Proof.
  intros Hx H.
  cut (exists out', Enc.ProcessAndXorBlock cacheLineSize c p (Some x) = Ok out'
                    /\ out' = xor_bytes out x).
  { intros (out' & E & ->). exact E. }
  revert out H. unfold Enc.ProcessAndXorBlock.
  apply (bind_Ok_step _ _ _ (fun b b' => b' = xor_bytes b x)).
  intros [[[i0 i1] i2] i3].
  destruct (m_key c) as [|rk0 [|rk1 [|rk2 [|rk3 [|rk4 [|rk5 [|rk6 [|rk7 rk]]]]]]]];
    try discriminate.
  apply (bind_Ok_step _ _ _ (fun b b' => b' = xor_bytes b x)).
  intros u. cbv zeta.
  repeat match goal with
         | |- context [Enc.QUARTER_ROUND1 ?s ?a ?b ?c ?d] =>
             destruct (Enc.QUARTER_ROUND1 s a b c d) as [[[? ?] ?] ?]
         end.
  apply (bind_Ok_step _ _ _ (fun b b' => b' = xor_bytes b x)).
  intros [[[[t0 t1] t2] t3] rk'] out H. eexists. split; [|reflexivity].
  now apply xor_out_Some.
Qed.

Lemma dec_xor_block cacheLineSize c p x out :
  length x = 16%nat ->
  Dec.ProcessAndXorBlock cacheLineSize c p None = Ok out ->
  Dec.ProcessAndXorBlock cacheLineSize c p (Some x) = Ok (xor_bytes out x).
Proof.
  intros Hx H.
  cut (exists out', Dec.ProcessAndXorBlock cacheLineSize c p (Some x) = Ok out'
                    /\ out' = xor_bytes out x).
  { intros (out' & E & ->). exact E. }
  revert out H. unfold Dec.ProcessAndXorBlock.
  apply (bind_Ok_step _ _ _ (fun b b' => b' = xor_bytes b x)).
  intros [[[i0 i1] i2] i3].
  destruct (m_key c) as [|rk0 [|rk1 [|rk2 [|rk3 [|rk4 [|rk5 [|rk6 [|rk7 rk]]]]]]]];
    try discriminate.
  apply (bind_Ok_step _ _ _ (fun b b' => b' = xor_bytes b x)).
  intros u. cbv zeta.
  repeat match goal with
         | |- context [Dec.QUARTER_ROUND_first ?s ?a ?b ?c ?d] =>
             destruct (Dec.QUARTER_ROUND_first s a b c d) as [[[? ?] ?] ?]
         end.
  apply (bind_Ok_step _ _ _ (fun b b' => b' = xor_bytes b x)).
  intros [[[[t0 t1] t2] t3] rk'].
  apply (bind_Ok_step _ _ _ (fun b b' => b' = xor_bytes b x)).
  intros u' out H. eexists. split; [|reflexivity].
  now apply xor_out_Some.
Qed.

(** X2: with an xor block [x] of 16 bytes, [ProcessAndXorBlock]
    returns the block it returns without an xor block, xored bytewise with
    [x]; the same holds for encryption and for decryption. *)
Theorem xor_block_is_xored cacheLineSize c p x :
  length x = 16%nat ->
  (forall out, Enc.ProcessAndXorBlock cacheLineSize c p None = Ok out ->
     Enc.ProcessAndXorBlock cacheLineSize c p (Some x)
     = Ok (xor_bytes out x)) /\
  (forall out, Dec.ProcessAndXorBlock cacheLineSize c p None = Ok out ->
     Dec.ProcessAndXorBlock cacheLineSize c p (Some x)
     = Ok (xor_bytes out x)).
Proof.
  intros Hx. split; intros out H.
  - now apply enc_xor_block.
  - now apply dec_xor_block.
Qed.

Lemma xor_block_is_xored_witness :
  (forall out,
     Enc.ProcessAndXorBlock 64 (mk 10 (replicate 44 0)) (replicate 16 x00) None
     = Ok out ->
     Enc.ProcessAndXorBlock 64 (mk 10 (replicate 44 0)) (replicate 16 x00)
       (Some (replicate 16 xff))
     = Ok (xor_bytes out (replicate 16 xff))) /\
  (forall out,
     Dec.ProcessAndXorBlock 64 (mk 10 (replicate 44 0)) (replicate 16 x00) None
     = Ok out ->
     Dec.ProcessAndXorBlock 64 (mk 10 (replicate 44 0)) (replicate 16 x00)
       (Some (replicate 16 xff))
     = Ok (xor_bytes out (replicate 16 xff))).
Proof.
  exact (xor_block_is_xored 64 (mk 10 (replicate 44 0)) (replicate 16 x00)
           (replicate 16 xff) eq_refl).
Defined.

(** ** Rijndael: the decryption table and the key schedules *)

Lemma FillDecTable_Td : FillDecTable (replicate 1024 0) = Td.
Proof. vm_compute. reflexivity. Qed.

(** X3: [FillDecTable] on the zeroed table: for every [i] below
    256, entry [i] is the word whose bytes, from the low one, are the
    products of [Sd[i]] with 0x0b, 0x0d, 0x09 and 0x0e in GF(2^8), and the
    entries [i + 256], [i + 512] and [i + 768] are that word rotated right
    by 8, 16 and 24 bits. *)
Theorem dec_table_entries (i : Z) :
  0 <= i < 256 ->
  let T := FillDecTable (replicate 1024 0) in
  idx T i = Z.lor (Z.lor (Z.lor (fb (idx Sd i)) (Z.shiftl (fd (idx Sd i)) 8))
                         (Z.shiftl (f9 (idx Sd i)) 16))
                  (Z.shiftl (fe (idx Sd i)) 24) /\
  idx T (i + 256) = rotrFixed (idx T i) 8 /\
  idx T (i + 512) = rotrFixed (idx T i) 16 /\
  idx T (i + 768) = rotrFixed (idx T i) 24.
Proof.
  intros H. cbv zeta. rewrite FillDecTable_Td. revert i H.
  assert (C : forall i, is_byte i ->
     ((idx Td i
       =? Z.lor (Z.lor (Z.lor (fb (idx Sd i)) (Z.shiftl (fd (idx Sd i)) 8))
                       (Z.shiftl (f9 (idx Sd i)) 16))
                (Z.shiftl (fe (idx Sd i)) 24))
      && (idx Td (i + 256) =? rotrFixed (idx Td i) 8)
      && (idx Td (i + 512) =? rotrFixed (idx Td i) 16)
      && (idx Td (i + 768) =? rotrFixed (idx Td i) 24)) = true).
  { apply forall_bytes. vm_compute. reflexivity. }
  intros i Hi. specialize (C i Hi).
  rewrite !andb_true_iff, !Z.eqb_eq in C. tauto.
Qed.

Lemma dec_table_entries_witness :
  let T := FillDecTable (replicate 1024 0) in
  idx T 0 = Z.lor (Z.lor (Z.lor (fb (idx Sd 0)) (Z.shiftl (fd (idx Sd 0)) 8))
                         (Z.shiftl (f9 (idx Sd 0)) 16))
                  (Z.shiftl (fe (idx Sd 0)) 24) /\
  idx T (0 + 256) = rotrFixed (idx T 0) 8 /\
  idx T (0 + 512) = rotrFixed (idx T 0) 16 /\
  idx T (0 + 768) = rotrFixed (idx T 0) 24.
Proof. apply (dec_table_entries 0). lia. Defined.

Lemma flat_length ks : length (flat ks) = (4 * length ks)%nat.
Proof.
  induction ks as [|[[[? ?] ?] ?] ks IH]; [reflexivity|].
  simpl. rewrite IH. lia.
Qed.

Lemma flat_words ks : Forall words4 ks -> Forall is_word (flat ks).
Proof.
  induction 1 as [|[[[a b] c] d] ks (Ha & Hb & Hc & Hd) _ IH];
    [constructor|].
  cbn [flat]. repeat (constructor; [assumption|]). exact IH.
Qed.

Lemma inv_mix4_Forall ks : Forall words4 (inv_mix4 <$> ks).
Proof. apply Forall_fmap, Forall_forall. intros ? _. apply inv_mix4_words. Qed.

(** The result of [UncheckedSetKey], by key length. *)
Lemma set_key_cases dir userKey :
  length userKey = 16%nat \/ length userKey = 24%nat
  \/ length userKey = 32%nat ->
  exists raw,
    Forall is_word raw /\
    Z.of_nat (length raw) = 4 * (Z.of_nat (length userKey) / 4 + 7) /\
    UncheckedSetKey dir userKey
    = Ok {| m_rounds := Z.of_nat (length userKey) / 4 + 6;
            m_key := match dir with
                     | ENCRYPTION => enc_schedule (quads raw)
                     | DECRYPTION => dec_schedule (quads raw)
                     end |}.
Proof.
  intros [H|[H|H]].
  - destruct (set_key_16 userKey H) as (raw & [Hl Hw] & E).
    destruct (finish_16 raw ltac:(lia)) as [Fe Fd].
    exists raw. rewrite E, H. split; [assumption|]. split; [exact Hl|].
    destruct dir; assumption.
  - destruct (set_key_24 userKey H) as (raw & [Hl Hw] & E).
    destruct (finish_24 raw ltac:(lia)) as [Fe Fd].
    exists raw. rewrite E, H. split; [assumption|]. split; [exact Hl|].
    destruct dir; assumption.
  - destruct (set_key_32 userKey H) as (raw & [Hl Hw] & E).
    destruct (finish_32 raw ltac:(lia)) as [Fe Fd].
    exists raw. rewrite E, H. split; [assumption|]. split; [exact Hl|].
    destruct dir; assumption.
Qed.

Lemma schedule_lengths raw (n : nat) :
  length raw = (4 * (n + 4))%nat -> Forall is_word raw ->
  length (enc_schedule (quads raw)) = length raw /\
  length (dec_schedule (quads raw)) = length raw /\
  Forall is_word (enc_schedule (quads raw)) /\
  Forall is_word (dec_schedule (quads raw)).
Proof.
  intros Hl Hw.
  destruct (quads_good _ raw Hl Hw) as [Hq Hqw].
  destruct (quads_shape (quads raw) n) as
    (k0 & k1 & ks & kl & kR & Eq & Hks); [rewrite Hq; lia|].
  rewrite Eq in Hqw |- *.
  apply Forall_cons_1 in Hqw as [W0 Hqw].
  apply Forall_cons_1 in Hqw as [W1 Hqw].
  apply Forall_app in Hqw as [Wks Hqw].
  apply Forall_cons_1 in Hqw as [Wl Hqw].
  apply Forall_cons_1 in Hqw as [WR _].
  destruct (schedule_forms k0 k1 ks kl kR) as [-> ->].
  rewrite !flat_length, Hl. cbn [length].
  rewrite !length_app, length_fmap, length_reverse. cbn [length].
  split; [lia|]. split; [lia|]. split; apply flat_words.
  - repeat constructor; auto using byte_reverse4_words.
    apply Forall_app. split; [apply Forall_app; auto|].
    repeat constructor. apply byte_reverse4_words.
  - constructor; [apply byte_reverse4_words|].
    constructor; [apply inv_mix4_words|].
    apply Forall_app. split.
    + apply Forall_app. split; [apply inv_mix4_Forall|].
      repeat constructor. apply inv_mix4_words.
    + repeat constructor. apply byte_reverse4_words.
Qed.

(** X4: for a user key of 16, 24 or 32 bytes and either direction,
    [UncheckedSetKey] succeeds, the number of rounds is [keylen / 4 + 6]
    (10, 12 or 14), and the key schedule has [4 * (rounds + 1)] words, each
    of them a 32-bit value. *)
Theorem set_key_shape dir userKey :
  length userKey = 16%nat \/ length userKey = 24%nat
  \/ length userKey = 32%nat ->
  exists c,
    UncheckedSetKey dir userKey = Ok c /\
    m_rounds c = Z.of_nat (length userKey) / 4 + 6 /\
    Z.of_nat (length (m_key c)) = 4 * (m_rounds c + 1) /\
    Forall (fun w => 0 <= w < 2 ^ 32) (m_key c).
Proof.
  intros H. destruct (set_key_cases dir userKey H) as (raw & Hw & Hl & E).
  eexists. split; [exact E|]. cbn [m_rounds m_key].
  assert (Hn : exists n : nat, length raw = (4 * (n + 4))%nat).
  { destruct H as [H|[H|H]]; rewrite H in Hl;
      [exists 7%nat|exists 9%nat|exists 11%nat];
      apply Nat2Z.inj; rewrite Hl; reflexivity. }
  destruct Hn as [n Hn].
  destruct (schedule_lengths raw n Hn Hw) as (Le & Ld & We & Wd).
  split; [reflexivity|]. destruct dir.
  - rewrite Le, Hl. split; [lia|exact We].
  - rewrite Ld, Hl. split; [lia|exact Wd].
Qed.

Lemma set_key_shape_witness :
  exists c,
    UncheckedSetKey DECRYPTION (replicate 24 x00) = Ok c /\
    m_rounds c = Z.of_nat (length (replicate 24 x00)) / 4 + 6 /\
    Z.of_nat (length (m_key c)) = 4 * (m_rounds c + 1) /\
    Forall (fun w => 0 <= w < 2 ^ 32) (m_key c).
Proof.
  apply (set_key_shape DECRYPTION (replicate 24 x00)).
  right. left. reflexivity.
Defined.

(** X5: for a user key of 16, 24 or 32 bytes, the
    decryption key schedule is the encryption key schedule with the round
    keys in reverse order and InvMixColumns applied to every round key but
    the first and the last one; both schedules have the same number of
    rounds. *)
Theorem key_schedules_related userKey :
  length userKey = 16%nat \/ length userKey = 24%nat
  \/ length userKey = 32%nat ->
  exists ce cd first middle last,
    UncheckedSetKey ENCRYPTION userKey = Ok ce /\
    UncheckedSetKey DECRYPTION userKey = Ok cd /\
    m_rounds cd = m_rounds ce /\
    Z.of_nat (length middle) = m_rounds ce - 1 /\
    m_key ce = flat (first :: middle ++ [last]) /\
    m_key cd = flat (last :: (inv_mix4 <$> reverse middle) ++ [first]).
Proof.
  intros H.
  destruct (set_key_schedules userKey H)
    as (n & k0 & k1 & ks & kl & kR & Hks & Hn & W0 & W1 & Wks & Wl & WR
        & Ee & Ed).
  eexists _, _, k0, (k1 :: ks ++ [kl]), kR.
  split; [exact Ee|]. split; [exact Ed|]. cbn [m_rounds m_key].
  split; [reflexivity|]. split.
  - cbn [length]. rewrite length_app, Hks. cbn [length]. lia.
  - split; [reflexivity|].
    rewrite reverse_cons, reverse_app, fmap_app. cbn [reverse rev_append].
    reflexivity.
Qed.

Lemma key_schedules_related_witness :
  exists ce cd first middle last,
    UncheckedSetKey ENCRYPTION (replicate 32 x01) = Ok ce /\
    UncheckedSetKey DECRYPTION (replicate 32 x01) = Ok cd /\
    m_rounds cd = m_rounds ce /\
    Z.of_nat (length middle) = m_rounds ce - 1 /\
    m_key ce = flat (first :: middle ++ [last]) /\
    m_key cd = flat (last :: (inv_mix4 <$> reverse middle) ++ [first]).
Proof.
  apply (key_schedules_related (replicate 32 x01)). right. right. reflexivity.
Defined.

(** The expansion loop never writes below [rk + keylen/4]. *)
Lemma wr_take (key : list Z) i x key' (n : nat) :
  wr key i x = Ok key' -> Z.of_nat n <= i -> take n key' = take n key.
Proof.
  intros H Hn. apply wr_Ok_inv in H as [Hi ->].
  apply take_insert_ge. lia.
Qed.

Lemma xor_into_take key rk d a b key' (n : nat) :
  xor_into key rk d a b = Ok key' -> Z.of_nat n <= rk + d ->
  take n key' = take n key.
Proof.
  unfold xor_into. intros H Hn. inv_bind H. now apply (wr_take _ _ _ _ _ H).
Qed.

Lemma expand_keeps keylen (n : nat) :
  0 <= keylen / 4 ->
  forall fuel key rk rc raw,
    Z.of_nat n <= rk + keylen / 4 ->
    expand fuel keylen key rk rc = Ok raw -> take n raw = take n key.
Proof.
  intros HN. induction fuel as [|fuel IH]; intros key rk rc raw Hn H;
    [discriminate|].
  cbn [expand] in H.
  apply bind_Ok_inv in H as (temp & _ & H).
  apply bind_Ok_inv in H as (k0 & _ & H).
  apply bind_Ok_inv in H as (c & _ & H).
  apply bind_Ok_inv in H as (key1 & H1 & H).
  apply bind_Ok_inv in H as (key2 & H2 & H).
  apply bind_Ok_inv in H as (key3 & H3 & H).
  apply bind_Ok_inv in H as (key4 & H4 & H).
  assert (E4 : take n key4 = take n key).
  { rewrite (xor_into_take _ _ _ _ _ _ n H4) by lia.
    rewrite (xor_into_take _ _ _ _ _ _ n H3) by lia.
    rewrite (xor_into_take _ _ _ _ _ _ n H2) by lia.
    apply (wr_take _ _ _ _ n H1). lia. }
  destruct (_ =? Z.of_nat (length key4)); [now injection H as <-|].
  apply bind_Ok_inv in H as (key5 & H5 & H).
  rewrite (IH key5 (rk + keylen / 4) (rc + 1) raw ltac:(lia) H), <- E4.
  destruct (Z.eqb_spec keylen 24) as [->|_].
  - change (24 / 4) with 6 in *.
    apply bind_Ok_inv in H5 as (key6 & H6 & H5).
    rewrite (xor_into_take _ _ _ _ _ _ n H5) by lia.
    apply (xor_into_take _ _ _ _ _ _ n H6). lia.
  - destruct (Z.eqb_spec keylen 32) as [->|_]; [|now injection H5 as <-].
    change (32 / 4) with 8 in *.
    apply bind_Ok_inv in H5 as (t & _ & H5).
    apply bind_Ok_inv in H5 as (k4 & _ & H5).
    apply bind_Ok_inv in H5 as (key6 & H6 & H5).
    apply bind_Ok_inv in H5 as (key7 & H7 & H5).
    apply bind_Ok_inv in H5 as (key8 & H8 & H5).
    rewrite (xor_into_take _ _ _ _ _ _ n H5) by lia.
    rewrite (xor_into_take _ _ _ _ _ _ n H8) by lia.
    rewrite (xor_into_take _ _ _ _ _ _ n H7) by lia.
    apply (wr_take _ _ _ _ n H6). lia.
Qed.

Lemma ByteReverse_word_be b0 b1 b2 b3 :
  ByteReverse (word_be b0 b1 b2 b3) = word_le b0 b1 b2 b3.
Proof.
  unfold ByteReverse, word_be.
  destruct (GETBYTE_word_le b3 b2 b1 b0) as (-> & -> & -> & ->).
  unfold word_le. apply Z.bits_inj'. intros n Hn.
  rewrite !Z.lor_spec. btauto.
Qed.

Lemma quads_length : forall (n : nat) raw,
  length raw = (4 * n)%nat -> length (quads raw) = n.
Proof.
  induction n as [|n IH]; intros raw H.
  - now destruct raw.
  - do 4 (destruct raw as [|? raw]; [simpl in H; lia|]).
    cbn [quads length]. rewrite IH; [reflexivity|simpl in H; lia].
Qed.

Lemma enc_schedule_first raw (n : nat) :
  length raw = (4 * (n + 2))%nat ->
  take 4 (enc_schedule (quads raw)) = ByteReverse <$> take 4 raw.
Proof.
  intros H. do 4 (destruct raw as [|? raw]; [simpl in H; lia|]).
  cbn [quads enc_schedule].
  assert (Hq : length (quads raw) = S n)
    by (apply quads_length; simpl in H; lia).
  destruct (reverse (quads raw)) as [|kR q'] eqn:E.
  - apply (f_equal length) in E. rewrite length_reverse, Hq in E.
    discriminate.
  - reflexivity.
Qed.

Lemma set_key_raw userKey :
  length userKey = 16%nat \/ length userKey = 24%nat
  \/ length userKey = 32%nat ->
  exists raw c (n : nat),
    take 4 raw = take 4 (GetUserKey userKey) /\
    length raw = (4 * (n + 2))%nat /\
    UncheckedSetKey ENCRYPTION userKey = Ok c /\
    m_key c = enc_schedule (quads raw).
Proof.
  intros [H|[H|H]].
  - destruct (expand_16 10 9 0 _ (initial_key_good 4 userKey 44 H ltac:(lia)))
      as (raw & E & [Hl Hw]); try lia.
    destruct (finish_16 raw ltac:(lia)) as [Fe _].
    assert (K := fun H0 H1 => expand_keeps 16 4 H0 _ _ _ _ _ H1 E).
    specialize (K ltac:(vm_compute; discriminate)
                  ltac:(vm_compute; discriminate)).
    destruct (GetUserKey_good 4 userKey H) as [Hg _].
    rewrite take_app_le in K by lia.
    exists raw, {| m_rounds := 10; m_key := enc_schedule (quads raw) |}, 9%nat.
    split; [exact K|]. split; [lia|]. split; [|reflexivity].
    rewrite <- Fe. unfold UncheckedSetKey. rewrite H.
    transitivity (raw ← expand 10 16
                    (GetUserKey userKey
                     ++ replicate (Z.to_nat (44 - Z.of_nat 4)) 0) (4 * 0) 0;
                  finish ENCRYPTION 10 raw); [reflexivity|].
    rewrite E. reflexivity.
  - destruct (expand_24 10 7 0 _ (initial_key_good 6 userKey 52 H ltac:(lia)))
      as (raw & E & [Hl Hw]); try lia.
    destruct (finish_24 raw ltac:(lia)) as [Fe _].
    assert (K := fun H0 H1 => expand_keeps 24 4 H0 _ _ _ _ _ H1 E).
    specialize (K ltac:(vm_compute; discriminate)
                  ltac:(vm_compute; discriminate)).
    destruct (GetUserKey_good 6 userKey H) as [Hg _].
    rewrite take_app_le in K by lia.
    exists raw, {| m_rounds := 12; m_key := enc_schedule (quads raw) |}, 11%nat.
    split; [exact K|]. split; [lia|]. split; [|reflexivity].
    rewrite <- Fe. unfold UncheckedSetKey. rewrite H.
    transitivity (raw ← expand 10 24
                    (GetUserKey userKey
                     ++ replicate (Z.to_nat (52 - Z.of_nat 6)) 0) (6 * 0) 0;
                  finish ENCRYPTION 12 raw); [reflexivity|].
    rewrite E. reflexivity.
  - destruct (expand_32 10 6 0 _ (initial_key_good 8 userKey 60 H ltac:(lia)))
      as (raw & E & [Hl Hw]); try lia.
    destruct (finish_32 raw ltac:(lia)) as [Fe _].
    assert (K := fun H0 H1 => expand_keeps 32 4 H0 _ _ _ _ _ H1 E).
    specialize (K ltac:(vm_compute; discriminate)
                  ltac:(vm_compute; discriminate)).
    destruct (GetUserKey_good 8 userKey H) as [Hg _].
    rewrite take_app_le in K by lia.
    exists raw, {| m_rounds := 14; m_key := enc_schedule (quads raw) |}, 13%nat.
    split; [exact K|]. split; [lia|]. split; [|reflexivity].
    rewrite <- Fe. unfold UncheckedSetKey. rewrite H.
    transitivity (raw ← expand 10 32
                    (GetUserKey userKey
                     ++ replicate (Z.to_nat (60 - Z.of_nat 8)) 0) (8 * 0) 0;
                  finish ENCRYPTION 14 raw); [reflexivity|].
    rewrite E. reflexivity.
Qed.

(** X6: for a user key of 16, 24 or 32 bytes, the first round
    key of the encryption schedule is the first 16 bytes of the user key,
    as the four words in which [ProcessAndXorBlock] reads a block. *)
Theorem first_round_key userKey :
  length userKey = 16%nat \/ length userKey = 24%nat
  \/ length userKey = 32%nat ->
  exists c w0 w1 w2 w3,
    UncheckedSetKey ENCRYPTION userKey = Ok c /\
    block_words userKey = Ok (w0, w1, w2, w3) /\
    take 4 (m_key c) = [w0; w1; w2; w3].
Proof.
  intros H.
  destruct (set_key_raw userKey H) as (raw & c & n & K & Hl & E & Ek).
  assert (H16 : (16 <= length userKey)%nat) by lia.
  do 16 (destruct userKey as [|? userKey]; [simpl in H16; lia|]).
  eexists c, _, _, _, _. split; [exact E|]. split; [reflexivity|].
  rewrite Ek, (enc_schedule_first raw n Hl), K. cbn [GetUserKey take fmap list_fmap].
  rewrite !ByteReverse_word_be. reflexivity.
Qed.

Lemma first_round_key_witness :
  exists c w0 w1 w2 w3,
    UncheckedSetKey ENCRYPTION (hex "2b7e151628aed2a6abf7158809cf4f3c") = Ok c /\
    block_words (hex "2b7e151628aed2a6abf7158809cf4f3c") = Ok (w0, w1, w2, w3) /\
    take 4 (m_key c) = [w0; w1; w2; w3].
Proof. apply first_round_key. left. reflexivity. Defined.

(** ** Rijndael: encryption undoes decryption *)

Lemma Se_Sd : forall x, is_byte x -> idx Se (idx Sd x) = x.
Proof. by_bytes. Qed.

(** [Te[j*256 + Sd[b]]] is column [j] of MixColumns applied to [b]. *)
Lemma Te_Sd_word_0 : forall b, is_byte b ->
  Enc.TL 0 (idx Sd b) = pack (f3 b) b b (f2 b).
Proof. by_bytes. Qed.
Lemma Te_Sd_word_1 : forall b, is_byte b ->
  Enc.TL 1 (idx Sd b) = pack b b (f2 b) (f3 b).
Proof. by_bytes. Qed.
Lemma Te_Sd_word_2 : forall b, is_byte b ->
  Enc.TL 2 (idx Sd b) = pack b (f2 b) (f3 b) b.
Proof. by_bytes. Qed.
Lemma Te_Sd_word_3 : forall b, is_byte b ->
  Enc.TL 3 (idx Sd b) = pack (f2 b) (f3 b) b b.
Proof. by_bytes. Qed.

(** MixColumns of one word, through the encryption table. *)
Definition mix_word (w : Z) : Z :=
  Z.lxor (Z.lxor (Z.lxor (Enc.TL 0 (sd w 3)) (Enc.TL 1 (sd w 2)))
                 (Enc.TL 2 (sd w 1))) (Enc.TL 3 (sd w 0)).

Lemma mix_word_lxor a b :
  mix_word (Z.lxor a b) = Z.lxor (mix_word a) (mix_word b).
Proof.
  unfold mix_word, sd. rewrite !GETBYTE_lxor.
  rewrite !Te_Sd_word_0, !Te_Sd_word_1, !Te_Sd_word_2, !Te_Sd_word_3
    by first [apply GETBYTE_range | apply lxor_byte; apply GETBYTE_range].
  rewrite !f2_lxor, !f3_lxor, !pack_lxor. xor_solve.
Qed.

Lemma mix_Td_0 : forall b, is_byte b ->
  mix_word (idx Td (0 * 256 + idx Se b)) = Z.shiftl b 24.
Proof. by_bytes. Qed.
Lemma mix_Td_1 : forall b, is_byte b ->
  mix_word (idx Td (1 * 256 + idx Se b)) = Z.shiftl b 16.
Proof. by_bytes. Qed.
Lemma mix_Td_2 : forall b, is_byte b ->
  mix_word (idx Td (2 * 256 + idx Se b)) = Z.shiftl b 8.
Proof. by_bytes. Qed.
Lemma mix_Td_3 : forall b, is_byte b ->
  mix_word (idx Td (3 * 256 + idx Se b)) = b.
Proof. by_bytes. Qed.

Lemma mix_inv w : is_word w -> mix_word (inv_mix_word w) = w.
Proof.
  intros H. unfold inv_mix_word.
  rewrite !mix_word_lxor, mix_Td_0, mix_Td_1, mix_Td_2, mix_Td_3
    by apply GETBYTE_range.
  rewrite <- (pack_GETBYTE w H) at 5. unfold pack. xor_solve.
Qed.

Lemma enc_col_mix k w :
  enc_col k (sd w 3) (sd w 2) (sd w 1) (sd w 0) = Z.lxor k (mix_word w).
Proof. unfold enc_col, mix_word. xor_solve. Qed.

Lemma dec_col_packed k x0 x1 x2 x3 :
  is_byte x0 -> is_byte x1 -> is_byte x2 -> is_byte x3 ->
  dec_col (inv_mix_word k) x0 x1 x2 x3
  = inv_mix_word
      (Z.lxor k (pack (idx Sd x3) (idx Sd x2) (idx Sd x1) (idx Sd x0))).
Proof.
  intros H0 H1 H2 H3. rewrite inv_mix_word_lxor.
  unfold inv_mix_word at 3. unpack. rewrite !Se_Sd by assumption.
  unfold dec_col. xor_solve.
Qed.

Lemma enc_dec_col k x0 x1 x2 x3 :
  is_word k -> is_byte x0 -> is_byte x1 -> is_byte x2 -> is_byte x3 ->
  let w := dec_col (inv_mix_word k) x0 x1 x2 x3 in
  enc_col k (sd w 3) (sd w 2) (sd w 1) (sd w 0)
  = pack (idx Sd x3) (idx Sd x2) (idx Sd x1) (idx Sd x0).
Proof.
  intros Hk H0 H1 H2 H3 w. rewrite enc_col_mix. unfold w.
  rewrite dec_col_packed, mix_inv by auto using pack_word with aes.
  xor_solve.
Qed.

(** The inverses of SubBytes and ShiftRows on a state held in big-endian
    words ([inv_sub_shift]) and on one held in little-endian words
    ([inv_sub_from_le]), both giving big-endian words. *)
Definition inv_sub_shift (t : quad) : quad :=
  let '(t0, t1, t2, t3) := t in
  (pack (sd t1 0) (sd t2 1) (sd t3 2) (sd t0 3),
   pack (sd t2 0) (sd t3 1) (sd t0 2) (sd t1 3),
   pack (sd t3 0) (sd t0 1) (sd t1 2) (sd t2 3),
   pack (sd t0 0) (sd t1 1) (sd t2 2) (sd t3 3)).

Definition inv_sub_from_le (s : quad) : quad :=
  let '(s0, s1, s2, s3) := s in
  (pack (sd s1 3) (sd s2 2) (sd s3 1) (sd s0 0),
   pack (sd s2 3) (sd s3 2) (sd s0 1) (sd s1 0),
   pack (sd s3 3) (sd s0 2) (sd s1 1) (sd s2 0),
   pack (sd s0 3) (sd s1 2) (sd s2 1) (sd s3 0)).

Lemma enc_dec_round k t :
  words4 k ->
  enc_round k (inv_sub_shift (dec_round (inv_mix4 k) t)) = inv_sub_shift t.
Proof.
  destruct k as [[[k0 k1] k2] k3], t as [[[t0 t1] t2] t3].
  intros (K0 & K1 & K2 & K3).
  unfold enc_round, inv_mix4, inv_sub_shift, dec_round. unpack.
  apply quad_eq; apply enc_dec_col; auto with aes.
Qed.

Lemma enc_first_dec_round k t :
  words4 k ->
  enc_first k (inv_sub_shift_le (dec_round (inv_mix4 k) t)) = inv_sub_shift t.
Proof.
  destruct k as [[[k0 k1] k2] k3], t as [[[t0 t1] t2] t3].
  intros (K0 & K1 & K2 & K3).
  unfold enc_first, inv_mix4, inv_sub_shift_le, inv_sub_shift, dec_round.
  unpack. apply quad_eq; apply enc_dec_col; auto with aes.
Qed.

Lemma enc_round_dec_first k x :
  words4 k ->
  enc_round k (inv_sub_shift (dec_first (inv_mix4 k) x)) = inv_sub_from_le x.
Proof.
  destruct k as [[[k0 k1] k2] k3], x as [[[x0 x1] x2] x3].
  intros (K0 & K1 & K2 & K3).
  unfold enc_round, inv_mix4, inv_sub_shift, inv_sub_from_le, dec_first.
  unpack. apply quad_eq; apply enc_dec_col; auto with aes.
Qed.

Lemma sub_shift_le_inv x : words4 x -> sub_shift_le (inv_sub_from_le x) = x.
Proof.
  destruct x as [[[x0 x1] x2] x3]. intros (H0 & H1 & H2 & H3).
  unfold sub_shift_le, inv_sub_from_le, sb. unpack. unfold sd.
  rewrite !Se_Sd by auto with aes.
  apply quad_eq; now apply pack_GETBYTE.
Qed.

Lemma inv_sub_shift_le_words t : words4 (inv_sub_shift_le t).
Proof.
  destruct t as [[[t0 t1] t2] t3]. unfold inv_sub_shift_le, words4.
  split_and!; apply pack_word; auto with aes.
Qed.

Lemma enc_dec_chain ks :
  Forall words4 ks ->
  forall t,
    enc_chain ks (inv_sub_shift (dec_chain (inv_mix4 <$> reverse ks) t))
    = inv_sub_shift t.
Proof.
  induction 1 as [|k ks Hk _ IH]; intros t; [reflexivity|].
  rewrite reverse_cons, fmap_app. cbn [fmap list_fmap].
  rewrite dec_chain_snoc. unfold enc_chain at 1. cbn [foldl].
  fold (enc_chain ks). rewrite enc_dec_round by assumption. apply IH.
Qed.

Lemma enc_dec_block cacheLineSize n k0 k1 ks kl kR c :
  0 < cacheLineSize < 2 ^ 31 ->
  length ks = (2 * n + 1)%nat -> Z.of_nat (S n) < 2 ^ 32 ->
  words4 k0 -> words4 k1 -> Forall words4 ks -> words4 kl -> words4 kR ->
  length c = 16%nat ->
  exists p,
    Dec.ProcessAndXorBlock cacheLineSize
      {| m_rounds := 2 * Z.of_nat (S n) + 2;
         m_key := flat (kR :: inv_mix4 kl
                        :: ((inv_mix4 <$> reverse ks) ++ [inv_mix4 k1])
                        ++ [k0]) |} c None = Ok p /\
    Enc.ProcessAndXorBlock cacheLineSize
      {| m_rounds := 2 * Z.of_nat (S n) + 2;
         m_key := flat (k0 :: k1 :: (ks ++ [kl]) ++ [kR]) |} p None = Ok c.
Proof.
  intros Hc Hlen Hn H0 H1 Hks Hl HR Hp.
  destruct (block_words_total c Hp) as (x & Hx & Hxw & Hout).
  eexists. split.
  - apply dec_block; try eassumption.
    + rewrite length_app, length_fmap, length_reverse. simpl. lia.
    + apply inv_mix4_words.
    + apply Forall_app. split; [apply inv_mix4_Forall|].
      repeat constructor. apply inv_mix4_words.
    + now apply quad_xor_words.
  - rewrite (enc_block cacheLineSize n k0 k1 (ks ++ [kl]) kR _
               (quad_xor
                  (inv_sub_shift_le
                     (dec_chain ((inv_mix4 <$> reverse ks) ++ [inv_mix4 k1])
                        (dec_first (inv_mix4 kl) (quad_xor x kR))))
                  k0)).
    + rewrite quad_xor_cancel, dec_chain_snoc, enc_first_dec_round
        by assumption.
      rewrite enc_chain_snoc, enc_dec_chain, enc_round_dec_first
        by assumption.
      rewrite sub_shift_le_inv by now apply quad_xor_words.
      rewrite quad_xor_cancel, Hout. reflexivity.
    + exact Hc.
    + rewrite length_app. simpl. lia.
    + exact Hn.
    + exact H1.
    + apply Forall_app. auto.
    + apply block_words_out. apply quad_xor_words; [|exact H0].
      apply inv_sub_shift_le_words.
    + rewrite quad_xor_cancel. apply inv_sub_shift_le_words.
Qed.

(** X7: encryption undoes decryption: for every user key of 16,
    24 or 32 bytes, every cache line size in [1, 2^31) and every block [c]
    of 16 bytes, both key setups succeed, decrypting [c] succeeds, and
    encrypting the result gives [c] back. *)
Theorem encrypt_decrypt (cacheLineSize : Z) (userKey c : list byte) :
  0 < cacheLineSize < 2 ^ 31 ->
  length userKey = 16%nat \/ length userKey = 24%nat
  \/ length userKey = 32%nat ->
  length c = 16%nat ->
  exists ke kd p,
    UncheckedSetKey ENCRYPTION userKey = Ok ke /\
    UncheckedSetKey DECRYPTION userKey = Ok kd /\
    Dec.ProcessAndXorBlock cacheLineSize kd c None = Ok p /\
    Enc.ProcessAndXorBlock cacheLineSize ke p None = Ok c.
Proof.
  intros Hc Hk Hp.
  destruct (set_key_schedules userKey Hk)
    as (n & k0 & k1 & ks & kl & kR & Hks & Hn & W0 & W1 & Wks & Wl & WR
        & Ee & Ed).
  destruct (enc_dec_block cacheLineSize n k0 k1 ks kl kR c)
    as (p & Dp & Ep); try assumption.
  eexists _, _, p. rewrite Ee, Ed. split_and!; try reflexivity; assumption.
Qed.

Lemma encrypt_decrypt_witness :
  exists ke kd p,
    UncheckedSetKey ENCRYPTION (hex "2b7e151628aed2a6abf7158809cf4f3c") = Ok ke /\
    UncheckedSetKey DECRYPTION (hex "2b7e151628aed2a6abf7158809cf4f3c") = Ok kd /\
    Dec.ProcessAndXorBlock 64 kd (hex "3ad77bb40d7a3660a89ecaf32466ef97") None
    = Ok p /\
    Enc.ProcessAndXorBlock 64 ke p None
    = Ok (hex "3ad77bb40d7a3660a89ecaf32466ef97").
Proof.
  apply (encrypt_decrypt 64); [lia | left; reflexivity | reflexivity].
Defined.

(** ** The decoder: initialisation and the lookup array *)

(** X8: [BaseN_Decoder::IsolatedInitialize] with both
    parameters given: a [Log2Base] outside [1, 7] is refused with
    [InvalidArgument]; for [b] in [1, 7] the decoder keeps the lookup array
    and [b], starts with the cursor at byte 0, bit 0, and its output block
    has [lcm(8, b) / 8] bytes, which is also the length of its buffer. *)
Theorem decoder_initialize lookup b :
  (b <= 0 \/ 8 <= b ->
   D.IsolatedInitialize (D.mkParams (Some lookup) (Some b))
   = Throw (InvalidArgument
              "BaseN_Decoder: Log2Base must be between 1 and 7 inclusive")) /\
  (1 <= b <= 7 ->
   exists d,
     D.IsolatedInitialize (D.mkParams (Some lookup) (Some b)) = Ok d /\
     D.m_lookup d = lookup /\ D.m_bitsPerChar d = b /\
     D.m_bytePos d = 0 /\ D.m_bitPos d = 0 /\
     8 * D.m_outputBlockSize d = Z.lcm 8 b /\
     Z.of_nat (length (D.m_outBuf d)) = D.m_outputBlockSize d).
Proof.
  split.
  - intros H. unfold D.IsolatedInitialize. cbn [D.DecodingLookupArray D.Log2Base].
    unfold GetRequiredParameter. rewrite !bind_Ok.
    destruct (Z.leb_spec b 0); [reflexivity|].
    destruct (Z.leb_spec 8 b); [reflexivity|lia].
  - intros H.
    assert (C : b = 1 \/ b = 2 \/ b = 3 \/ b = 4 \/ b = 5 \/ b = 6 \/ b = 7)
      by lia.
    destruct C as [->|[->|[->|[->|[->|[->| ->]]]]]];
      (eexists; split; [vm_compute; reflexivity|]);
      split_and!; reflexivity.
Qed.



(** ** The decoder on arbitrary input *)

(** The characters the decoder does not skip. *)
Definition listed (lookup : list Z) (c : byte) : bool :=
  match rd lookup (byte_to_Z c) with
  | Ok entry => to_unsigned entry <? 256
  | _ => false
  end.

Definition entry_ok (bound v : Z) : Prop := v = -1 \/ 0 <= v < bound.

Lemma register_bounded bound lookup k i lookup' :
  D.register lookup k i = Ok lookup' -> 0 <= i < bound ->
  Forall (entry_ok bound) lookup -> Forall (entry_ok bound) lookup'.
Proof.
  intros H Hi Hl. apply register_inv in H as (_ & _ & ->).
  apply Forall_insert; [exact Hl|]. right. exact Hi.
Qed.

Lemma fill_lookup_bounded ci alphabet bound :
  forall n i lookup lookup',
    0 <= i -> i + Z.of_nat n <= bound ->
    Forall (entry_ok bound) lookup ->
    D.fill_lookup ci alphabet n i lookup = Ok lookup' ->
    Forall (entry_ok bound) lookup'.
Proof.
  induction n as [|n IH]; intros i lookup lookup' Hi Hn Hl H.
  - now injection H as <-.
  - cbn [D.fill_lookup] in H.
    apply bind_Ok_inv in H as (a & Ha & H).
    apply bind_Ok_inv in H as (l1 & H1 & H).
    apply (IH (i + 1) l1 lookup'); [lia|lia| |exact H].
    destruct (ci && D.isalpha (byte_to_Z a)).
    + apply bind_Ok_inv in H1 as (l0 & H0 & H1).
      apply (register_bounded bound _ _ _ _ H1); [lia|].
      apply (register_bounded bound _ _ _ _ H0); [lia|exact Hl].
    + apply (register_bounded bound _ _ _ _ H1); [lia|exact Hl].
Qed.

Lemma lookup_bounded alphabet base ci lookup :
  0 <= base ->
  D.InitializeDecodingLookupArray alphabet base ci = Ok lookup ->
  length lookup = 256%nat /\ Forall (entry_ok base) lookup.
Proof.
  intros Hb H. split; [apply (lookup_built _ _ _ _ Hb H)|].
  unfold D.InitializeDecodingLookupArray in H.
  apply (fill_lookup_bounded ci alphabet base (Z.to_nat base) 0
           (replicate 256 (-1)) lookup); [lia|lia| |exact H].
  apply Forall_replicate. now left.
Qed.

Lemma dec_loop_count bpc Kn B lookup :
  1 <= bpc <= 7 -> Z.of_nat Kn * 8 = B * bpc ->
  length lookup = 256%nat -> Forall (entry_ok (2 ^ bpc)) lookup ->
  forall s d sy,
    dec_inv bpc Kn B d sy -> D.m_lookup d = lookup ->
    exists d' outs sy' q,
      D.put_loop d s = Ok (d', outs) /\
      dec_inv bpc Kn B d' sy' /\ D.m_lookup d' = lookup /\ 0 <= q /\
      Z.of_nat (length (emitted outs)) = Z.of_nat Kn * q /\
      Z.of_nat (length sy) + Z.of_nat (length (List.filter (listed lookup) s))
      = B * q + Z.of_nat (length sy').
Proof.
  intros Hb HK Hl Hent. induction s as [|c s IH]; intros d sy Hd Hlk.
  - exists d, [], sy, 0. split; [reflexivity|]. split_and!; auto; try lia.
    + change (emitted []) with (@nil byte). cbn [length]. lia.
    + cbn [List.filter length]. lia.
  - pose proof (byte_to_Z_range c) as Hc.
    destruct (lookup_lt_is_Some_2 lookup (Z.to_nat (byte_to_Z c)))
      as [entry He]; [lia|].
    assert (Hr : rd lookup (byte_to_Z c) = Ok entry).
    { rewrite <- (Z2Nat.id (byte_to_Z c)) by lia. now apply rd_lookup. }
    pose proof (Forall_lookup_1 _ _ _ _ Hent He) as [->|Hv].
    + (* skipped *)
      assert (Hi : D.put_byte d c = Ok (d, [])).
      { apply (dec_ignore d c (-1)); [now rewrite Hlk|now vm_compute]. }
      destruct (IH d sy Hd Hlk) as (d' & outs & sy' & q & Hp & Hd' & Hl' & Hq
                                    & Hlen & Hcnt).
      exists d', outs, sy', q. cbn [D.put_loop].
      rewrite Hi, bind_Ok. cbn beta iota. rewrite Hp, bind_Ok.
      split; [reflexivity|]. split_and!; auto.
      cbn [List.filter]. unfold listed at 1. rewrite Hr.
      change (to_unsigned (-1) <? 256) with false. cbv iota. exact Hcnt.
    + pose proof (pow2_le_128 bpc Hb) as Hp2.
      assert (Hu : to_unsigned entry = entry)
        by (apply to_unsigned_small; lia).
      destruct (dec_put_byte_ok bpc Kn B d sy c entry entry Hb HK Hd
                  ltac:(now rewrite Hlk) Hu Hv)
        as (d1 & out1 & Hp1 & Hl1 & Hcase).
      assert (Hlist : listed lookup c = true).
      { unfold listed. rewrite Hr, Hu. apply Z.ltb_lt. lia. }
      destruct Hcase as [(Hlt & -> & Hd1)|(Heq & Hd1 & bytes & -> & Hbl & _)].
      * destruct (IH d1 (sy ++ [entry]) Hd1 ltac:(congruence))
          as (d' & outs & sy' & q & Hp & Hd' & Hl' & Hq & Hlen & Hcnt).
        exists d', outs, sy', q. cbn [D.put_loop].
        rewrite Hp1, bind_Ok. cbn beta iota. rewrite Hp, bind_Ok.
        split; [reflexivity|]. split_and!; auto.
        cbn [List.filter]. rewrite Hlist. cbn [length].
        rewrite length_app in Hcnt. cbn [length] in Hcnt. lia.
      * destruct (IH d1 [] Hd1 ltac:(congruence))
          as (d' & outs & sy' & q & Hp & Hd' & Hl' & Hq & Hlen & Hcnt).
        exists d', ([mkOutput 1 bytes 0] ++ outs), sy', (q + 1).
        cbn [D.put_loop].
        rewrite Hp1, bind_Ok. cbn beta iota. rewrite Hp, bind_Ok.
        split; [reflexivity|]. split_and!; auto; [lia| |].
        -- rewrite emitted_app, length_app.
           unfold emitted at 1. cbn [map concat out_data].
           rewrite app_nil_r, Hbl. lia.
        -- cbn [List.filter]. rewrite Hlist. cbn [length].
           cbn [length] in Hcnt. lia.
Qed.

(** X10: a decoder for [b] bits per character, with a lookup
    array built for base [2^b], accepts every input: one [Put2] that ends
    the message succeeds, leaves the cursor at byte 0, bit 0, and hands
    down [n * b / 8] bytes (rounded down), where [n] counts the input
    characters the lookup array lists; trailing bits that do not fill a
    byte are dropped. *)
Theorem decode_any_input b alphabet ci lookup :
  1 <= b <= 7 ->
  D.InitializeDecodingLookupArray alphabet (2 ^ b) ci = Ok lookup ->
  forall s me, me <> 0 ->
    exists d d' outs,
      D.IsolatedInitialize (D.mkParams (Some lookup) (Some b)) = Ok d /\
      D.Put2 d s me = Ok (d', outs) /\
      D.m_bytePos d' = 0 /\ D.m_bitPos d' = 0 /\
      Z.of_nat (length (emitted outs))
      = Z.of_nat (length (List.filter (listed lookup) s)) * b / 8.
Proof.
  intros Hb Hl s me Hme.
  destruct (lookup_bounded alphabet (2 ^ b) ci lookup ltac:(lia) Hl)
    as [Hlen Hent].
  destruct (dec_init b lookup Hb) as (d & Hd & Hinv & Hlk).
  destruct (block_sizes b Hb) as (Hsz & _ & _ & _ & _).
  destruct (dec_loop_count b (block_bytes b) (Z.of_nat (block_chars b)) lookup
              Hb ltac:(lia) Hlen Hent s d [] Hinv Hlk)
    as (d' & outs & sy' & q & Hp & Hd' & Hl' & Hq & Hlo & Hcnt).
  destruct Hd' as [Hn _ HK Hbl Hpos Hbit Hbyte _].
  assert (Hle : D.m_bytePos d' <= Z.of_nat (block_bytes b)) by nia.
  exists d. eexists _, _. split; [exact Hd|].
  unfold D.Put2. rewrite Hp, bind_Ok. cbn beta iota.
  destruct (Z.eqb_spec me 0) as [|_]; [contradiction|].
  unfold D.put_end. rewrite prefix_of_Z by lia. rewrite !bind_Ok.
  split; [reflexivity|]. split; [reflexivity|]. split; [reflexivity|].
  rewrite emitted_app, length_app, Nat2Z.inj_add, Hlo.
  unfold emitted at 1. cbn [map concat out_data]. rewrite app_nil_r.
  assert (Ht : Z.of_nat (length (take (Z.to_nat (D.m_bytePos d'))
                                   (D.m_outBuf d'))) = D.m_bytePos d')
    by (rewrite length_take; lia).
  rewrite Ht. cbn [length] in Hcnt.
  apply (Z.div_unique _ 8 _ (D.m_bitPos d')); [lia|]. nia.
Qed.

Lemma decode_any_input_witness :
  exists lookup d d' outs,
    D.InitializeDecodingLookupArray base64_alphabet (2 ^ 6) false = Ok lookup /\
    D.IsolatedInitialize (D.mkParams (Some lookup) (Some 6)) = Ok d /\
    D.Put2 d (bytes_of_string "TWE=") (-1) = Ok (d', outs) /\
    D.m_bytePos d' = 0 /\ D.m_bitPos d' = 0 /\
    Z.of_nat (length (emitted outs))
    = Z.of_nat (length (List.filter (listed lookup) (bytes_of_string "TWE=")))
      * 6 / 8.
Proof.
  destruct (lookup_exists base64_alphabet (2 ^ 6) base64_alphabet_NoDup
              ltac:(vm_compute; split; discriminate)) as [lookup Hl].
  destruct (decode_any_input 6 base64_alphabet false lookup ltac:(lia) Hl
              (bytes_of_string "TWE=") (-1) ltac:(lia))
    as (d & d' & outs & H).
  exists lookup, d, d', outs. split; [exact Hl|exact H].
Defined.

(** ** The decoder: case-insensitive lookup arrays *)

Lemma rd_insert (l : list Z) k x k' :
  0 <= k < Z.of_nat (length l) -> 0 <= k' ->
  rd (<[Z.to_nat k := x]> l) k' = if k' =? k then Ok x else rd l k'.
Proof.
  intros Hk Hk'. destruct (Z.eqb_spec k' k) as [->|Hne].
  - now apply rd_insert_eq.
  - apply rd_insert_ne; lia.
Qed.

(** A lookup array that does not tell a letter from its upper-case form. *)
Definition folds_case (lookup : list Z) : Prop :=
  length lookup = 256%nat /\
  forall c, 0 <= c < 256 -> rd lookup (D.toupper c) = rd lookup c.

Ltac split_ctype :=
  unfold D.isalpha, D.toupper, D.tolower in *;
  repeat match goal with
         | |- context [?x <=? ?y] => destruct (Z.leb_spec x y)
         | H : context [?x <=? ?y] |- _ => destruct (Z.leb_spec x y)
         end;
  cbn [andb orb] in *.

Lemma toupper_range c : 0 <= c < 256 -> 0 <= D.toupper c < 256.
Proof. intros H. split_ctype; lia. Qed.

Lemma fill_lookup_folds alphabet :
  forall n i lookup lookup',
    folds_case lookup ->
    D.fill_lookup true alphabet n i lookup = Ok lookup' ->
    folds_case lookup'.
Proof.
  induction n as [|n IH]; intros i lookup lookup' Hf H.
  - now injection H as <-.
  - cbn [D.fill_lookup andb] in H.
    apply bind_Ok_inv in H as (a & _ & H).
    apply bind_Ok_inv in H as (l1 & H1 & H).
    eapply IH; [|exact H]. clear H IH.
    destruct Hf as [Hl Hf]. pose proof (byte_to_Z_range a) as Ha.
    destruct (D.isalpha (byte_to_Z a)) eqn:Halpha.
    + apply bind_Ok_inv in H1 as (l0 & H0 & H1).
      apply register_inv in H0 as (R0 & _ & ->).
      apply register_inv in H1 as (R1 & _ & ->).
      rewrite length_insert in R1.
      split; [now rewrite !length_insert|].
      intros c Hc. specialize (Hf c Hc).
      pose proof (toupper_range c Hc).
      rewrite !rd_insert by (rewrite ?length_insert; lia).
      rewrite Hf.
      repeat match goal with
             | |- context [?x =? ?y] => destruct (Z.eqb_spec x y)
             end; try reflexivity; exfalso; split_ctype; try discriminate; lia.
    + apply register_inv in H1 as (R1 & _ & ->).
      split; [now rewrite length_insert|].
      intros c Hc. specialize (Hf c Hc).
      pose proof (toupper_range c Hc).
      rewrite !rd_insert by lia. rewrite Hf.
      repeat match goal with
             | |- context [?x =? ?y] => destruct (Z.eqb_spec x y)
             end; try reflexivity; exfalso; split_ctype; try discriminate; lia.
Qed.

Lemma rd_replicate {A} (n : nat) (x : A) k :
  0 <= k < Z.of_nat n -> rd (replicate n x) k = Ok x.
Proof.
  intros H. rewrite <- (Z2Nat.id k) by lia. apply rd_lookup.
  apply lookup_replicate_2. lia.
Qed.

Lemma lookup_folds_case alphabet base lookup :
  D.InitializeDecodingLookupArray alphabet base true = Ok lookup ->
  folds_case lookup.
Proof.
  apply fill_lookup_folds. split; [reflexivity|].
  intros c Hc. pose proof (toupper_range c Hc).
  rewrite !rd_replicate by lia. reflexivity.
Qed.

(** The upper-case form of a character. *)
Definition upper (c : byte) : byte := Z_to_byte (D.toupper (byte_to_Z c)).

Lemma put_byte_upper d c :
  folds_case (D.m_lookup d) -> D.put_byte d (upper c) = D.put_byte d c.
Proof.
  intros [_ Hf]. pose proof (byte_to_Z_range c) as Hc.
  pose proof (toupper_range _ Hc).
  unfold D.put_byte, upper.
  rewrite byte_to_Z_to_byte_small by lia.
  now rewrite Hf.
Qed.

Lemma put_loop_upper s : forall d,
  folds_case (D.m_lookup d) ->
  D.put_loop d (upper <$> s) = D.put_loop d s.
Proof.
  induction s as [|c s IH]; intros d Hf; [reflexivity|].
  rewrite fmap_cons. cbn [D.put_loop]. rewrite put_byte_upper by assumption.
  destruct (D.put_byte d c) as [[d1 o1]| |] eqn:E; try reflexivity.
  rewrite !bind_Ok. cbn beta iota.
  rewrite IH; [reflexivity|].
  now rewrite (dec_put_byte_lookup _ _ _ _ E).
Qed.

(** X11: a lookup array built with [caseInsensitive]
    has the same entry for a letter and for its upper-case form, and so a
    decoder using it gives the same result, state and outputs, for an
    input and for the input with every letter replaced by its upper-case
    form. *)
Theorem case_insensitive_decoding alphabet base lookup :
  D.InitializeDecodingLookupArray alphabet base true = Ok lookup ->
  (forall c, rd lookup (byte_to_Z (upper c)) = rd lookup (byte_to_Z c)) /\
  forall d s me,
    D.m_lookup d = lookup -> D.Put2 d (upper <$> s) me = D.Put2 d s me.
Proof.
  intros H. pose proof (lookup_folds_case alphabet base lookup H) as Hf.
  split.
  - intros c. pose proof (byte_to_Z_range c) as Hc.
    pose proof (toupper_range _ Hc). unfold upper.
    rewrite byte_to_Z_to_byte_small by lia. now apply Hf.
  - intros d s me <-. unfold D.Put2. now rewrite put_loop_upper.
Qed.

Definition base32_alphabet : list byte :=
  bytes_of_string "ABCDEFGHIJKMNPQRSTUVWXYZ23456789".

Lemma case_insensitive_decoding_witness :
  exists lookup,
    D.InitializeDecodingLookupArray base32_alphabet 32 true = Ok lookup /\
    (forall c, rd lookup (byte_to_Z (upper c)) = rd lookup (byte_to_Z c)) /\
    forall d s me,
      D.m_lookup d = lookup -> D.Put2 d (upper <$> s) me = D.Put2 d s me.
Proof.
  eexists. split; [vm_compute; reflexivity|].
  apply (case_insensitive_decoding base32_alphabet 32).
  vm_compute. reflexivity.
Defined.

(** ** The encoder: the digits it emits *)

Lemma val_app w l l' :
  0 <= w ->
  val w (l ++ l') = val w l * 2 ^ (w * Z.of_nat (length l')) + val w l'.
Proof.
  intros Hw. induction l' as [|x l' IH] using rev_ind.
  - rewrite app_nil_r, val_nil. cbn [length]. rewrite Z.mul_0_r. simpl. lia.
  - rewrite app_assoc, !val_snoc, IH, length_app. cbn [length].
    replace (w * Z.of_nat (length l' + 1))
      with (w * Z.of_nat (length l') + w) by lia.
    rewrite Z.pow_add_r by lia. ring.
Qed.

Lemma syms_app a b : syms (a ++ b) = syms a ++ syms b.
Proof. unfold syms. apply fmap_app. Qed.

Lemma syms_length a : length (syms a) = length a.
Proof. unfold syms. apply length_fmap. Qed.

Lemma enc_loop_digits bpc Bn K :
  1 <= bpc <= 7 -> Z.of_nat Bn * bpc = 8 * K ->
  forall s e pre,
    enc_inv bpc Bn K e pre ->
    exists e' outs pre' ds done,
      E.put_loop e s = Ok (e', outs) /\ enc_inv bpc Bn K e' pre' /\
      E.m_alphabet e' = E.m_alphabet e /\ E.m_padding e' = E.m_padding e /\
      emitted outs = alph (E.m_alphabet e) <$> ds /\
      Forall (sym bpc) ds /\ pre ++ s = done ++ pre' /\
      val bpc ds = val 8 (syms done) /\
      Z.of_nat (length ds) * bpc = 8 * Z.of_nat (length done) /\
      exists q, 0 <= q /\ Z.of_nat (length ds) = Z.of_nat Bn * q.
Proof.
  intros Hb HK. induction s as [|c s IH]; intros e pre He.
  - exists e, [], pre, [], []. rewrite app_nil_r.
    split_and!; try reflexivity; auto. exists 0. cbn [length]. lia.
  - destruct (put_byte_ok bpc Bn K e pre c Hb HK He)
      as (e1 & out1 & Hp1 & Ha1 & Hd1 & Hcase).
    destruct Hcase as [(Hlt & -> & He1)|(Heq & He1 & sy & -> & Hsl & Hsr & Hsv)].
    + destruct (IH e1 (pre ++ [c]) He1)
        as (e' & outs & pre' & ds & done & Hp & He' & Ha & Hd & Hem & Hr
            & Happ & Hv & Hlen & Hq).
      exists e', outs, pre', ds, done. cbn [E.put_loop].
      rewrite Hp1, bind_Ok. cbn beta iota. rewrite Hp, bind_Ok.
      split; [reflexivity|]. rewrite <- app_assoc in Happ.
      split_and!; auto; congruence.
    + destruct (IH e1 [] He1)
        as (e' & outs & pre' & ds & done & Hp & He' & Ha & Hd & Hem & Hr
            & Happ & Hv & Hlen & q & Hq0 & Hq).
      exists e', ([mkOutput 1 (alph (E.m_alphabet e) <$> sy) 0] ++ outs), pre',
        (sy ++ ds), ((pre ++ [c]) ++ done). cbn [E.put_loop].
      rewrite Hp1, bind_Ok. cbn beta iota. rewrite Hp, bind_Ok.
      split; [reflexivity|]. split_and!; auto; try congruence.
      * rewrite emitted_app, Hem, Ha1, fmap_app.
        unfold emitted at 1. cbn [map concat out_data].
        now rewrite app_nil_r.
      * apply Forall_app. auto.
      * cbn [app] in Happ. rewrite <- !app_assoc. cbn [app].
        now rewrite Happ.
      * rewrite syms_app, !val_app, Hsv, Hv, syms_length by lia.
        replace (bpc * Z.of_nat (length ds))
          with (8 * Z.of_nat (length done)) by lia.
        reflexivity.
      * rewrite !length_app in *. cbn [length] in *. nia.
      * exists (q + 1). rewrite length_app. split; [lia|]. nia.
Qed.

Lemma enc_Put2_digits bpc Bn K e s me :
  1 <= bpc <= 7 -> Z.of_nat Bn * bpc = 8 * K ->
  enc_inv bpc Bn K e [] -> me <> 0 ->
  exists e' outs digits k,
    E.Put2 e s me = Ok (e', outs) /\ enc_inv bpc Bn K e' [] /\
    E.m_alphabet e' = E.m_alphabet e /\ E.m_padding e' = E.m_padding e /\
    Forall (sym bpc) digits /\ 0 <= k < bpc /\
    Z.of_nat (length digits) * bpc = 8 * Z.of_nat (length s) + k /\
    val bpc digits = val 8 (syms s) * 2 ^ k /\
    emitted outs
    = (alph (E.m_alphabet e) <$> digits)
      ++ (if negb (E.m_padding e =? -1)
          then replicate
                 (Z.to_nat ((- Z.of_nat (length digits)) mod Z.of_nat Bn))
                 (Z_to_byte (E.m_padding e))
          else []).
Proof.
  intros Hb HK He Hme.
  destruct (enc_loop_digits bpc Bn K Hb HK s e [] He)
    as (e1 & o1 & pre1 & ds & done & Hp & He1 & Ha1 & Hd1 & Hem & Hr & Happ
        & Hv & Hlen & q & Hq0 & Hq).
  destruct (put_end_ok bpc Bn K e1 pre1 me Hb HK He1)
    as (e2 & m & sy & k & Hpe & He2 & Ha2 & Hd2 & _ & HmB & _ & Hsl & Hsr
        & Hk & Hmk & Hsv).
  cbn [app] in Happ. subst s.
  assert (HmBn : (m < Bn)%nat).
  { destruct He1 as [Hn1 _ _ _ _ _ _ _ _]. apply Nat2Z.inj_lt. nia. }
  exists e2. eexists _, (ds ++ sy), k.
  unfold E.Put2. rewrite Hp, bind_Ok. cbn beta iota.
  destruct (Z.eqb_spec me 0) as [|_]; [contradiction|].
  rewrite Hpe, bind_Ok. cbn beta iota.
  split; [reflexivity|]. split; [exact He2|].
  split; [congruence|]. split; [congruence|].
  split; [apply Forall_app; auto|]. split; [exact Hk|].
  rewrite !length_app, syms_app, !val_app, Hv, Hsv, syms_length, Hsl by lia.
  split; [lia|]. split.
  - replace (bpc * Z.of_nat m) with (8 * Z.of_nat (length pre1) + k) by lia.
    rewrite Z.pow_add_r by lia. ring.
  - rewrite emitted_app, Hem. unfold emitted at 1.
    cbn [map concat out_data]. rewrite app_nil_r, Ha1, Hd1, fmap_app.
    rewrite <- app_assoc. do 2 f_equal.
    destruct (E.m_padding e =? -1); cbn [negb andb]; [reflexivity|].
    assert (Hmod : (- Z.of_nat (length ds + m)) mod Z.of_nat Bn
                   = if 0 <? Z.of_nat m then Z.of_nat (Bn - m) else 0).
    { rewrite Nat2Z.inj_add, Hq. destruct (Z.ltb_spec 0 (Z.of_nat m)).
      - symmetry. apply (Z.mod_unique _ _ (- q - 1)); lia.
      - symmetry. apply (Z.mod_unique _ _ (- q)); lia. }
    rewrite Hmod. destruct (0 <? Z.of_nat m); [|reflexivity].
    now rewrite Nat2Z.id.
Qed.

Lemma block_chars_lcm b :
  1 <= b <= 7 -> Z.of_nat (block_chars b) = Z.lcm 8 b / b.
Proof.
  intros H. unfold block_chars. apply Z2Nat.id.
  assert (C : b = 1 \/ b = 2 \/ b = 3 \/ b = 4 \/ b = 5 \/ b = 6 \/ b = 7)
    by lia.
  destruct C as [->|[->|[->|[->|[->|[->| ->]]]]]]; vm_compute; discriminate.
Qed.

(** X12: for [b] in [1, 7] and an alphabet of at least [2^b]
    bytes, one [Put2] on a new encoder that ends the message succeeds and
    hands down the alphabet bytes of a list of [b]-bit digits, followed by
    the padding.  The digits are the input bits, high bit first, followed
    by [k < b] zero bits: their big-endian value is the value of the input
    times [2^k], and there are [(8 n + k) / b] of them for [n] input bytes.
    The padding is absent without a padding byte or with [Pad] false, and
    else repeats the padding byte up to the next multiple of
    [lcm(8, b) / b] characters. *)
Theorem encode_digits b alphabet pad padflag s me :
  1 <= b <= 7 -> 2 ^ b <= Z.of_nat (length alphabet) -> me <> 0 ->
  exists e e' outs digits k,
    E.IsolatedInitialize (E.mkParams (Some alphabet) (Some b) pad padflag)
    = Ok e /\
    E.Put2 e s me = Ok (e', outs) /\
    Forall (fun v => 0 <= v < 2 ^ b) digits /\ 0 <= k < b /\
    Z.of_nat (length digits) * b = 8 * Z.of_nat (length s) + k /\
    val b digits = val 8 (byte_to_Z <$> s) * 2 ^ k /\
    emitted outs
    = ((fun v => alphabet !!! Z.to_nat v) <$> digits)
      ++ match pad with
         | Some p =>
             if default true padflag
             then replicate
                    (Z.to_nat ((- Z.of_nat (length digits))
                               mod (Z.lcm 8 b / b))) p
             else []
         | None => []
         end.
Proof.
  intros Hb Ha Hme.
  destruct (enc_init b alphabet pad padflag Hb Ha) as (e & Hi & He & Hal & Hpd).
  destruct (block_sizes b Hb) as (Hsz & _).
  destruct (enc_Put2_digits b (block_chars b) (Z.of_nat (block_bytes b)) e s me
              Hb Hsz He Hme)
    as (e' & outs & digits & k & Hp & _ & _ & _ & Hr & Hk & Hl & Hv & Hem).
  exists e, e', outs, digits, k.
  split; [exact Hi|]. split; [exact Hp|]. split; [exact Hr|].
  split; [exact Hk|]. split; [exact Hl|]. split; [exact Hv|].
  rewrite Hem, Hal, Hpd, block_chars_lcm by exact Hb. f_equal.
  destruct pad as [p|]; [|reflexivity].
  destruct (default true padflag); [|reflexivity].
  pose proof (byte_to_Z_range p).
  destruct (Z.eqb_spec (byte_to_Z p) (-1)); [lia|].
  cbn [negb]. now rewrite Z_to_byte_to_Z.
Qed.

Lemma encode_digits_witness :
  exists e e' outs digits k,
    E.IsolatedInitialize
      (E.mkParams (Some base64_alphabet) (Some 6) (Some "="%byte) None)
    = Ok e /\
    E.Put2 e (bytes_of_string "Ma") (-1) = Ok (e', outs) /\
    Forall (fun v => 0 <= v < 2 ^ 6) digits /\ 0 <= k < 6 /\
    Z.of_nat (length digits) * 6
    = 8 * Z.of_nat (length (bytes_of_string "Ma")) + k /\
    val 6 digits = val 8 (byte_to_Z <$> bytes_of_string "Ma") * 2 ^ k /\
    emitted outs
    = ((fun v => base64_alphabet !!! Z.to_nat v) <$> digits)
      ++ replicate
           (Z.to_nat ((- Z.of_nat (length digits)) mod (Z.lcm 8 6 / 6)))
           "="%byte.
Proof.
  apply (encode_digits 6 base64_alphabet (Some "="%byte) None
           (bytes_of_string "Ma") (-1));
    [lia | vm_compute; discriminate | lia].
Defined.

(** X13: the length of the encoder's output for [n] input bytes,
    for one [Put2] on a new encoder that ends the message: [n * 8 / b]
    rounded up without padding, and with padding the block length
    [lcm(8, b) / b] times the number of blocks, [n * 8 / lcm(8, b)]
    rounded up. *)
Theorem encoded_length b alphabet pad padflag s me :
  1 <= b <= 7 -> 2 ^ b <= Z.of_nat (length alphabet) -> me <> 0 ->
  exists e e' outs,
    E.IsolatedInitialize (E.mkParams (Some alphabet) (Some b) pad padflag)
    = Ok e /\
    E.Put2 e s me = Ok (e', outs) /\
    Z.of_nat (length (emitted outs))
    = if match pad with Some _ => default true padflag | None => false end
      then Z.lcm 8 b / b * ((8 * Z.of_nat (length s) + Z.lcm 8 b - 1)
                            / Z.lcm 8 b)
      else (8 * Z.of_nat (length s) + b - 1) / b.
Proof.
  intros Hb Ha Hme.
  destruct (enc_init b alphabet pad padflag Hb Ha) as (e & Hi & He & Hal & Hpd).
  destruct (block_sizes b Hb) as (Hsz & _ & _ & Hpos & _).
  destruct (enc_Put2_digits b (block_chars b) (Z.of_nat (block_bytes b)) e s me
              Hb Hsz He Hme)
    as (e' & outs & digits & k & Hp & _ & _ & _ & Hr & Hk & Hl & Hv & Hem).
  exists e, e', outs. split; [exact Hi|]. split; [exact Hp|].
  rewrite Hem, length_app, length_fmap, Nat2Z.inj_add, Hpd.
  pose proof (block_chars_lcm b Hb) as HB.
  assert (HL : Z.lcm 8 b = Z.of_nat (block_chars b) * b).
  { assert (C : b = 1 \/ b = 2 \/ b = 3 \/ b = 4 \/ b = 5 \/ b = 6 \/ b = 7)
      by lia.
    destruct C as [->|[->|[->|[->|[->|[->| ->]]]]]]; vm_compute; reflexivity. }
  rewrite <- HB, HL.
  set (n := Z.of_nat (length s)) in *.
  set (len := Z.of_nat (length digits)) in *.
  set (Bn := Z.of_nat (block_chars b)) in *.
  assert (HBn : 0 < Bn) by lia.
  assert (Hunp : len = (8 * n + b - 1) / b).
  { apply (Z.div_unique _ b _ (b - 1 - k)); lia. }
  destruct pad as [p|]; [|cbn [negb]; rewrite length_nil; lia].
  destruct (default true padflag).
  - pose proof (byte_to_Z_range p).
    destruct (Z.eqb_spec (byte_to_Z p) (-1)); [lia|]. cbn [negb].
    rewrite length_replicate, Z2Nat.id
      by (apply Z.mod_pos_bound; lia).
    pose proof (Z.mod_pos_bound (- len) Bn HBn) as Hm.
    pose proof (Z.div_mod (- len) Bn ltac:(lia)) as Hdm.
    set (r := (- len) mod Bn) in *. set (q := (- len) / Bn) in *.
    assert (Hq : (8 * n + Bn * b - 1) / (Bn * b) = - q).
    { symmetry. apply (Z.div_unique _ _ _ ((Bn - r) * b - 1 - k)); nia. }
    rewrite Hq. nia.
  - cbn [negb]. change (-1 =? -1) with true. cbn [negb].
    rewrite length_nil. lia.
Qed.

Lemma encoded_length_witness :
  exists e e' outs,
    E.IsolatedInitialize
      (E.mkParams (Some base64_alphabet) (Some 6) (Some "="%byte) None)
    = Ok e /\
    E.Put2 e (bytes_of_string "Ma") (-1) = Ok (e', outs) /\
    Z.of_nat (length (emitted outs))
    = Z.lcm 8 6 / 6
      * ((8 * Z.of_nat (length (bytes_of_string "Ma")) + Z.lcm 8 6 - 1)
         / Z.lcm 8 6).
Proof.
  apply (encoded_length 6 base64_alphabet (Some "="%byte) None
           (bytes_of_string "Ma") (-1));
    [lia | vm_compute; discriminate | lia].
Defined.

(** X14: an encoder can be used again after the end of a message:
    after one [Put2] that ends a message, a [Put2] that ends a second
    message hands down the bytes a new encoder hands down for that second
    message. *)
Theorem encoder_reuse b alphabet pad padflag s1 me1 s2 me2 :
  1 <= b <= 7 -> 2 ^ b <= Z.of_nat (length alphabet) ->
  me1 <> 0 -> me2 <> 0 ->
  exists e0 e1 o1 e2 o2 e2' o2',
    E.IsolatedInitialize (E.mkParams (Some alphabet) (Some b) pad padflag)
    = Ok e0 /\
    E.Put2 e0 s1 me1 = Ok (e1, o1) /\
    E.Put2 e1 s2 me2 = Ok (e2, o2) /\
    E.Put2 e0 s2 me2 = Ok (e2', o2') /\
    emitted o2 = emitted o2'.
Proof.
  intros Hb Ha Hme1 Hme2.
  destruct (enc_init b alphabet pad padflag Hb Ha) as (e0 & Hi & He & _).
  destruct (block_sizes b Hb) as (Hsz & _).
  destruct (enc_Put2_digits b (block_chars b) (Z.of_nat (block_bytes b)) e0
              s1 me1 Hb Hsz He Hme1)
    as (e1 & o1 & _ & _ & Hp1 & He1 & Hal1 & Hpd1 & _).
  destruct (enc_Put2_digits b (block_chars b) (Z.of_nat (block_bytes b)) e1
              s2 me2 Hb Hsz He1 Hme2)
    as (e2 & o2 & d & k & Hp2 & _ & _ & _ & Hr & Hk & Hl & Hv & Hem).
  destruct (enc_Put2_digits b (block_chars b) (Z.of_nat (block_bytes b)) e0
              s2 me2 Hb Hsz He Hme2)
    as (e2' & o2' & d' & k' & Hp2' & _ & _ & _ & Hr' & Hk' & Hl' & Hv' & Hem').
  exists e0, e1, o1, e2, o2, e2', o2'.
  split; [exact Hi|]. split; [exact Hp1|]. split; [exact Hp2|].
  split; [exact Hp2'|].
  assert (Hlen : length d = length d') by nia.
  assert (Hkk : k = k') by nia. subst k'.
  assert (d = d') as <-.
  { apply (val_inj b); [lia | exact Hlen | exact Hr | exact Hr' |].
    rewrite Hv, Hv'. reflexivity. }
  rewrite Hem, Hem', Hal1, Hpd1. reflexivity.
Qed.

Lemma encoder_reuse_witness :
  exists e0 e1 o1 e2 o2 e2' o2',
    E.IsolatedInitialize
      (E.mkParams (Some base64_alphabet) (Some 6) (Some "="%byte) None)
    = Ok e0 /\
    E.Put2 e0 (bytes_of_string "M") (-1) = Ok (e1, o1) /\
    E.Put2 e1 (bytes_of_string "Ma") (-1) = Ok (e2, o2) /\
    E.Put2 e0 (bytes_of_string "Ma") (-1) = Ok (e2', o2') /\
    emitted o2 = emitted o2'.
Proof.
  apply (encoder_reuse 6 base64_alphabet (Some "="%byte) None
           (bytes_of_string "M") (-1) (bytes_of_string "Ma") (-1));
    [lia | vm_compute; discriminate | lia | lia].
Defined.


(** ** The decoder: the bytes it emits *)

(** The digit a listed character stands for, and the digits of an input. *)
Definition digit (lookup : list Z) (c : byte) : Z :=
  match rd lookup (byte_to_Z c) with
  | Ok entry => to_unsigned entry
  | _ => 0
  end.

Definition digits (lookup : list Z) (s : list byte) : list Z :=
  digit lookup <$> List.filter (listed lookup) s.

Lemma dec_loop_digits bpc Kn B lookup :
  1 <= bpc <= 7 -> Z.of_nat Kn * 8 = B * bpc ->
  length lookup = 256%nat -> Forall (entry_ok (2 ^ bpc)) lookup ->
  forall s d sy,
    dec_inv bpc Kn B d sy -> D.m_lookup d = lookup ->
    exists d' outs sy' ds,
      D.put_loop d s = Ok (d', outs) /\
      dec_inv bpc Kn B d' sy' /\ D.m_lookup d' = lookup /\
      sy ++ digits lookup s = ds ++ sy' /\
      val 8 (syms (emitted outs)) = val bpc ds /\
      8 * Z.of_nat (length (emitted outs)) = Z.of_nat (length ds) * bpc.
Proof.
  intros Hb HK Hl Hent. induction s as [|c s IH]; intros d sy Hd Hlk.
  - exists d, [], sy, []. split; [reflexivity|]. split_and!; auto.
    unfold digits. cbn [List.filter fmap list_fmap]. apply app_nil_r.
  - pose proof (byte_to_Z_range c) as Hc.
    destruct (lookup_lt_is_Some_2 lookup (Z.to_nat (byte_to_Z c)))
      as [entry He]; [lia|].
    assert (Hr : rd lookup (byte_to_Z c) = Ok entry).
    { rewrite <- (Z2Nat.id (byte_to_Z c)) by lia. now apply rd_lookup. }
    pose proof (Forall_lookup_1 _ _ _ _ Hent He) as [->|Hv].
    + assert (Hi : D.put_byte d c = Ok (d, [])).
      { apply (dec_ignore d c (-1)); [now rewrite Hlk|now vm_compute]. }
      destruct (IH d sy Hd Hlk)
        as (d' & outs & sy' & ds & Hp & Hd' & Hl' & Happ & Hval & Hlen).
      exists d', outs, sy', ds. cbn [D.put_loop].
      rewrite Hi, bind_Ok. cbn beta iota. rewrite Hp, bind_Ok.
      split; [reflexivity|]. split_and!; auto.
      unfold digits. cbn [List.filter]. unfold listed at 1. rewrite Hr.
      change (to_unsigned (-1) <? 256) with false. cbv iota. exact Happ.
    + pose proof (pow2_le_128 bpc Hb) as Hp2.
      assert (Hu : to_unsigned entry = entry)
        by (apply to_unsigned_small; lia).
      destruct (dec_put_byte_ok bpc Kn B d sy c entry entry Hb HK Hd
                  ltac:(now rewrite Hlk) Hu Hv)
        as (d1 & out1 & Hp1 & Hl1 & Hcase).
      assert (Hdig : digits lookup (c :: s) = entry :: digits lookup s).
      { unfold digits. cbn [List.filter]. unfold listed at 1. rewrite Hr, Hu.
        destruct (Z.ltb_spec entry 256); [|lia].
        cbn [fmap list_fmap]. unfold digit at 1. rewrite Hr, Hu. reflexivity. }
      rewrite Hdig.
      destruct Hcase as [(Hlt & -> & Hd1)|(Heq & Hd1 & bytes & -> & Hbl & Hbv)].
      * destruct (IH d1 (sy ++ [entry]) Hd1 ltac:(congruence))
          as (d' & outs & sy' & ds & Hp & Hd' & Hl' & Happ & Hval & Hlen).
        exists d', outs, sy', ds. cbn [D.put_loop].
        rewrite Hp1, bind_Ok. cbn beta iota. rewrite Hp, bind_Ok.
        split; [reflexivity|]. split_and!; auto.
        rewrite <- Happ, <- app_assoc. reflexivity.
      * destruct (IH d1 [] Hd1 ltac:(congruence))
          as (d' & outs & sy' & ds & Hp & Hd' & Hl' & Happ & Hval & Hlen).
        exists d', ([mkOutput 1 bytes 0] ++ outs), sy', ((sy ++ [entry]) ++ ds).
        cbn [D.put_loop].
        rewrite Hp1, bind_Ok. cbn beta iota. rewrite Hp, bind_Ok.
        split; [reflexivity|].
        assert (Hem : emitted ([mkOutput 1 bytes 0] ++ outs)
                      = bytes ++ emitted outs).
        { rewrite emitted_app. unfold emitted at 1.
          cbn [map concat out_data]. rewrite app_nil_r. reflexivity. }
        rewrite Hem. split_and!; auto.
        -- cbn [app] in Happ. rewrite Happ, <- !app_assoc. reflexivity.
        -- rewrite syms_app, (val_app 8), syms_length, Hbv, Hval,
             (val_app bpc (sy ++ [entry]) ds) by lia.
           replace (8 * Z.of_nat (length (emitted outs)))
             with (bpc * Z.of_nat (length ds)) by lia.
           reflexivity.
        -- rewrite !length_app, Hbl. cbn [length].
           subst B. nia.
Qed.

Lemma digits_range bpc lookup s :
  1 <= bpc <= 7 -> length lookup = 256%nat ->
  Forall (entry_ok (2 ^ bpc)) lookup -> Forall (sym bpc) (digits lookup s).
Proof.
  intros Hb Hl Hent. pose proof (pow2_le_128 bpc Hb) as Hp2.
  unfold digits. induction s as [|c s IH]; [constructor|].
  cbn [List.filter]. destruct (listed lookup c) eqn:E; [|exact IH].
  cbn [fmap list_fmap]. constructor; [|exact IH].
  unfold listed in E. unfold digit.
  pose proof (byte_to_Z_range c) as Hc.
  destruct (lookup_lt_is_Some_2 lookup (Z.to_nat (byte_to_Z c)))
    as [entry He]; [lia|].
  assert (Hr : rd lookup (byte_to_Z c) = Ok entry).
  { rewrite <- (Z2Nat.id (byte_to_Z c)) by lia. now apply rd_lookup. }
  rewrite Hr in *.
  pose proof (Forall_lookup_1 _ _ _ _ Hent He) as [->|Hv].
  - vm_compute in E. discriminate.
  - rewrite to_unsigned_small by lia. exact Hv.
Qed.

Lemma dec_Put2_digits b Kn B lookup d s me :
  1 <= b <= 7 -> Z.of_nat Kn * 8 = B * b ->
  length lookup = 256%nat -> Forall (entry_ok (2 ^ b)) lookup ->
  dec_inv b Kn B d [] -> D.m_lookup d = lookup -> me <> 0 ->
  exists d' outs,
    D.Put2 d s me = Ok (d', outs) /\
    dec_inv b Kn B d' [] /\ D.m_lookup d' = lookup /\
    Z.of_nat (length (emitted outs))
    = Z.of_nat (length (digits lookup s)) * b / 8 /\
    val 8 (syms (emitted outs))
    = val b (digits lookup s)
      / 2 ^ ((Z.of_nat (length (digits lookup s)) * b) mod 8).
Proof.
  intros Hb Hsz Hlen Hent Hinv Hlk Hme.
  destruct (dec_loop_digits b Kn B lookup Hb Hsz Hlen Hent s d [] Hinv Hlk)
    as (d' & outs & sy' & ds & Hp & Hd' & Hl' & Happ & Hval & Hlo).
  cbn [app] in Happ.
  destruct Hd' as [Hn Hbpc HK Hbl Hpos Hbit Hbyte Hbuf].
  assert (Hle : D.m_bytePos d' <= Z.of_nat Kn) by nia.
  eexists _, _.
  unfold D.Put2. rewrite Hp, bind_Ok. cbn beta iota.
  destruct (Z.eqb_spec me 0) as [|_]; [contradiction|].
  unfold D.put_end. rewrite prefix_of_Z by lia. rewrite !bind_Ok.
  split; [reflexivity|].
  split; [constructor; simpl; auto; lia|]. split; [exact Hl'|].
  rewrite emitted_app. unfold emitted at 2 4. cbn [map concat out_data].
  rewrite app_nil_r.
  rewrite syms_app, val_app, syms_length, Hval by lia.
  rewrite Happ in *. rewrite val_app, !length_app by lia.
  rewrite length_take, !Nat2Z.inj_add.
  assert (Hmin : Z.of_nat (Z.to_nat (D.m_bytePos d') `min` length (D.m_outBuf d'))
                 = D.m_bytePos d') by lia.
  rewrite Hmin.
  assert (Hmod : ((Z.of_nat (length ds) + Z.of_nat (length sy')) * b) mod 8
                 = D.m_bitPos d').
  { symmetry.
    apply (Z.mod_unique_pos _ 8 (Z.of_nat (length (emitted outs))
                                 + D.m_bytePos d')); lia. }
  rewrite Hmod. split.
  { apply (Z.div_unique _ 8 _ (D.m_bitPos d')); lia. }
  destruct Hbuf as [->|(p & done & cur & Hbp & Hlay & Hcur & Hcm & Hv)].
  - cbn [length] in Hpos. assert (D.m_bytePos d' = 0) by lia.
    assert (D.m_bitPos d' = 0) by lia.
    replace (D.m_bytePos d') with 0 by lia.
    replace (D.m_bitPos d') with 0 by lia.
    cbn [take Z.to_nat length syms fmap list_fmap]. rewrite !val_nil.
    cbn [Z.of_nat]. rewrite !Z.mul_0_r. change (2 ^ 0) with 1.
    rewrite Z.div_1_r. reflexivity.
  - assert (Hdone : syms (take (Z.to_nat (D.m_bytePos d')) (D.m_outBuf d'))
                    = done).
    { unfold syms. rewrite fmap_take. rewrite Hbp, Nat2Z.id.
      apply (layout_take _ _ _ _ _ Hlay). }
    rewrite Hdone, <- Hv.
    set (bit := D.m_bitPos d') in *.
    assert (Hpw : 2 ^ (b * Z.of_nat (length sy'))
                  = 2 ^ (8 * D.m_bytePos d') * 2 ^ bit).
    { rewrite <- Z.pow_add_r by lia. f_equal. lia. }
    rewrite Hpw.
    assert (H256 : 2 ^ (8 - bit) * 2 ^ bit = 256).
    { rewrite <- Z.pow_add_r by lia. replace (8 - bit + bit) with 8 by lia.
      reflexivity. }
    assert (Hp1 : 0 < 2 ^ bit) by (apply Z.pow_pos_nonneg; lia).
    assert (Hp2 : 0 < 2 ^ (8 - bit)) by (apply Z.pow_pos_nonneg; lia).
    assert (Hr : 0 <= cur / 2 ^ (8 - bit) < 2 ^ bit).
    { split; [apply Z.div_pos; lia|]. apply Z.div_lt_upper_bound; lia. }
    apply (Z.div_unique _ _ _ (cur / 2 ^ (8 - bit))); [lia|]. ring.
Qed.

(** X15: what the decoder hands down for any input, for one
    [Put2] on a new decoder that ends the message: the listed characters
    of the input stand for [b]-bit digits (their lookup entries), and the
    output bytes are the bits of these digits, high bit first, without the
    last [(n * b) mod 8] bits, [n] being the number of digits: the
    big-endian value of the output is the value of the digit string
    divided by [2 ^ ((n * b) mod 8)]. *)
Theorem decode_digits b alphabet ci lookup :
  1 <= b <= 7 ->
  D.InitializeDecodingLookupArray alphabet (2 ^ b) ci = Ok lookup ->
  forall s me, me <> 0 ->
    exists d d' outs,
      D.IsolatedInitialize (D.mkParams (Some lookup) (Some b)) = Ok d /\
      D.Put2 d s me = Ok (d', outs) /\
      Forall (fun v => 0 <= v < 2 ^ b) (digits lookup s) /\
      val 8 (byte_to_Z <$> emitted outs)
      = val b (digits lookup s)
        / 2 ^ ((Z.of_nat (length (digits lookup s)) * b) mod 8).
Proof.
  intros Hb Hl s me Hme.
  destruct (lookup_bounded alphabet (2 ^ b) ci lookup ltac:(lia) Hl)
    as [Hlen Hent].
  destruct (dec_init b lookup Hb) as (d & Hd & Hinv & Hlk).
  destruct (block_sizes b Hb) as (Hsz & _ & _ & _ & _).
  destruct (dec_Put2_digits b (block_bytes b) (Z.of_nat (block_chars b))
              lookup d s me Hb ltac:(lia) Hlen Hent Hinv Hlk Hme)
    as (d' & outs & Hp & _ & _ & _ & Hv).
  exists d, d', outs. split; [exact Hd|]. split; [exact Hp|].
  split; [exact (digits_range b lookup s Hb Hlen Hent)|exact Hv].
Qed.

Lemma decode_digits_witness :
  exists lookup d d' outs,
    D.InitializeDecodingLookupArray base64_alphabet (2 ^ 6) false = Ok lookup /\
    D.IsolatedInitialize (D.mkParams (Some lookup) (Some 6)) = Ok d /\
    D.Put2 d (bytes_of_string "TW E=") (-1) = Ok (d', outs) /\
    Forall (fun v => 0 <= v < 2 ^ 6)
      (digits lookup (bytes_of_string "TW E=")) /\
    val 8 (byte_to_Z <$> emitted outs)
    = val 6 (digits lookup (bytes_of_string "TW E="))
      / 2 ^ ((Z.of_nat (length (digits lookup (bytes_of_string "TW E="))) * 6)
             mod 8).
Proof.
  destruct (lookup_exists base64_alphabet (2 ^ 6) base64_alphabet_NoDup
              ltac:(vm_compute; split; discriminate)) as [lookup Hl].
  destruct (decode_digits 6 base64_alphabet false lookup ltac:(lia) Hl
              (bytes_of_string "TW E=") (-1) ltac:(lia))
    as (d & d' & outs & H).
  exists lookup, d, d', outs. split; [exact Hl|exact H].
Defined.


(** X16: a decoder can be used again after the end of a message:
    after one [Put2] that ends a message, whatever its content, a [Put2]
    that ends a second message hands down the bytes a new decoder hands
    down for that second message; nothing of the first message is left in
    the buffer. *)
Theorem decoder_reuse b alphabet ci lookup :
  1 <= b <= 7 ->
  D.InitializeDecodingLookupArray alphabet (2 ^ b) ci = Ok lookup ->
  forall s1 me1 s2 me2, me1 <> 0 -> me2 <> 0 ->
    exists d0 d1 o1 d2 o2 d2' o2',
      D.IsolatedInitialize (D.mkParams (Some lookup) (Some b)) = Ok d0 /\
      D.Put2 d0 s1 me1 = Ok (d1, o1) /\
      D.Put2 d1 s2 me2 = Ok (d2, o2) /\
      D.Put2 d0 s2 me2 = Ok (d2', o2') /\
      emitted o2 = emitted o2'.
Proof.
  intros Hb Hl s1 me1 s2 me2 Hme1 Hme2.
  destruct (lookup_bounded alphabet (2 ^ b) ci lookup ltac:(lia) Hl)
    as [Hlen Hent].
  destruct (dec_init b lookup Hb) as (d0 & Hd & Hinv & Hlk).
  destruct (block_sizes b Hb) as (Hsz & _ & _ & _ & _).
  assert (Hsz' : Z.of_nat (block_bytes b) * 8 = Z.of_nat (block_chars b) * b)
    by lia.
  destruct (dec_Put2_digits b _ _ lookup d0 s1 me1 Hb Hsz' Hlen Hent Hinv Hlk
              Hme1) as (d1 & o1 & Hp1 & Hinv1 & Hlk1 & _).
  destruct (dec_Put2_digits b _ _ lookup d1 s2 me2 Hb Hsz' Hlen Hent Hinv1 Hlk1
              Hme2) as (d2 & o2 & Hp2 & _ & _ & Hn2 & Hv2).
  destruct (dec_Put2_digits b _ _ lookup d0 s2 me2 Hb Hsz' Hlen Hent Hinv Hlk
              Hme2) as (d2' & o2' & Hp2' & _ & _ & Hn2' & Hv2').
  exists d0, d1, o1, d2, o2, d2', o2'.
  split; [exact Hd|]. split; [exact Hp1|]. split; [exact Hp2|].
  split; [exact Hp2'|].
  apply syms_inj. apply (val_inj 8); [lia| |apply syms_range..|congruence].
  rewrite !syms_length. lia.
Qed.

Lemma decoder_reuse_witness :
  exists lookup d0 d1 o1 d2 o2 d2' o2',
    D.InitializeDecodingLookupArray base64_alphabet (2 ^ 6) false = Ok lookup /\
    D.IsolatedInitialize (D.mkParams (Some lookup) (Some 6)) = Ok d0 /\
    D.Put2 d0 (bytes_of_string "TQ") (-1) = Ok (d1, o1) /\
    D.Put2 d1 (bytes_of_string "TWE=") (-1) = Ok (d2, o2) /\
    D.Put2 d0 (bytes_of_string "TWE=") (-1) = Ok (d2', o2') /\
    emitted o2 = emitted o2'.
Proof.
  destruct (lookup_exists base64_alphabet (2 ^ 6) base64_alphabet_NoDup
              ltac:(vm_compute; split; discriminate)) as [lookup Hl].
  destruct (decoder_reuse 6 base64_alphabet false lookup ltac:(lia) Hl
              (bytes_of_string "TQ") (-1) (bytes_of_string "TWE=") (-1)
              ltac:(lia) ltac:(lia))
    as (d0 & d1 & o1 & d2 & o2 & d2' & o2' & H).
  exists lookup, d0, d1, o1, d2, o2, d2', o2'. split; [exact Hl|exact H].
Defined.


(** ** Encoder, grouper and decoder in a row *)

Lemma digits_app lookup a b :
  digits lookup (a ++ b) = digits lookup a ++ digits lookup b.
Proof. unfold digits. rewrite List.filter_app, fmap_app. reflexivity. Qed.

Lemma digits_ignored lookup l :
  Forall (ignored lookup) l -> digits lookup l = [].
Proof.
  unfold digits. induction 1 as [|c l (entry & Hr & Hi) _ IH]; [reflexivity|].
  cbn [List.filter]. unfold listed at 1. rewrite Hr.
  destruct (Z.ltb_spec (to_unsigned entry) 256); [lia|exact IH].
Qed.

Lemma digits_alph b alphabet lookup ds :
  1 <= b <= 7 ->
  (forall v, 0 <= v < 2 ^ b ->
     rd lookup (byte_to_Z (alph alphabet v)) = Ok v) ->
  Forall (sym b) ds -> digits lookup (alph alphabet <$> ds) = ds.
Proof.
  intros Hb Hlook. pose proof (pow2_le_128 b Hb) as Hp2.
  unfold digits. induction 1 as [|v ds Hv _ IH]; [reflexivity|].
  unfold sym in Hv. cbn [fmap list_fmap List.filter].
  unfold listed at 1. rewrite (Hlook v Hv), to_unsigned_small by lia.
  destruct (Z.ltb_spec v 256); [|lia].
  cbn [fmap list_fmap] in *. rewrite IH. unfold digit.
  rewrite (Hlook v Hv), to_unsigned_small by lia. reflexivity.
Qed.

Lemma digits_grouped lookup g sep s :
  Forall (ignored lookup) sep ->
  forall c, digits lookup (grouped g sep c s).1 = digits lookup s.
Proof.
  intros Hsep. induction s as [|x s IH]; intros c; [reflexivity|].
  cbn [grouped fst]. rewrite digits_app.
  change (x :: (grouped g sep ((if c =? g then 0 else c) + 1) s).1)
    with ([x] ++ (grouped g sep ((if c =? g then 0 else c) + 1) s).1).
  rewrite digits_app, IH.
  change (x :: s) with ([x] ++ s). rewrite (digits_app lookup [x] s).
  destruct (c =? g); [rewrite (digits_ignored lookup sep Hsep)|]; reflexivity.
Qed.

Lemma grouper_init_state p st :
  G.IsolatedInitialize p = Ok st ->
  wf_state st /\
  (G.m_separator st = [] \/ G.Separator p = Some (G.m_separator st)) /\
  G.m_terminator st = default [] (G.Terminator p).
Proof.
  unfold G.IsolatedInitialize. intros H.
  assert (Hu : 0 <= to_unsigned (default 0 (G.GroupSize p)) < 2 ^ 32)
    by (apply Z.mod_pos_bound; lia).
  destruct (to_unsigned (default 0 (G.GroupSize p)) =? 0).
  - rewrite bind_Ok in H. injection H as <-. unfold wf_state. simpl.
    split_and!; auto; lia.
  - destruct (G.Separator p) as [sep|]; [|discriminate].
    cbn [GetRequiredParameter] in H. rewrite bind_Ok in H. injection H as <-.
    unfold wf_state. simpl. split_and!; auto; lia.
Qed.

(** X17: encoder, grouper and decoder in a row: when the
    separator, the terminator and the padding byte are bytes the decoder
    ignores, encoding a message, passing the encoder's output through an
    initialised grouper (with or without the message-end flag) and
    decoding the grouper's output gives the message back; all three calls
    succeed, for every group size and with or without padding. *)
Theorem encode_group_decode b alphabet ci lookup pad padflag gparams st :
  1 <= b <= 7 -> 2 ^ b <= Z.of_nat (length alphabet) ->
  D.InitializeDecodingLookupArray alphabet (2 ^ b) ci = Ok lookup ->
  G.IsolatedInitialize gparams = Ok st ->
  (forall p, pad = Some p -> ignored lookup p) ->
  (forall sep, G.Separator gparams = Some sep -> Forall (ignored lookup) sep) ->
  (forall term, G.Terminator gparams = Some term ->
     Forall (ignored lookup) term) ->
  forall s me1 me2 me3, me1 <> 0 -> me3 <> 0 ->
    exists e d e' o1 st' o2 d' o3,
      E.IsolatedInitialize (E.mkParams (Some alphabet) (Some b) pad padflag)
      = Ok e /\
      D.IsolatedInitialize (D.mkParams (Some lookup) (Some b)) = Ok d /\
      E.Put2 e s me1 = Ok (e', o1) /\
      G.Put2 st (emitted o1) me2 = Ok (st', o2) /\
      D.Put2 d (emitted o2) me3 = Ok (d', o3) /\
      emitted o3 = s.
Proof.
  intros Hb Ha Hl Hg Hpad Hsep Hterm s me1 me2 me3 Hme1 Hme3.
  pose proof (pow2_le_128 b Hb) as Hp2.
  destruct (lookup_built alphabet (2 ^ b) ci lookup ltac:(lia) Hl)
    as [_ Hlook].
  destruct (lookup_bounded alphabet (2 ^ b) ci lookup ltac:(lia) Hl)
    as [Hlen Hent].
  destruct (enc_init b alphabet pad padflag Hb Ha) as (e & Hi & He & Hal & Hpd).
  destruct (block_sizes b Hb) as (Hsz & _).
  destruct (enc_Put2_digits b (block_chars b) (Z.of_nat (block_bytes b)) e s
              me1 Hb Hsz He Hme1)
    as (e' & o1 & ds & k & Hp1 & _ & _ & _ & Hr & Hk & Hn & Hv & Hem1).
  destruct (grouper_init_state gparams st Hg) as (Hwf & Hs & Ht).
  destruct (grouper_put2 st (emitted o1) me2 Hwf)
    as (st' & o2 & Hp2' & _ & _ & _ & _ & Hem2).
  destruct (dec_init b lookup Hb) as (d & Hd & Hinv & Hlk).
  destruct (dec_Put2_digits b (block_bytes b) (Z.of_nat (block_chars b))
              lookup d (emitted o2) me3 Hb ltac:(lia) Hlen Hent Hinv Hlk Hme3)
    as (d' & o3 & Hp3 & _ & _ & Hn3 & Hv3).
  exists e, d, e', o1, st', o2, d', o3.
  split; [exact Hi|]. split; [exact Hd|]. split; [exact Hp1|].
  split; [exact Hp2'|]. split; [exact Hp3|].
  assert (Hsep' : Forall (ignored lookup) (G.m_separator st)).
  { destruct Hs as [-> | Hs]; [constructor|exact (Hsep _ Hs)]. }
  assert (Hterm' : Forall (ignored lookup) (G.m_terminator st)).
  { rewrite Ht. destruct (G.Terminator gparams) as [t|];
      [exact (Hterm t eq_refl)|constructor]. }
  assert (Hd1 : digits lookup (emitted o1) = ds).
  { rewrite Hem1, digits_app, Hal, (digits_alph b) by assumption.
    rewrite digits_ignored; [apply app_nil_r|].
    destruct (negb (E.m_padding e =? -1)) eqn:Ep; [|constructor].
    apply Forall_replicate. rewrite Hpd in *.
    destruct pad as [p|]; [|discriminate].
    destruct (default true padflag); [|discriminate].
    rewrite Z_to_byte_to_Z. apply Hpad. reflexivity. }
  assert (Hd2 : digits lookup (emitted o2) = ds).
  { assert (Hend : digits lookup (if me2 =? 0 then [] else G.m_terminator st)
                   = []).
    { destruct (me2 =? 0); [reflexivity|apply digits_ignored, Hterm']. }
    destruct (G.m_groupSize st =? 0); destruct Hem2 as [-> _];
      rewrite digits_app, Hend, app_nil_r; [exact Hd1|].
    rewrite digits_grouped by exact Hsep'. exact Hd1. }
  rewrite Hd2 in *.
  assert (Hmod : (Z.of_nat (length ds) * b) mod 8 = k).
  { symmetry. apply (Z.mod_unique_pos _ 8 (Z.of_nat (length s))); lia. }
  assert (Hdiv : Z.of_nat (length ds) * b / 8 = Z.of_nat (length s)).
  { symmetry. apply (Z.div_unique_pos _ 8 _ k); lia. }
  rewrite Hmod, Hv, Z.div_mul in Hv3
    by (apply Z.pow_nonzero; lia).
  apply syms_inj. apply (val_inj 8); [lia| |apply syms_range..|exact Hv3].
  rewrite !syms_length. lia.
Qed.

Lemma encode_group_decode_witness :
  exists lookup st e d e' o1 st' o2 d' o3,
    D.InitializeDecodingLookupArray base64_alphabet (2 ^ 6) false = Ok lookup /\
    G.IsolatedInitialize
      (G.mkParams (Some 4) (Some (bytes_of_string " ")) (Some [x0a])) = Ok st /\
    E.IsolatedInitialize
      (E.mkParams (Some base64_alphabet) (Some 6) (Some "="%byte) None)
    = Ok e /\
    D.IsolatedInitialize (D.mkParams (Some lookup) (Some 6)) = Ok d /\
    E.Put2 e (bytes_of_string "Many") (-1) = Ok (e', o1) /\
    G.Put2 st (emitted o1) (-1) = Ok (st', o2) /\
    D.Put2 d (emitted o2) (-1) = Ok (d', o3) /\
    emitted o3 = bytes_of_string "Many".
Proof.
  destruct (lookup_exists base64_alphabet (2 ^ 6) base64_alphabet_NoDup
              ltac:(vm_compute; split; discriminate)) as [lookup Hl].
  assert (Hign : forall c, In c (bytes_of_string "= " ++ [x0a]) ->
                           ignored lookup c).
  { intros c Hc. exists (-1). split; [|vm_compute; discriminate].
    vm_compute in Hl. injection Hl as <-.
    cbn in Hc. destruct Hc as [<-|[<-|[<-|[]]]]; reflexivity. }
  destruct (encode_group_decode 6 base64_alphabet false lookup
              (Some "="%byte) None
              (G.mkParams (Some 4) (Some (bytes_of_string " ")) (Some [x0a]))
              (G.mk (bytes_of_string " ") [x0a] 4 0)
              ltac:(lia) ltac:(vm_compute; discriminate) Hl eq_refl)
    with (s := bytes_of_string "Many") (me1 := -1) (me2 := -1) (me3 := -1)
    as (e & d & e' & o1 & st' & o2 & d' & o3 & H).
  - intros p Hp. injection Hp as <-. apply Hign. cbn. auto.
  - intros sep Hs. injection Hs as <-.
    constructor; [|constructor]. apply Hign. cbn. auto.
  - intros term Ht. injection Ht as <-.
    constructor; [|constructor]. apply Hign. cbn. auto.
  - lia.
  - lia.
  - exists lookup, (G.mk (bytes_of_string " ") [x0a] 4 0), e, d, e', o1, st',
      o2, d', o3.
    destruct H as (H1 & H2 & H3). split; [exact Hl|]. split; [reflexivity|].
    split; [exact H1|]. split; [exact H2|]. exact H3.
Defined.


(** ** The grouper: what it forwards *)

(** The input bytes among the outputs: the data of the outputs of the
    forwarding sites 2 and 3. *)
Definition payload (outs : list Output) : list byte :=
  concat (out_data <$>
          List.filter (fun o => (out_site o =? 2) || (out_site o =? 3)) outs).

(** What one output of the grouper may be. *)
Definition framed (sep term : list byte) (g me : Z) (o : Output) : Prop :=
  (out_site o = 1 /\ out_data o = sep /\ out_messageEnd o = 0) \/
  (out_site o = 2 /\ 0 < Z.of_nat (length (out_data o)) <= g /\
   out_messageEnd o = 0) \/
  (out_site o = 3 /\ g = 0 /\ out_messageEnd o = 0) \/
  (out_site o = 4 /\ out_data o = term /\ out_messageEnd o = me /\ me <> 0).

(** Every separator is followed by forwarded input. *)
Definition separators_lead (outs : list Output) : Prop :=
  forall i o, outs !! i = Some o -> out_site o = 1 ->
    exists o', outs !! S i = Some o' /\ out_site o' = 2.

Lemma payload_app a b : payload (a ++ b) = payload a ++ payload b.
Proof.
  unfold payload. rewrite List.filter_app, fmap_app, concat_app. reflexivity.
Qed.

Lemma separators_lead_app a b :
  separators_lead a -> separators_lead b -> separators_lead (a ++ b).
Proof.
  intros Ha Hb i o Hi Hs.
  destruct (lookup_app_Some a b i o) as [[Hl|[Hge Hr]] _]; [exact Hi| |].
  - destruct (Ha i o Hl Hs) as (o' & Ho' & Hs'). exists o'. split; [|exact Hs'].
    apply lookup_app_l_Some. exact Ho'.
  - destruct (Hb _ o Hr Hs) as (o' & Ho' & Hs'). exists o'. split; [|exact Hs'].
    rewrite lookup_app_r by lia.
    replace (S i - length a)%nat with (S (i - length a)) by lia. exact Ho'.
Qed.

Lemma put_loop_outputs term me fuel :
  forall st s,
    wf st -> (length s <= fuel)%nat ->
    exists st' outs,
      G.put_loop fuel st s = Ok (st', outs) /\
      payload outs = s /\
      Forall (framed (G.m_separator st) term (G.m_groupSize st) me) outs /\
      separators_lead outs /\
      G.m_terminator st' = G.m_terminator st /\
      Forall (fun o => out_site o <> 4) outs.
Proof.
  induction fuel as [|fuel IH]; intros st s Hwf Hlen.
  - destruct s; [|simpl in Hlen; lia].
    exists st, []. simpl. split_and!; auto. intros i o Hi. discriminate.
  - destruct s as [|x s].
    { exists st, []. simpl. split_and!; auto. intros i o Hi. discriminate. }
    destruct Hwf as [Hc Hg].
    set (g := G.m_groupSize st) in *. set (sep := G.m_separator st).
    set (c0 := if G.m_counter st =? g then 0 else G.m_counter st).
    assert (Hc0 : 0 <= c0 < g)
      by (subst c0; destruct (Z.eqb_spec (G.m_counter st) g); lia).
    set (inp := x :: s) in *.
    set (len := Z.min (Z.of_nat (length inp)) (to_unsigned (g - c0))).
    assert (Hgap : to_unsigned (g - c0) = g - c0)
      by (apply to_unsigned_small; lia).
    assert (Hlen1 : 1 <= len <= Z.of_nat (length inp) /\ len <= g - c0).
    { subst len. rewrite Hgap. subst inp. simpl length. lia. }
    assert (Hstep : G.put_loop (S fuel) st inp
              = (data ← prefix_of inp len;
                 '(g', out2) ← G.put_loop fuel
                                 (G.set_counter st (to_unsigned (c0 + len)))
                                 (drop (Z.to_nat len) inp);
                 Ok (g', (if G.m_counter st =? g
                          then [mkOutput 1 sep 0] else [])
                         ++ mkOutput 2 data 0 :: out2))).
    { subst inp. simpl G.put_loop. fold g. subst c0 len.
      destruct (G.m_counter st =? g); reflexivity. }
    rewrite Hstep. clear Hstep.
    rewrite prefix_of_Z by lia. rewrite bind_Ok.
    rewrite (to_unsigned_small (c0 + len)) by lia.
    destruct (IH (G.set_counter st (c0 + len)) (drop (Z.to_nat len) inp))
      as (st' & outs & Hpl & Hpay & Hfr & Hsl & Hterm & Hn4).
    { split; simpl; lia. }
    { rewrite length_drop. subst inp. simpl length in *. lia. }
    rewrite Hpl, bind_Ok. cbn beta iota.
    eexists _, _. split; [reflexivity|].
    simpl G.m_groupSize in *. simpl G.m_separator in *. fold g sep in Hfr.
    assert (Hdata : framed sep term g me
                      (mkOutput 2 (take (Z.to_nat len) inp) 0)).
    { right; left. simpl. rewrite length_take. split_and!; auto; lia. }
    assert (Hrest : separators_lead
                      (mkOutput 2 (take (Z.to_nat len) inp) 0 :: outs)).
    { intros [|i] o Hi Hs.
      - injection Hi as <-. discriminate.
      - exact (Hsl i o Hi Hs). }
    split_and!.
    + rewrite payload_app.
      change (payload (mkOutput 2 ?d 0 :: ?os)) with (d ++ payload os).
      rewrite Hpay, take_drop.
      destruct (G.m_counter st =? g); reflexivity.
    + apply Forall_app. split; [|constructor; assumption].
      destruct (G.m_counter st =? g); constructor; [|constructor].
      left. simpl. auto.
    + destruct (G.m_counter st =? g); [|exact Hrest].
      intros [|i] o Hi Hs.
      * eexists. split; [reflexivity|reflexivity].
      * exact (Hrest i o Hi Hs).
    + exact Hterm.
    + apply Forall_app. split; [|constructor; [simpl; lia|exact Hn4]].
      destruct (G.m_counter st =? g); constructor; [simpl; lia|constructor].
Qed.

(** X18: from any state whose counter does not exceed
    the group size, [Put2] of the grouper succeeds and forwards the input
    unchanged and in order: the data of the outputs of the forwarding
    sites 2 and 3, concatenated, is the input.  Every other output is the
    separator (site 1) or the terminator (site 4); a forwarded chunk of
    site 2 has between 1 and [m_groupSize] bytes; a separator is always
    followed directly by a forwarded chunk, so the output never ends with
    a separator; the terminator is sent exactly when the message ends,
    once and as the last output, with the message-end flag. *)
Theorem grouper_forwards_input st s me :
  0 <= G.m_counter st <= G.m_groupSize st -> G.m_groupSize st < 2 ^ 32 ->
  exists st' outs,
    G.Put2 st s me = Ok (st', outs) /\
    payload outs = s /\
    Forall (framed (G.m_separator st) (G.m_terminator st)
              (G.m_groupSize st) me) outs /\
    separators_lead outs /\
    (me <> 0 ->
     exists outs', outs = outs' ++ [mkOutput 4 (G.m_terminator st) me] /\
                   Forall (fun o => out_site o <> 4) outs') /\
    (me = 0 -> Forall (fun o => out_site o <> 4) outs).
Proof.
  intros Hc Hg.
  assert (Hend : forall st1 outs,
            G.m_terminator st1 = G.m_terminator st ->
            payload outs = s ->
            Forall (framed (G.m_separator st) (G.m_terminator st)
                      (G.m_groupSize st) me) outs ->
            separators_lead outs ->
            Forall (fun o => out_site o <> 4) outs ->
            exists st' outs',
              (if me =? 0 then Ok (st1, outs)
               else Ok (G.set_counter st1 0,
                        outs ++ [mkOutput 4 (G.m_terminator st1) me]))
              = Ok (st', outs') /\
              payload outs' = s /\
              Forall (framed (G.m_separator st) (G.m_terminator st)
                        (G.m_groupSize st) me) outs' /\
              separators_lead outs' /\
              (me <> 0 ->
               exists o, outs' = o ++ [mkOutput 4 (G.m_terminator st) me] /\
                         Forall (fun o => out_site o <> 4) o) /\
              (me = 0 -> Forall (fun o => out_site o <> 4) outs')).
  { intros st1 outs Ht Hpay Hfr Hsl Hn4.
    destruct (Z.eqb_spec me 0) as [E|E].
    - exists st1, outs. split_and!; auto. intros; contradiction.
    - eexists _, _. split; [reflexivity|]. rewrite Ht. split_and!.
      + rewrite payload_app. unfold payload at 2. simpl.
        rewrite app_nil_r. exact Hpay.
      + apply Forall_app. split; [exact Hfr|]. constructor; [|constructor].
        right; right; right. simpl. auto.
      + apply separators_lead_app; [exact Hsl|].
        intros [|i] o Hi Hs; [injection Hi as <-|]; discriminate.
      + intros _. exists outs. auto.
      + intros; contradiction. }
  unfold G.Put2.
  destruct (Z.eqb_spec (G.m_groupSize st) 0) as [E0|Hne].
  - rewrite bind_Ok. cbn beta iota. apply Hend.
    + reflexivity.
    + unfold payload. simpl. apply app_nil_r.
    + constructor; [|constructor]. right; right; left. simpl. auto.
    + intros [|i] o Hi Hs; [injection Hi as <-|]; discriminate.
    + constructor; [simpl; lia|constructor].
  - destruct (put_loop_outputs (G.m_terminator st) me (length s) st s
                ltac:(split; lia) ltac:(lia))
      as (st1 & outs & Hpl & Hpay & Hfr & Hsl & Hst1 & Hn4).
    rewrite Hpl, bind_Ok. cbn beta iota.
    apply Hend; assumption.
Qed.

Lemma grouper_forwards_input_witness :
  exists st' outs,
    G.Put2 (G.mk (bytes_of_string " ") [x0a] 4 0)
      (bytes_of_string "TWFuTWFu") (-1) = Ok (st', outs) /\
    payload outs = bytes_of_string "TWFuTWFu" /\
    Forall (framed (bytes_of_string " ") [x0a] 4 (-1)) outs /\
    separators_lead outs /\
    (-1 <> 0 ->
     exists outs', outs = outs' ++ [mkOutput 4 [x0a] (-1)] /\
                   Forall (fun o => out_site o <> 4) outs') /\
    (-1 = 0 -> Forall (fun o => out_site o <> 4) outs).
Proof.
  apply (grouper_forwards_input (G.mk (bytes_of_string " ") [x0a] 4 0)
           (bytes_of_string "TWFuTWFu") (-1)); simpl; lia.
Defined.

(** X19: without a group size, or with the group
    size 0, the grouper can be initialised with or without a separator,
    and [Put2] hands down the input as it is, followed by the terminator
    (empty if none was given) when the message ends; the state is left as
    it was. *)
Theorem grouper_without_group_size gs sep term s me :
  gs = None \/ gs = Some 0 ->
  exists st st' outs,
    G.IsolatedInitialize (G.mkParams gs sep term) = Ok st /\
    G.Put2 st s me = Ok (st', outs) /\
    emitted outs = s ++ (if me =? 0 then [] else default [] term) /\
    st' = st.
Proof.
  intros Hgs.
  assert (Hi : G.IsolatedInitialize (G.mkParams gs sep term)
               = Ok (G.mk [] (default [] term) 0 0)).
  { destruct Hgs as [-> | ->]; reflexivity. }
  rewrite Hi. unfold G.Put2. simpl.
  destruct (Z.eqb_spec me 0).
  - eexists _, _, _. split; [reflexivity|]. split; [reflexivity|].
    split; [|reflexivity]. unfold emitted. simpl. reflexivity.
  - eexists _, _, _. split; [reflexivity|]. split; [reflexivity|].
    split; [|reflexivity]. unfold emitted. simpl.
    rewrite app_nil_r. reflexivity.
Qed.

Lemma grouper_without_group_size_witness :
  exists st st' outs,
    G.IsolatedInitialize
      (G.mkParams None (Some (bytes_of_string " ")) (Some [x0a])) = Ok st /\
    G.Put2 st (bytes_of_string "TWFuTWFu") (-1) = Ok (st', outs) /\
    emitted outs = bytes_of_string "TWFuTWFu" ++ [x0a] /\
    st' = st.
Proof.
  apply (grouper_without_group_size None (Some (bytes_of_string " "))
           (Some [x0a]) (bytes_of_string "TWFuTWFu") (-1)).
  left. reflexivity.
Defined.
